(** * proyecto2DE: the GOLD aggregation pipeline

    A shallow embedding of [scripts/aggregate_gold.py] (surrogate-key
    dictionary, partition aggregator, language sequencer, partition locator)
    and of the column resolution of [scripts/build_gold_specifics.py],
    followed by the properties the specification states about them.

    Conventions of the embedding.
    - A [pathlib.Path] is the list of its parts.
    - The file system maps paths to files; a file is either raw bytes that no
      Parquet reader accepts, or a Parquet file holding one table.  Directories
      are implicit.  Reads fail on absent or unreadable files, writes succeed.
    - The DuckDB connection is the record of its temporary tables; every SQL
      statement of the script is a pure query over those tables.
    - Python exceptions are the [Raise] outcome of a state-and-exception
      monad; the state reached when the exception is raised is kept, as
      Python keeps it.
    - Everything printed is recorded, in order, together with every file
      operation, in the log of the world; elapsed times are left out. *)

From Stdlib Require Import ZArith String Ascii List Sorted Permutation DecimalString Lia.
From Stdlib Require DecimalZ.
From stdpp Require Import gmap strings list sorting.

Open Scope string_scope.
Open Scope list_scope.
Open Scope Z_scope.

(** ** Python and SQL primitives *)

Module Py.

(** [str.split(sep)] for a one-character separator. *)
Fixpoint split (sep : ascii) (s : string) : list string :=
  match s with
  | EmptyString => [EmptyString]
  | String a s' =>
      if Ascii.eqb a sep then EmptyString :: split sep s'
      else match split sep s' with
           | h :: t => String a h :: t
           | [] => [String a EmptyString]
           end
  end.

(** The white space [int] skips around the digits of an ASCII string:
    tab to carriage return, and the space. *)
Definition isspace (a : ascii) : bool :=
  let n := N_of_ascii a in
  ((9 <=? n) && (n <=? 13) || (n =? 32))%N.

Definition isdigit (a : ascii) : bool :=
  let n := N_of_ascii a in ((48 <=? n) && (n <=? 57))%N.

Definition digit (a : ascii) : Z := Z.of_N (N_of_ascii a) - 48.

Fixpoint lstrip (s : string) : string :=
  match s with
  | String a s' => if isspace a then lstrip s' else s
  | EmptyString => EmptyString
  end.

Definition strip (s : string) : string :=
  String.rev (lstrip (String.rev (lstrip s))).

(** Decimal digits, single underscores allowed between two digits. *)
Fixpoint int_digits (acc : Z) (s : string) : option Z :=
  match s with
  | EmptyString => Some acc
  | String a r =>
      if isdigit a then int_digits (10 * acc + digit a) r
      else if Ascii.eqb a "_" then
        match r with
        | String b r' =>
            if isdigit b then int_digits (10 * acc + digit b) r' else None
        | EmptyString => None
        end
      else None
  end.

Definition int_unsigned (s : string) : option Z :=
  match s with
  | String a r => if isdigit a then int_digits (digit a) r else None
  | EmptyString => None
  end.

(** [int(s)] on a string of ASCII characters: [None] is [ValueError].
    (The decimal digits of other scripts, which [int] also reads, are not
    part of the embedding.) *)
Definition int (s : string) : option Z :=
  match strip s with
  | String "-" r => Z.opp <$> int_unsigned r
  | String "+" r => int_unsigned r
  | r => int_unsigned r
  end.

(** [f"{n}"] *)
Definition str (n : Z) : string := NilZero.string_of_int (Z.to_int n).

Fixpoint zeros (k : nat) : string :=
  match k with
  | O => EmptyString
  | S k' => String "0" (zeros k')
  end.

(** [f"{n:0Wd}"]: the digits are padded with zeros up to [width], the sign
    counting in the width. *)
Definition fmt_0d (width : nat) (n : Z) : string :=
  let sign := if n <? 0 then "-" else "" in
  let digits := str (Z.abs n) in
  sign +:+ zeros (width - String.length sign - String.length digits) +:+ digits.

Definition fmt_02d : Z → string := fmt_0d 2.
Definition fmt_04d : Z → string := fmt_0d 4.

(** Inserting before the first element that is not smaller keeps equal
    elements in their original order: [sorted] is stable, as Python's is. *)
Fixpoint insert {A} (le : A → A → bool) (x : A) (l : list A) : list A :=
  match l with
  | [] => [x]
  | y :: l' => if le x y then x :: l else y :: insert le x l'
  end.

(** [sorted(l, key=...)], with [le] the order on the keys. *)
Fixpoint sorted {A} (le : A → A → bool) (l : list A) : list A :=
  match l with
  | [] => []
  | x :: l' => insert le x (sorted le l')
  end.

(** Order of [(int, int)] tuples. *)
Definition tuple_leb (a b : Z * Z) : bool :=
  (a.1 <? b.1) || ((a.1 =? b.1) && (a.2 <=? b.2)).

(** [max(l)] on a non-empty list of tuples; [None] on the empty one. *)
Definition max (l : list (Z * Z)) : option (Z * Z) :=
  match l with
  | [] => None
  | x :: l' => Some (fold_left (λ m y, if tuple_leb y m then m else y) l' x)
  end.

End Py.

(** ** Exceptions and results *)

Inductive exn :=
| IndexError            (* a partition directory name without [=] *)
| KeyError              (* no [lang], [year] or [month] directory; an absent dict key *)
| ValueError            (* [int] of a directory value that is no number *)
| IOException           (* [read_parquet] of an absent or unreadable file *)
| BinderException       (* a Parquet file without the columns the query names *)
| ConversionException   (* [CAST(... AS BIGINT)] of a value outside BIGINT *)
| OutOfRangeException.  (* overflow of a BIGINT addition *)

Inductive result (A : Type) :=
| Ok (a : A)
| Raise (e : exn).
Arguments Ok {A} a.
Arguments Raise {A} e.

Global Instance result_ret : MRet result := λ A a, Ok a.
Global Instance result_bind : MBind result :=
  λ A B f m, match m with Ok a => f a | Raise e => Raise e end.

Definition of_option {A} (e : exn) (o : option A) : result A :=
  match o with Some a => Ok a | None => Raise e end.

Global Instance exn_eq_dec : EqDecision exn.
Proof. solve_decision. Defined.

(** ** Paths *)

Abbreviation Path := (list string).

Module PathLib.

(** [p / name], for a [name] that is one part: not empty, not [.], free
    of [/].  Every operand below is a constant or a name made of a parsed
    directory name and numbers. *)
Definition div (p : Path) (name : string) : Path := p ++ [name].

(** [p.parent] *)
Definition parent (p : Path) : Path := removelast p.

(** [p.parts[-3:]] *)
Definition last3 (p : Path) : list string := drop (length p - 3) p.

(** [p.with_suffix(p.suffix + ".tmp")]: whatever the suffix of the name is,
    the new name is the old one followed by [.tmp]. *)
Definition with_suffix_tmp (p : Path) : Path :=
  match p with
  | [] => []
  | _ => removelast p ++ [List.last p "" +:+ ".tmp"]
  end.

End PathLib.

Infix "//" := PathLib.div (at level 40, left associativity).

(** [parse_partition_from_path]: the dict comprehension over the last three
    directories, then the three lookups. *)
Definition parse_partition_from_path (silver_file : Path) : result (string * Z * Z) :=
  parts ← foldl (λ acc kv,
                   d ← acc;
                   k ← of_option IndexError (Py.split "=" kv !! 0%nat);
                   v ← of_option IndexError (Py.split "=" kv !! 1%nat);
                   Ok (<[k := v]> d))
                (Ok (∅ : gmap string string))
                (PathLib.last3 (PathLib.parent silver_file));
  lang ← of_option KeyError (parts !! "lang");
  year ← of_option KeyError (parts !! "year");
  year ← of_option ValueError (Py.int year);
  month ← of_option KeyError (parts !! "month");
  month ← of_option ValueError (Py.int month);
  Ok (lang, year, month).

(** [outputs_for]: a dict keeps its insertion order, so it is the list of its
    items. *)
Definition outputs_for (lang : string) (year month : Z) (gold_root : Path)
  : list (string * Path) :=
  let mm := Py.fmt_02d month in
  let base := λ name : string,
    gold_root // name // ("lang=" +:+ lang) // ("year=" +:+ Py.str year)
              // ("month=" +:+ mm) // "data.parquet" in
  [ ("article_popularity", base "article_popularity");
    ("article_top",        base "article_top");
    ("referrers_top",      base "referrers_top");
    ("edges_monthly",      base "edges_monthly") ].

Definition dim_path_for (lang : string) (gold_root : Path) : Path :=
  gold_root // "dimensions" // "articles" // ("lang=" +:+ lang) // "dict.parquet".

(** [d[k]] *)
Definition dict_get {V} (k : string) (d : list (string * V)) : result V :=
  of_option KeyError (snd <$> List.find (λ kv, String.eqb kv.1 k) d).

(** [l.remove(x)]: the first occurrence goes. *)
Fixpoint list_remove (x : string) (l : list string) : list string :=
  match l with
  | [] => []
  | y :: l' => if String.eqb y x then l' else y :: list_remove x l'
  end.

(** ** Rows and tables *)

(** A SILVER record, as the file holds it; the [type] column is never
    named by the aggregation and is left out. *)
Record silver_row := SilverRow {
  r_lang : string; r_year : Z; r_month : Z;
  r_prev_title : option string; r_curr_title : option string;
  r_n : option Z }.

(** A row of the temporary table [s]. *)
Record s_row := SRow {
  s_lang : string; s_year : Z; s_month : Z;
  s_prev_title : option string; s_curr_title : option string;
  s_n : Z }.

(** A dictionary entry.  The dictionary files are written by this program
    only: their ids come from [ROW_NUMBER() + base] and their titles passed
    [IS NOT NULL], so neither column holds NULL. *)
Record dim_row := DimRow { d_id : Z; d_title : string }.

(** A row of [s_ids]. *)
Record ids_row := IdsRow {
  i_lang : string; i_year : Z; i_month : Z;
  i_prev_id : option Z; i_curr_id : Z; i_n : Z }.

Record pop_row := PopRow {
  p_lang : string; p_year : Z; p_month : Z; p_curr_id : Z; p_total_clicks : Z }.

Record top_row := TopRow { t_pop : pop_row; t_rn : Z }.

Record edge_row := EdgeRow {
  e_lang : string; e_year : Z; e_month : Z;
  e_prev_id : Z; e_curr_id : Z; e_total_transitions : Z }.

(** [referrers_top]: the aggregate row ([total_transitions] holding
    [clicks_from_prev]) and its rank. *)
Record ref_row := RefRow { f_agg : edge_row; f_rn : Z }.

Inductive table :=
| TSilver (rows : list silver_row)
| TDim (rows : list dim_row)
| TPop (rows : list pop_row)
| TTop (rows : list top_row)
| TRef (rows : list ref_row)
| TEdges (rows : list edge_row).

(** A file: [size] bytes that are no Parquet file ([Raw 0] is the empty
    file), or a Parquet file; the latter is never empty, it carries at least
    its magic bytes and footer. *)
Inductive file :=
| Raw (size : N)
| Parquet (t : table).

(** [os.path.getsize(p) > 0] *)
Definition size_positive (f : file) : bool :=
  match f with
  | Raw n => (0 <? n)%N
  | Parquet _ => true
  end.

Global Instance dim_row_eq_dec : EqDecision dim_row.
Proof. solve_decision. Defined.
Global Instance pop_row_eq_dec : EqDecision pop_row.
Proof. solve_decision. Defined.

(** ** The relational operators the queries use *)

Module Sql.

Definition bigint_max : Z := 2 ^ 63 - 1.
Definition bigint_min : Z := - 2 ^ 63.
Definition in_bigint (z : Z) : bool := (bigint_min <=? z) && (z <=? bigint_max).

(** [SUM]: the sum of BIGINTs is a HUGEINT; no partition has the 2^64 rows
    it takes to leave that type, so the sum is the integer sum. *)
Definition sum (l : list Z) : Z := foldr Z.add 0 l.

(** Integers up to [double_exact] in absolute value are DOUBLEs. *)
Definition double_exact : Z := 2 ^ 53.

(** The DOUBLE nearest to an integer, halves going to the even mantissa.
    Parquet has no 128-bit integer: a HUGEINT column is written as
    DOUBLE. *)
Definition to_double (z : Z) : Z :=
  let a := Z.abs z in
  if a <=? double_exact then z
  else
    let e := Z.log2 a - 52 in
    let q := Z.shiftr a e in
    let r := a - Z.shiftl q e in
    let half := Z.shiftl 1 (e - 1) in
    let q' := if (half <? r) || ((r =? half) && Z.odd q) then q + 1 else q in
    Z.sgn z * Z.shiftl q' e.

(** [MAX]: NULL on the empty table. *)
Definition max (l : list Z) : option Z :=
  match l with
  | [] => None
  | x :: l' => Some (foldr Z.max x l')
  end.

Definition coalesce (o : option Z) (d : Z) : Z := default d o.

(** [SELECT DISTINCT].  The order of the result is the engine's; here the
    last occurrence of each value stays. *)
Definition distinct {A} `{EqDecision A} (l : list A) : list A := remove_dups l.

(** [ORDER BY] with the order [le].  SQL leaves the order among rows with
    equal keys to the engine, and the engine may settle it differently from
    one run to the next.  The embedding takes one of the orders the engine
    may give, that of a stable sort; the properties below are stated so
    that they hold whichever order the engine takes, except where a
    statement names this one. *)
Definition order_by {A} (le : A → A → bool) (rows : list A) : list A :=
  Py.sorted le rows.

(** [GROUP BY key] with [SUM(val)], one row per group (the order of the
    groups is the engine's; here that of [distinct]). *)
Definition group_sum {A K} `{EqDecision K} (key : A → K) (val : A → Z)
    (rows : list A) : list (K * Z) :=
  (λ k, (k, sum (val <$> filter (λ r, key r = k) rows)))
    <$> distinct (key <$> rows).

Fixpoint number_from {A} (n : Z) (rows : list A) : list (A * Z) :=
  match rows with
  | [] => []
  | r :: rows' => (r, n) :: number_from (n + 1) rows'
  end.

(** The order of [ORDER BY val DESC]. *)
Definition desc {A} (val : A → Z) (a b : A) : bool := val b <=? val a.

(** [ROW_NUMBER() OVER (PARTITION BY part ORDER BY val DESC)] followed by
    [QUALIFY rn <= limit]. *)
Definition row_number_desc {A K} `{EqDecision K} (part : A → K) (val : A → Z)
    (limit : Z) (rows : list A) : list (A * Z) :=
  filter (λ x, x.2 ≤ limit)
    (concat ((λ k, number_from 1
                     (order_by (desc val) (filter (λ r, part r = k) rows)))
               <$> distinct (part <$> rows))).

End Sql.

(** The rows of a fact as Parquet stores them: the [SUM] column, a HUGEINT,
    becomes a DOUBLE; the other columns (VARCHAR, BIGINT) are kept. *)
Definition pop_stored (p : pop_row) : pop_row :=
  PopRow (p_lang p) (p_year p) (p_month p) (p_curr_id p)
         (Sql.to_double (p_total_clicks p)).

Definition edge_stored (e : edge_row) : edge_row :=
  EdgeRow (e_lang e) (e_year e) (e_month e) (e_prev_id e) (e_curr_id e)
          (Sql.to_double (e_total_transitions e)).

(** What [COPY ... (FORMAT PARQUET)] writes for the result of a query. *)
Definition parquet_of (t : table) : table :=
  match t with
  | TPop rows => TPop (pop_stored <$> rows)
  | TTop rows => TTop ((λ x, TopRow (pop_stored (t_pop x)) (t_rn x)) <$> rows)
  | TRef rows => TRef ((λ x, RefRow (edge_stored (f_agg x)) (f_rn x)) <$> rows)
  | TEdges rows => TEdges (edge_stored <$> rows)
  | TSilver _ | TDim _ => t
  end.

(** ** The queries of [aggregate_gold.py] *)

(** [SELECT lang, year, month, ... FROM read_parquet(src) WHERE n > 0].
    The file lies under [lang=.../year=.../month=...]: the engine takes the
    three columns from these directory names, whatever the file holds under
    the same names; [part] is what they spell, as
    [parse_partition_from_path] read it.  The filter reads the column [n]
    of the file, the cast applies to the rows that pass it. *)
Definition q_s (part : string * Z * Z) (rows : list silver_row)
  : result (list s_row) :=
  let kept := omap (λ r, n ← r_n r;
                         if 0 <? n then Some (r, n) else None) rows in
  if forallb (λ x, Sql.in_bigint x.2) kept
  then Ok ((λ x, SRow part.1.1 part.1.2 part.2
                      (r_prev_title x.1) (r_curr_title x.1) x.2) <$> kept)
  else Raise ConversionException.

Definition q_part_titles_all (s : list s_row) : list string :=
  omap s_curr_title s ++ omap s_prev_title s.

Definition q_part_titles (part_titles_all : list string) : list string :=
  Sql.distinct part_titles_all.

(** The anti-join: a title stays when no dictionary row carries it. *)
Definition q_new_titles (part_titles : list string) (dim_idx : list dim_row)
  : list string :=
  filter (λ t, t ∉ d_title <$> dim_idx) part_titles.

(** [SELECT COALESCE(MAX(id), 0) FROM dim] *)
Definition q_base (dim : list dim_row) : Z :=
  Sql.coalesce (Sql.max (d_id <$> dim)) 0.

(** [ROW_NUMBER() OVER (ORDER BY title) + base] over the distinct new
    titles; the BIGINT addition raises when it leaves the type. *)
Definition q_dim_new (base : Z) (new_titles : list string) : result (list dim_row) :=
  let numbered :=
    Sql.number_from 1 (Sql.order_by String.leb (Sql.distinct new_titles)) in
  if forallb (λ x, Sql.in_bigint (x.2 + base)) numbered
  then Ok ((λ x, DimRow (x.2 + base) x.1) <$> numbered)
  else Raise OutOfRangeException.

(** [... FROM dim UNION ALL ... FROM dim_new]: the rows of both, here the
    old ones first; the engine is free to deliver them in another order. *)
Definition q_dim_merged (dim dim_new : list dim_row) : list dim_row :=
  dim ++ dim_new.

(** [s JOIN dim_idx dc ON dc.title = s.curr_title
       LEFT JOIN dim_idx dp ON dp.title = s.prev_title] *)
Definition q_s_ids (s : list s_row) (dim_idx : list dim_row) : list ids_row :=
  r ← s;
  dc ← filter (λ d, Some (d_title d) = s_curr_title r) dim_idx;
  let mk := λ prev_id,
    IdsRow (s_lang r) (s_year r) (s_month r) prev_id (d_id dc) (s_n r) in
  match filter (λ d, Some (d_title d) = s_prev_title r) dim_idx with
  | [] => [mk None]
  | dps => (λ dp, mk (Some (d_id dp))) <$> dps
  end.

Definition q_pop (s_ids : list ids_row) : list pop_row :=
  (λ g, match g with (l, y, m, c, t) => PopRow l y m c t end)
    <$> Sql.group_sum (λ r, (i_lang r, i_year r, i_month r, i_curr_id r)) i_n s_ids.

(** The window of [q_top] over the rows of the CTE [pop]. *)
Definition rank_top (topn : Z) (pop : list pop_row) : list top_row :=
  (λ x, TopRow x.1 x.2)
    <$> Sql.row_number_desc (λ p, (p_lang p, p_year p, p_month p))
                            p_total_clicks topn pop.

Definition q_top (topn : Z) (s_ids : list ids_row) : list top_row :=
  rank_top topn (q_pop s_ids).

(** [SELECT ..., SUM(n) FROM s_ids WHERE prev_id IS NOT NULL GROUP BY 1,2,3,4,5] *)
Definition q_agg_prev (s_ids : list ids_row) : list edge_row :=
  (λ g, match g with (l, y, m, p, c, t) => EdgeRow l y m p c t end)
    <$> Sql.group_sum (λ x : ids_row * Z,
                         (i_lang x.1, i_year x.1, i_month x.1, x.2, i_curr_id x.1))
                      (λ x, i_n x.1)
                      (omap (λ r, p ← i_prev_id r; Some (r, p)) s_ids).

Definition q_ref (min_ref topm : Z) (s_ids : list ids_row) : list ref_row :=
  (λ x, RefRow x.1 x.2)
    <$> Sql.row_number_desc (λ e, (e_lang e, e_year e, e_month e, e_curr_id e))
                            e_total_transitions topm
                            (filter (λ e, min_ref ≤ e_total_transitions e)
                                    (q_agg_prev s_ids)).

Definition q_edges (min_edges : Z) (s_ids : list ids_row) : list edge_row :=
  filter (λ e, min_edges ≤ e_total_transitions e) (q_agg_prev s_ids).

(** ** The world: file system, connection, log *)

Inductive status := skipped | processed.

Global Instance status_eq_dec : EqDecision status.
Proof. solve_decision. Defined.

Inductive msg :=
| MsgWrite (label : string) (out_file : Path)
| MsgSkip (lang : string) (year month : Z)
| MsgStart (lang : string) (year month : Z) (to_write : list string)
| MsgOk (lang : string) (year month : Z)
| MsgError (lang : string) (year month : Z) (e : exn).

Inductive event :=
| Unlink (p : Path)
| CopyTo (p : Path)
| Rename (src dst : Path)
| Print (m : msg).

(** The temporary tables of one DuckDB connection. *)
Record conn := Conn {
  t_s : list s_row;
  t_dim : list dim_row;
  t_dim_idx : list dim_row;
  t_part_titles_all : list string;
  t_part_titles : list string;
  t_new_titles : list string;
  t_dim_new : list dim_row;
  t_dim_merged : list dim_row;
  t_s_ids : list ids_row }.

(** [duckdb.connect(":memory:")] *)
Definition connect : conn := Conn [] [] [] [] [] [] [] [] [].

Definition set_s v c :=
  Conn v (t_dim c) (t_dim_idx c) (t_part_titles_all c) (t_part_titles c)
       (t_new_titles c) (t_dim_new c) (t_dim_merged c) (t_s_ids c).
Definition set_dim v c :=
  Conn (t_s c) v (t_dim_idx c) (t_part_titles_all c) (t_part_titles c)
       (t_new_titles c) (t_dim_new c) (t_dim_merged c) (t_s_ids c).
Definition set_dim_idx v c :=
  Conn (t_s c) (t_dim c) v (t_part_titles_all c) (t_part_titles c)
       (t_new_titles c) (t_dim_new c) (t_dim_merged c) (t_s_ids c).
Definition set_part_titles_all v c :=
  Conn (t_s c) (t_dim c) (t_dim_idx c) v (t_part_titles c)
       (t_new_titles c) (t_dim_new c) (t_dim_merged c) (t_s_ids c).
Definition set_part_titles v c :=
  Conn (t_s c) (t_dim c) (t_dim_idx c) (t_part_titles_all c) v
       (t_new_titles c) (t_dim_new c) (t_dim_merged c) (t_s_ids c).
Definition set_new_titles v c :=
  Conn (t_s c) (t_dim c) (t_dim_idx c) (t_part_titles_all c) (t_part_titles c)
       v (t_dim_new c) (t_dim_merged c) (t_s_ids c).
Definition set_dim_new v c :=
  Conn (t_s c) (t_dim c) (t_dim_idx c) (t_part_titles_all c) (t_part_titles c)
       (t_new_titles c) v (t_dim_merged c) (t_s_ids c).
Definition set_dim_merged v c :=
  Conn (t_s c) (t_dim c) (t_dim_idx c) (t_part_titles_all c) (t_part_titles c)
       (t_new_titles c) (t_dim_new c) v (t_s_ids c).
Definition set_s_ids v c :=
  Conn (t_s c) (t_dim c) (t_dim_idx c) (t_part_titles_all c) (t_part_titles c)
       (t_new_titles c) (t_dim_new c) (t_dim_merged c) v.

Record world := World {
  fs : gmap Path file;
  con : conn;
  log : list event }.

(** State and exceptions. *)
Definition M (A : Type) : Type := world → result A * world.

Global Instance M_ret : MRet M := λ A a w, (Ok a, w).
Global Instance M_bind : MBind M :=
  λ A B f m w, match m w with
               | (Ok a, w') => f a w'
               | (Raise e, w') => (Raise e, w')
               end.

Definition lift {A} (r : result A) : M A := λ w, (r, w).
Definition raise {A} (e : exn) : M A := λ w, (Raise e, w).

(** [try: m  except Exception as e: h e] *)
Definition try_except {A} (m : M A) (h : exn → M A) : M A :=
  λ w, match m w with
       | (Raise e, w') => h e w'
       | r => r
       end.

(** [try: m  finally: f] *)
Definition try_finally {A} (m : M A) (f : M unit) : M A :=
  λ w, match m w with
       | (r, w') => match f w' with
                    | (Ok _, w'') => (r, w'')
                    | (Raise e, w'') => (Raise e, w'')
                    end
       end.

(** A [for] loop that carries its local variables in [acc]. *)
Fixpoint for_each {A B} (l : list A) (acc : B) (body : B → A → M B) : M B :=
  match l with
  | [] => mret acc
  | x :: l' => acc' ← body acc x; for_each l' acc' body
  end.

Fixpoint mapM {A B} (f : A → result B) (l : list A) : result (list B) :=
  match l with
  | [] => Ok []
  | x :: l' => y ← f x; ys ← mapM f l'; Ok (y :: ys)
  end.

(** *** Primitive actions *)

Definition path_exists (p : Path) : M bool :=
  λ w, (Ok (bool_decide (is_Some (fs w !! p))), w).

Definition unlink (p : Path) : M unit :=
  λ w, match fs w !! p with
       | Some _ => (Ok tt, World (delete p (fs w)) (con w) (log w ++ [Unlink p]))
       | None => (Raise IOException, w)
       end.

Definition rename (src dst : Path) : M unit :=
  λ w, match fs w !! src with
       | Some f => (Ok tt, World (<[dst := f]> (delete src (fs w))) (con w)
                                (log w ++ [Rename src dst]))
       | None => (Raise IOException, w)
       end.

(** [COPY (query) TO 'p' (FORMAT PARQUET, ...)] *)
Definition copy_to (query : conn → table) (p : Path) : M unit :=
  λ w, (Ok tt, World (<[p := Parquet (parquet_of (query (con w)))]> (fs w)) (con w)
                     (log w ++ [CopyTo p])).

(** [read_parquet('p')] *)
Definition read_parquet (p : Path) : M table :=
  λ w, match fs w !! p with
       | Some (Parquet t) => (Ok t, w)
       | _ => (Raise IOException, w)
       end.

Definition print (m : msg) : M unit :=
  λ w, (Ok tt, World (fs w) (con w) (log w ++ [Print m])).

(** [con.execute("CREATE OR REPLACE TEMP TABLE ...")] *)
Definition execute (f : conn → result conn) : M unit :=
  λ w, match f (con w) with
       | Ok c => (Ok tt, World (fs w) c (log w))
       | Raise e => (Raise e, w)
       end.

(** [con.execute("SELECT ...").fetchone()[0]] *)
Definition fetch {A} (q : conn → A) : M A := λ w, (Ok (q (con w)), w).

(** ** [aggregate_gold.py] *)

(** [ensure_dir] creates directories only, which the file system of the
    embedding leaves implicit. *)
Definition atomic_copy_query_to_parquet (query : conn → table) (out_file : Path)
    (label : string) : M unit :=
  let tmp := PathLib.with_suffix_tmp out_file in
  e ← path_exists tmp;
  (if e : bool then unlink tmp else mret tt);;
  copy_to query tmp;;
  e ← path_exists out_file;
  (if e : bool then unlink out_file else mret tt);;
  rename tmp out_file;;
  print (MsgWrite label out_file).

(** [missing_outputs]: the keys whose file is absent or empty, in the order
    of the dict.  (No [OSError] arises in the embedding.) *)
Definition missing_outputs (paths : list (string * Path)) : M (list string) :=
  λ w, (Ok (omap (λ kp : string * Path,
                    match fs w !! kp.2 with
                    | Some f => if size_positive f then None else Some kp.1
                    | None => Some kp.1
                    end) paths), w).

Definition load_or_init_dim (lang : string) (dim_file : Path) : M unit :=
  e ← (λ w, (Ok (match fs w !! dim_file with
                 | Some f => size_positive f
                 | None => false
                 end), w));
  (if e : bool then
     t ← read_parquet dim_file;
     match t with
     | TDim rows =>
         if forallb (λ d, Sql.in_bigint (d_id d)) rows
         then execute (λ c, Ok (set_dim rows c))
         else raise ConversionException
     | _ => raise BinderException
     end
   else execute (λ c, Ok (set_dim [] c)));;
  execute (λ c, Ok (set_dim_idx (t_dim c) c)).

Definition update_dim_with_partition (lang : string) (dim_file : Path) : M unit :=
  execute (λ c, Ok (set_part_titles_all (q_part_titles_all (t_s c)) c));;
  execute (λ c, Ok (set_part_titles (q_part_titles (t_part_titles_all c)) c));;
  execute (λ c, Ok (set_new_titles (q_new_titles (t_part_titles c) (t_dim_idx c)) c));;
  base ← fetch (λ c, q_base (t_dim c));
  execute (λ c, d ← q_dim_new base (t_new_titles c); Ok (set_dim_new d c));;
  execute (λ c, Ok (set_dim_merged (q_dim_merged (t_dim c) (t_dim_new c)) c));;
  atomic_copy_query_to_parquet (λ c, TDim (t_dim_merged c)) dim_file
                               ("article_dim[" +:+ lang +:+ "]");;
  execute (λ c, Ok (set_dim (t_dim_merged c) c));;
  execute (λ c, Ok (set_dim_idx (t_dim c) c)).

Definition compute_and_write_outputs (outs : list (string * Path))
    (topn topm min_edges min_ref : Z) (write_edges write_ref : bool) : M unit :=
  execute (λ c, Ok (set_s_ids (q_s_ids (t_s c) (t_dim_idx c)) c));;
  out ← lift (dict_get "article_popularity" outs);
  atomic_copy_query_to_parquet (λ c, TPop (q_pop (t_s_ids c))) out "article_popularity";;
  out ← lift (dict_get "article_top" outs);
  atomic_copy_query_to_parquet (λ c, TTop (q_top topn (t_s_ids c))) out "article_top";;
  (if write_ref then
     out ← lift (dict_get "referrers_top" outs);
     atomic_copy_query_to_parquet (λ c, TRef (q_ref min_ref topm (t_s_ids c))) out
                                  "referrers_top"
   else mret tt);;
  (if write_edges then
     out ← lift (dict_get "edges_monthly" outs);
     atomic_copy_query_to_parquet (λ c, TEdges (q_edges min_edges (t_s_ids c))) out
                                  "edges_monthly"
   else mret tt).

Definition run_one_partition (silver_file gold_root : Path)
    (topn topm min_edges min_ref : Z) (write_edges write_ref skip_existing : bool)
  : M status :=
  p ← lift (parse_partition_from_path silver_file);
  let '(lang, year, month) := p in
  let outs := outputs_for lang year month gold_root in
  to_write ← (if skip_existing then missing_outputs outs else mret (fst <$> outs));
  let to_write :=
    if negb write_edges && bool_decide ("edges_monthly" ∈ to_write)
    then list_remove "edges_monthly" to_write else to_write in
  let to_write :=
    if negb write_ref && bool_decide ("referrers_top" ∈ to_write)
    then list_remove "referrers_top" to_write else to_write in
  if skip_existing && bool_decide (to_write = [])
  then print (MsgSkip lang year month);; mret skipped
  else
    t ← read_parquet silver_file;
    match t with
    | TSilver rows => execute (λ c, s ← q_s (lang, year, month) rows; Ok (set_s s c))
    | _ => raise BinderException
    end;;
    let dim_file := dim_path_for lang gold_root in
    load_or_init_dim lang dim_file;;
    update_dim_with_partition lang dim_file;;
    print (MsgStart lang year month to_write);;
    compute_and_write_outputs outs topn topm min_edges min_ref write_edges write_ref;;
    print (MsgOk lang year month);;
    mret processed.

(** [process_lang].  The PRAGMAs tune the engine and change no result.  The
    keys of [sorted] are computed before the loop, outside its [try]. *)
Definition process_lang (lang : string) (files : list Path) (gold_dir : Path)
    (topn topm min_edges min_ref : Z) (write_edges write_ref skip_existing : bool)
  : M (Z * Z) :=
  (λ w, (Ok tt, World (fs w) connect (log w)));;
  try_finally
    (keyed ← lift (mapM (λ f, p ← parse_partition_from_path f;
                              Ok (f, (p.1.2, p.2))) files);
     for_each (fst <$> Py.sorted (λ a b : Path * (Z * Z), Py.tuple_leb a.2 b.2) keyed)
              (0, 0)
              (λ acc f,
                 try_except
                   (st ← run_one_partition f gold_dir topn topm min_edges min_ref
                                           write_edges write_ref skip_existing;
                    mret (match st with
                          | processed => (acc.1 + 1, acc.2)
                          | skipped => (acc.1, acc.2 + 1)
                          end))
                   (λ e,
                      p ← lift (parse_partition_from_path f);
                      print (MsgError lang p.1.2 p.2 e);;
                      mret (acc.1, acc.2 + 1))))
    (λ w, (Ok tt, World (fs w) connect (log w))).

(** [pick_latest_month] *)
Definition pick_latest_month (files : list Path) : result (list Path) :=
  match files with
  | [] => Ok files
  | _ =>
      keyed ← mapM (λ f, p ← parse_partition_from_path f; Ok (f, p)) files;
      match Py.max ((λ x : Path * (string * Z * Z), (x.2.1.2, x.2.2)) <$> keyed) with
      | None => Raise ValueError
      | Some mx =>
          Ok (fst <$> Py.sorted (λ a b : Path * (string * Z * Z),
                                   String.leb a.2.1.1 b.2.1.1)
                                (filter (λ x : Path * (string * Z * Z),
                                           (x.2.1.2, x.2.2) = mx) keyed))
      end
  end.

(** The file selection of [main]: the filters of the command line over the
    sorted result of the glob, then the grouping by language.  A filter that
    is absent, an empty [--lang] and a zero [--year] or [--month] are all
    false in the [if], hence ignored. *)
Record args := Args {
  a_lang : option string;
  a_year : option Z;
  a_month : option Z;
  a_latest_month : bool }.

Definition name_at_parent (k : nat) (f : Path) : string :=
  List.last (Nat.iter k PathLib.parent f) "".

Definition main_files (a : args) (files : list Path) : result (list Path) :=
  let files :=
    match a_lang a with
    | Some l => if bool_decide (l = "") then files
                else filter (λ f, name_at_parent 3 f = "lang=" +:+ l) files
    | None => files
    end in
  let files :=
    match a_year a with
    | Some y => if bool_decide (y = 0) then files
                else filter (λ f, name_at_parent 2 f = "year=" +:+ Py.str y) files
    | None => files
    end in
  let files :=
    match a_month a with
    | Some m => if bool_decide (m = 0) then files
                else filter (λ f, name_at_parent 1 f = "month=" +:+ Py.fmt_02d m) files
    | None => files
    end in
  if a_latest_month a && negb (bool_decide (files = []))
  then pick_latest_month files
  else Ok files.

(** [by_lang[lang].append(f)] on a [defaultdict(list)], which keeps its keys
    in insertion order. *)
Fixpoint by_lang_append (lang : string) (f : Path) (d : list (string * list Path))
  : list (string * list Path) :=
  match d with
  | [] => [(lang, [f])]
  | (k, l) :: d' =>
      if String.eqb k lang then (k, l ++ [f]) :: d'
      else (k, l) :: by_lang_append lang f d'
  end.

Definition main_by_lang (files : list Path) : result (list (string * list Path)) :=
  foldl (λ acc f,
           d ← acc;
           p ← parse_partition_from_path f;
           Ok (by_lang_append p.1.1 f d))
        (Ok []) files.

(** ** [build_gold_specifics.py]: column resolution *)

Definition title_expr (cols : gset string) (prefix : string) : string :=
  if bool_decide ((prefix +:+ "_title") ∈ cols) then prefix +:+ "_title"
  else if bool_decide ((prefix +:+ "_name") ∈ cols) then prefix +:+ "_name"
  else if bool_decide ((prefix +:+ "_id") ∈ cols)
       then "CAST(" +:+ prefix +:+ "_id AS VARCHAR)"
  else "NULL".

(** What the engine answers about the GOLD files of one language that a
    builder reads through a glob: whether any file matches (when none does,
    [read_parquet] raises), and then the distinct years in ascending order,
    whether there is any row, the latest (year, month), and the columns
    ([parquet_columns]). *)
Record source := Source {
  src_files : bool;
  src_years : list Z;
  src_has_rows : bool;
  src_latest : option (Z * Z);
  src_columns : gset string }.

(** What a builder does, in order: the lines it prints, the files it
    writes, each write with the title expressions its query is built from
    and the parameters of the query, and, last, the exception that leaves
    it, if one does. *)
Inductive bevent :=
| BWarnNoData (step lang : string)
| BWarnNoTitle (step lang : string)
| BSkip (step lang : string) (out : Path)
| BWrite (out : Path) (label : string) (title_exprs : list string) (params : list Z)
| BRaise (e : exn).

Definition out_exists (fs : gmap Path file) (out : Path) : bool :=
  bool_decide (is_Some (fs !! out)).

(** The loop of [build_top10_by_year] over the years.  The query of each
    write names the column [total_clicks]; without it the first write
    raises and ends the loop. *)
Fixpoint top10_years (fs : gmap Path file) (cols : gset string) (out_root : Path)
    (lang curr_title_sql : string) (overwrite : bool) (years : list Z) : list bevent :=
  match years with
  | [] => []
  | y :: years' =>
      let out := out_root // "top10_by_year" // ("lang=" +:+ lang)
                          // ("year=" +:+ Py.fmt_04d y) // "data.parquet" in
      if out_exists fs out && negb overwrite
      then BSkip "top10_by_year" lang out
             :: top10_years fs cols out_root lang curr_title_sql overwrite years'
      else if bool_decide ("total_clicks" ∈ cols)
      then BWrite out ("top10_by_year " +:+ lang +:+ "-" +:+ Py.str y)
                  [curr_title_sql] [y; 10]
             :: top10_years fs cols out_root lang curr_title_sql overwrite years'
      else [BRaise BinderException]
  end.

Definition build_top10_by_year (fs : gmap Path file) (src : source)
    (out_root : Path) (lang : string) (overwrite : bool) : list bevent :=
  if negb (src_files src) then [BRaise IOException]
  else
    match src_years src with
    | [] => [BWarnNoData "top10_by_year" lang]
    | years =>
        let curr_title_sql := title_expr (src_columns src) "curr" in
        if String.eqb curr_title_sql "NULL"
        then [BWarnNoTitle "top10_by_year" lang]
        else top10_years fs (src_columns src) out_root lang curr_title_sql overwrite years
    end.

Definition build_all_time_top (fs : gmap Path file) (src : source)
    (out_root : Path) (lang : string) (topn : Z) (overwrite : bool) : list bevent :=
  let out := out_root // "all_time_top" // ("lang=" +:+ lang) // "data.parquet" in
  if out_exists fs out && negb overwrite then [BSkip "all_time_top" lang out]
  else if negb (src_files src) then [BRaise IOException]
  else if negb (src_has_rows src) then [BWarnNoData "all_time_top" lang]
  else
    let curr_title_sql := title_expr (src_columns src) "curr" in
    if String.eqb curr_title_sql "NULL" then [BWarnNoTitle "all_time_top" lang]
    else if bool_decide ("total_clicks" ∈ src_columns src)
    then [BWrite out ("all_time_top " +:+ lang) [curr_title_sql] [topn]]
    else [BRaise BinderException].

(** The three builders keyed by the latest period share their shape:
    [latest_period], the output path, the skip, the probe of the prefixes
    they need, the write, whose query names the column [value]. *)
Definition build_latest (step value : string) (prefixes : list string)
    (fs : gmap Path file) (src : source) (out_root : Path) (lang : string)
    (limit : Z) (overwrite : bool) : list bevent :=
  if negb (src_files src) then [BRaise IOException]
  else
    match src_latest src with
    | None => [BWarnNoData step lang]
    | Some (y, m) =>
        let out := out_root // step // ("lang=" +:+ lang)
                            // ("year=" +:+ Py.fmt_04d y)
                            // ("month=" +:+ Py.fmt_02d m) // "data.parquet" in
        if out_exists fs out && negb overwrite then [BSkip step lang out]
        else
          let exprs := title_expr (src_columns src) <$> prefixes in
          if existsb (λ e, String.eqb e "NULL") exprs then [BWarnNoTitle step lang]
          else if bool_decide (value ∈ src_columns src)
          then [BWrite out
                       (step +:+ " " +:+ lang +:+ "-" +:+ Py.str y +:+ "-"
                             +:+ Py.fmt_02d m)
                       exprs [y; m; limit]]
          else [BRaise BinderException]
    end.

Definition build_edges_6m := build_latest "edges_6m" "total_transitions" ["prev"; "curr"].
Definition build_trending_mom := build_latest "trending_mom" "total_clicks" ["curr"].
Definition build_referrers_6m :=
  build_latest "referrers_6m" "total_transitions" ["curr"; "prev"].

(** * Notions used by the statements *)

(** The byte order of titles, as a relation. *)
Definition title_le (a b : string) : Prop := String.leb a b = true.
Definition title_lt (a b : string) : Prop := String.ltb a b = true.

(** The file operations and the line of one atomic write, given the file
    system it starts from. *)
Definition atomic_copy_events (m : gmap Path file) (out_file : Path) (label : string)
  : list event :=
  let tmp := PathLib.with_suffix_tmp out_file in
  (if bool_decide (is_Some (m !! tmp)) then [Unlink tmp] else [])
  ++ [CopyTo tmp]
  ++ (if bool_decide (is_Some (m !! out_file)) then [Unlink out_file] else [])
  ++ [Rename tmp out_file; Print (MsgWrite label out_file)].

(** The net effect of one atomic write on the file system: the temporary
    file is gone, the target holds the table. *)
Definition publish (out_file : Path) (t : table) (m : gmap Path file)
  : gmap Path file :=
  <[out_file := Parquet t]> (delete (PathLib.with_suffix_tmp out_file) m).

(** What [load_or_init_dim] reads from a dictionary file. *)
Definition dict_loaded (m : gmap Path file) (dim_file : Path) : result (list dim_row) :=
  match m !! dim_file with
  | Some (Parquet (TDim rows)) =>
      if forallb (λ d, Sql.in_bigint (d_id d)) rows then Ok rows
      else Raise ConversionException
  | Some (Parquet _) => Raise BinderException
  | Some (Raw n) => if (0 <? n)%N then Raise IOException else Ok []
  | None => Ok []
  end.

(** The titles a partition shows that the dictionary does not hold. *)
Definition titles_to_add (s : list s_row) (dim : list dim_row) : list string :=
  q_new_titles (q_part_titles (q_part_titles_all s)) dim.

(** The path [outputs_for] gives the artifact [name]. *)
Definition out_path (gold_root : Path) (name lang : string) (year month : Z) : Path :=
  gold_root // name // ("lang=" +:+ lang) // ("year=" +:+ Py.str year)
            // ("month=" +:+ Py.fmt_02d month) // "data.parquet".

(** The list [to_write] of [run_one_partition]. *)
Definition to_write_of (m : gmap Path file) (outs : list (string * Path))
    (write_edges write_ref skip_existing : bool) : list string :=
  let to_write :=
    if skip_existing
    then omap (λ kp : string * Path,
                 match m !! kp.2 with
                 | Some f => if size_positive f then None else Some kp.1
                 | None => Some kp.1
                 end) outs
    else fst <$> outs in
  let to_write :=
    if negb write_edges && bool_decide ("edges_monthly" ∈ to_write)
    then list_remove "edges_monthly" to_write else to_write in
  if negb write_ref && bool_decide ("referrers_top" ∈ to_write)
  then list_remove "referrers_top" to_write else to_write.

(** What a partition needs before anything is written: its records, the
    dictionary on disk, the new dictionary rows. *)
Definition merge_inputs (m : gmap Path file) (part : string * Z * Z)
    (silver_file dim_file : Path)
  : result (list s_row * list dim_row * list dim_row) :=
  rows ← match m !! silver_file with
         | Some (Parquet (TSilver rows)) => Ok rows
         | Some (Parquet _) => Raise BinderException
         | _ => Raise IOException
         end;
  s ← q_s part rows;
  dim ← dict_loaded m dim_file;
  dn ← q_dim_new (q_base dim) (titles_to_add s dim);
  Ok (s, dim, dn).

Section outputs.
Context (gold_root : Path) (lang : string) (year month : Z).
Context (topn topm min_edges min_ref : Z) (write_edges write_ref : bool).
Context (ids : list ids_row).

(** The file system after the fact artifacts of a partition are written,
    each as the Parquet file of its query. *)
Definition outputs_fs (m : gmap Path file) : gmap Path file :=
  let m1 := publish (out_path gold_root "article_popularity" lang year month)
                    (parquet_of (TPop (q_pop ids))) m in
  let m2 := publish (out_path gold_root "article_top" lang year month)
                    (parquet_of (TTop (q_top topn ids))) m1 in
  let m3 := if write_ref
            then publish (out_path gold_root "referrers_top" lang year month)
                         (parquet_of (TRef (q_ref min_ref topm ids))) m2
            else m2 in
  if write_edges
  then publish (out_path gold_root "edges_monthly" lang year month)
               (parquet_of (TEdges (q_edges min_edges ids))) m3
  else m3.

(** The file operations and lines of those writes. *)
Definition outputs_events (m : gmap Path file) : list event :=
  let pop := out_path gold_root "article_popularity" lang year month in
  let top := out_path gold_root "article_top" lang year month in
  let ref := out_path gold_root "referrers_top" lang year month in
  let m1 := publish pop (parquet_of (TPop (q_pop ids))) m in
  let m2 := publish top (parquet_of (TTop (q_top topn ids))) m1 in
  let m3 := if write_ref
            then publish ref (parquet_of (TRef (q_ref min_ref topm ids))) m2
            else m2 in
  atomic_copy_events m pop "article_popularity"
  ++ atomic_copy_events m1 top "article_top"
  ++ (if write_ref then atomic_copy_events m2 ref "referrers_top" else [])
  ++ (if write_edges
      then atomic_copy_events m3 (out_path gold_root "edges_monthly" lang year month)
                              "edges_monthly"
      else []).
End outputs.

(** A file at a path that is not empty. *)
Definition published (m : gmap Path file) (p : Path) : bool :=
  match m !! p with
  | Some f => size_positive f
  | None => false
  end.

(** Titles and ids in bijection: no two rows share a title, no two rows
    share an id. *)
Definition dict_ok (d : list dim_row) : Prop :=
  NoDup (d_title <$> d) ∧ NoDup (d_id <$> d).

(** The dictionary a file holds; an absent or unreadable file holds none. *)
Definition dict_at (m : gmap Path file) (p : Path) : list dim_row :=
  match m !! p with
  | Some (Parquet (TDim rows)) => rows
  | _ => []
  end.

(** [d'] keeps every row of [d] where it was and adds rows whose ids are
    above every id of [d]. *)
Definition dict_extends (d d' : list dim_row) : Prop :=
  ∃ dn, d' = d ++ dn ∧ ∀ r r', r ∈ dn → r' ∈ d → d_id r' < d_id r.

(** An action keeps a property of the file system. *)
Definition preserves {A : Type} (I : gmap Path file → Prop) (m : M A) : Prop :=
  ∀ w, I (fs w) → I (fs (m w).2).

(** The records of the scenario of the specification, as the table [s]. *)
Definition scenario_s : list s_row :=
  [SRow "en" 2024 1 None (Some "Paris") 100;
   SRow "en" 2024 1 (Some "Paris") (Some "London") 50;
   SRow "en" 2024 1 None (Some "London") 30].

(** The partition en/2024-01 of the scenario: its file and a world that
    holds nothing else. *)
Definition scenario_file : Path :=
  ["silver"; "lang=en"; "year=2024"; "month=01"; "data.parquet"].

Definition scenario_rows : list silver_row :=
  [SilverRow "en" 2024 1 None (Some "Paris") (Some 100);
   SilverRow "en" 2024 1 (Some "Paris") (Some "London") (Some 50);
   SilverRow "en" 2024 1 None (Some "London") (Some 30)].

Definition scenario_world : world :=
  World {[ scenario_file := Parquet (TSilver scenario_rows) ]} connect [].

(** The partition of the scenario with two records of one article whose
    counts add up to 2^53 + 1. *)
Definition heavy_rows : list silver_row :=
  [SilverRow "en" 2024 1 None (Some "Paris") (Some (2 ^ 53));
   SilverRow "en" 2024 1 None (Some "Paris") (Some 1)].

Definition heavy_world : world :=
  World {[ scenario_file := Parquet (TSilver heavy_rows) ]} connect [].

(** The partition of a Popularity row, and the order of the ranking. *)
Definition pop_key (p : pop_row) : string * Z * Z := (p_lang p, p_year p, p_month p).

Definition clicks_ge (a b : pop_row) : Prop := p_total_clicks b ≤ p_total_clicks a.

(** The Top-N ranking in the words of the specification: [total_clicks]
    descending and, among equal [total_clicks], the id ascending. *)
Definition spec_rank_top (topn : Z) (pop : list pop_row) : list top_row :=
  (λ x, TopRow x.1 x.2)
    <$> filter (λ x : pop_row * Z, x.2 ≤ topn)
          (concat ((λ k, Sql.number_from 1
                           (Py.sorted (λ a b, (p_total_clicks b <? p_total_clicks a)
                                              || ((p_total_clicks b =? p_total_clicks a)
                                                  && (p_curr_id a <=? p_curr_id b)))
                                      (filter (λ p, pop_key p = k) pop)))
                     <$> Sql.distinct (pop_key <$> pop))).

(** Two articles with the same number of clicks, the one with the greater
    id delivered first. *)
Definition ties_ids : list ids_row :=
  [IdsRow "en" 2024 1 None 2 10; IdsRow "en" 2024 1 None 1 10].

(** The id the dictionary gives a title, NULL for NULL and for a title it
    does not hold. *)
Definition id_of (dict : list dim_row) (title : option string) : option Z :=
  d_id <$> head (filter (λ d, Some (d_title d) = title) dict).

(** The count of a record. *)
Definition count (r : silver_row) : Z := default 0 (r_n r).

(** The key of a Popularity row. *)
Definition pop_group (p : pop_row) : string * Z * Z * Z :=
  (p_lang p, p_year p, p_month p, p_curr_id p).

(** The sum of the group [k] of a table. *)
Definition group_total {A K} `{EqDecision K} (key : A → K) (val : A → Z)
    (rows : list A) (k : K) : Z :=
  Sql.sum (val <$> filter (λ r, key r = k) rows).

(** A record of [s] with its titles replaced by their ids. *)
Definition resolve (dict : list dim_row) (r : s_row) : ids_row :=
  IdsRow (s_lang r) (s_year r) (s_month r)
         (id_of dict (s_prev_title r))
         (default 0 (id_of dict (s_curr_title r)))
         (s_n r).

(** The dictionary holds every title of the table [s]. *)
Definition covers (dict : list dim_row) (s : list s_row) : Prop :=
  ∀ t, t ∈ q_part_titles_all s → t ∈ d_title <$> dict.

(** The path a file operation changes; a printed line changes none. *)
Definition written (e : event) : option Path :=
  match e with
  | Unlink p => Some p
  | CopyTo p => Some p
  | Rename _ dst => Some dst
  | Print _ => None
  end.

(** The artifacts whose feature switch is on. *)
Definition enabled_outputs (write_edges write_ref : bool) : list string :=
  ["article_popularity"; "article_top"]
  ++ (if write_ref then ["referrers_top"] else [])
  ++ (if write_edges then ["edges_monthly"] else []).

(** Every enabled artifact of a partition exists and is not empty. *)
Definition all_published (m : gmap Path file) (gold_root : Path)
    (write_edges write_ref : bool) (lang : string) (year month : Z) : Prop :=
  ∀ name, name ∈ enabled_outputs write_edges write_ref →
          published m (out_path gold_root name lang year month) = true.

(** A file operation on a fact artifact of the partition, or on its
    temporary file. *)
Definition fact_write (gold_root : Path) (lang : string) (year month : Z)
    (e : event) : Prop :=
  ∃ name p, written e = Some p
            ∧ (p = out_path gold_root name lang year month
               ∨ p = PathLib.with_suffix_tmp (out_path gold_root name lang year month)).

(** The line that closes the attempt at one partition, as (year, month):
    [SKIP], [OK] or [ERROR]. *)
Definition partition_line (e : event) : option (Z * Z) :=
  match e with
  | Print (MsgSkip _ y m) | Print (MsgOk _ y m) | Print (MsgError _ y m _) => Some (y, m)
  | _ => None
  end.

Definition ok_line (e : event) : bool :=
  match e with Print (MsgOk _ _ _) => true | _ => false end.

Definition error_line (e : event) : bool :=
  match e with Print (MsgError _ _ _ _) => true | _ => false end.

Definition skip_line (e : event) : bool :=
  match e with Print (MsgSkip _ _ _) => true | _ => false end.

(** The (year, month) of a partition file whose path parses. *)
Definition ym_of (f : Path) : Z * Z :=
  match parse_partition_from_path f with
  | Ok (_, y, m) => (y, m)
  | Raise _ => (0, 0)
  end.

Definition lang_of (f : Path) : string :=
  match parse_partition_from_path f with
  | Ok (l, _, _) => l
  | Raise _ => ""
  end.

Definition parses (f : Path) : Prop := ∃ p, parse_partition_from_path f = Ok p.

(** The scenario with a Popularity file left by an earlier run and the
    other artifacts missing. *)
Definition stale_world : world :=
  World (<[ out_path ["gold"] "article_popularity" "en" 2024 1 := Parquet (TPop []) ]>
           (fs scenario_world))
        connect [].

(** The body of the loop of [process_lang], with the counters it updates. *)
Definition lang_step (lang : string) (gold_dir : Path)
    (topn topm min_edges min_ref : Z) (write_edges write_ref skip_existing : bool)
    (acc : Z * Z) (f : Path) : M (Z * Z) :=
  try_except
    (st ← run_one_partition f gold_dir topn topm min_edges min_ref
                            write_edges write_ref skip_existing;
     mret (match st with
           | processed => (acc.1 + 1, acc.2)
           | skipped => (acc.1, acc.2 + 1)
           end))
    (λ e,
       p ← lift (parse_partition_from_path f);
       print (MsgError lang p.1.2 p.2 e);;
       mret (acc.1, acc.2 + 1)).

(** The order in which [process_lang] takes the files. *)
Definition lang_order (files : list Path) : list Path :=
  fst <$> Py.sorted (λ a b : Path * (Z * Z), Py.tuple_leb a.2 b.2)
                    ((λ f, (f, ym_of f)) <$> files).

(** The events of a processed partition. *)
Definition processed_events (gold_root : Path) (lang : string) (year month : Z)
    (topn topm min_ref : Z) (write_edges write_ref skip_existing : bool)
    (ids : list ids_row) (dict : list dim_row) (m : gmap Path file) : list event :=
  atomic_copy_events m (dim_path_for lang gold_root) ("article_dim[" +:+ lang +:+ "]")
  ++ [Print (MsgStart lang year month
               (to_write_of m (outputs_for lang year month gold_root)
                            write_edges write_ref skip_existing))]
  ++ outputs_events gold_root lang year month topn topm min_ref write_edges write_ref ids
                    (publish (dim_path_for lang gold_root) (TDim dict) m)
  ++ [Print (MsgOk lang year month)].

(** What one turn of the loop does to a file that parses. *)
Inductive step_outcome (gold_dir : Path) (lang : string)
    (topn topm min_edges min_ref : Z) (write_edges write_ref skip_existing : bool)
    (f : Path) (acc : Z * Z) (w : world) (acc' : Z * Z) (w' : world) : Prop :=
| StepSkipped l y m :
    parse_partition_from_path f = Ok (l, y, m) →
    skip_existing = true →
    all_published (fs w) gold_dir write_edges write_ref l y m →
    acc' = (acc.1, acc.2 + 1) → fs w' = fs w →
    log w' = log w ++ [Print (MsgSkip l y m)] →
    step_outcome gold_dir lang topn topm min_edges min_ref write_edges write_ref
                 skip_existing f acc w acc' w'
| StepProcessed l y m s dim dn :
    parse_partition_from_path f = Ok (l, y, m) →
    merge_inputs (fs w) (l, y, m) f (dim_path_for l gold_dir) = Ok (s, dim, dn) →
    acc' = (acc.1 + 1, acc.2) →
    fs w' = outputs_fs gold_dir l y m topn topm min_edges min_ref write_edges write_ref
                       (q_s_ids s (dim ++ dn))
                       (publish (dim_path_for l gold_dir) (TDim (dim ++ dn)) (fs w)) →
    log w' = log w ++ processed_events gold_dir l y m topn topm min_ref write_edges
                                       write_ref skip_existing (q_s_ids s (dim ++ dn))
                                       (dim ++ dn) (fs w) →
    step_outcome gold_dir lang topn topm min_edges min_ref write_edges write_ref
                 skip_existing f acc w acc' w'
| StepError l y m e :
    parse_partition_from_path f = Ok (l, y, m) →
    acc' = (acc.1, acc.2 + 1) → fs w' = fs w →
    log w' = log w ++ [Print (MsgError lang y m e)] →
    step_outcome gold_dir lang topn topm min_edges min_ref write_edges write_ref
                 skip_existing f acc w acc' w'.

(** The order of (year, month) pairs. *)
Definition ym_le (a b : Z * Z) : Prop := a.1 < b.1 ∨ (a.1 = b.1 ∧ a.2 ≤ b.2).

(** Two partitions of the scenario's language: 2024-02, whose file is not
    there, listed before 2024-01. *)
Definition scenario_files : list Path :=
  [["silver"; "lang=en"; "year=2024"; "month=02"; "data.parquet"]; scenario_file].

(** One partition in the words of the specification: it is processed on
    what the partitions before it left; one that is processed counts as
    processed, one that is skipped as skipped; an error is caught, logged
    with the (year, month) of the partition, and counted as skipped. *)
Definition counted_step (gold_dir : Path) (lang : string)
    (topn topm min_edges min_ref : Z) (write_edges write_ref skip_existing : bool)
    (st : Z * Z * world) (f : Path) : Z * Z * world :=
  let r := run_one_partition f gold_dir topn topm min_edges min_ref
                             write_edges write_ref skip_existing st.2 in
  match r.1 with
  | Ok processed => (st.1.1 + 1, st.1.2, r.2)
  | Ok skipped => (st.1.1, st.1.2 + 1, r.2)
  | Raise e =>
      (st.1.1, st.1.2 + 1,
       World (fs r.2) (con r.2)
             (log r.2 ++ [Print (MsgError lang (ym_of f).1 (ym_of f).2 e)]))
  end.

(** How the closing line of a partition is counted by [process_lang]:
    [OK] as processed, [SKIP] and [ERROR] as skipped. *)
Definition counted (e : event) : option status :=
  match e with
  | Print (MsgOk _ _ _) => Some processed
  | Print (MsgSkip _ _ _) | Print (MsgError _ _ _ _) => Some skipped
  | _ => None
  end.

Definition count_status (st : status) (evs : list event) : Z :=
  Z.of_nat (length (filter (λ o, o = Some st) (counted <$> evs))).

(** Every enabled artifact of the partition of a file is published. *)
Definition file_published (m : gmap Path file) (gold_root : Path)
    (write_edges write_ref : bool) (f : Path) : Prop :=
  all_published m gold_root write_edges write_ref (lang_of f) (ym_of f).1 (ym_of f).2.

(** None of the three columns a title can be read from is there. *)
Definition no_title_column (cols : gset string) (prefix : string) : Prop :=
  ((prefix +:+ "_title") ∉ cols) ∧ ((prefix +:+ "_name") ∉ cols)
  ∧ ((prefix +:+ "_id") ∉ cols).





(** The partition a file belongs to, when its path parses. *)
Definition key_of (f : Path) : string * Z * Z :=
  match parse_partition_from_path f with
  | Ok p => p
  | Raise _ => ("", 0, 0)
  end.

(** Partitions of three languages: the newest of [de] and [fr] is 2024-02,
    the newest of [en] is 2024-01. *)
Definition locator_files : list Path :=
  [["silver"; "lang=de"; "year=2024"; "month=01"; "data.parquet"];
   ["silver"; "lang=fr"; "year=2024"; "month=02"; "data.parquet"];
   ["silver"; "lang=de"; "year=2024"; "month=02"; "data.parquet"];
   ["silver"; "lang=en"; "year=2023"; "month=12"; "data.parquet"];
   ["silver"; "lang=en"; "year=2024"; "month=01"; "data.parquet"]].

(** * Further notions *)

(** The character [c] occurs in [s]. *)
Fixpoint contains (c : ascii) (s : string) : bool :=
  match s with
  | EmptyString => false
  | String a s' => Ascii.eqb a c || contains c s'
  end.

(** No character of [s] is white space. *)
Fixpoint no_space (s : string) : bool :=
  match s with
  | EmptyString => true
  | String a s' => negb (Py.isspace a) && no_space s'
  end.

(** The number a run of decimal digits stands for, read after [acc]. *)
Fixpoint uint_value (acc : Z) (d : Decimal.uint) : Z :=
  match d with
  | Decimal.Nil => acc
  | Decimal.D0 l => uint_value (10 * acc) l
  | Decimal.D1 l => uint_value (10 * acc + 1) l
  | Decimal.D2 l => uint_value (10 * acc + 2) l
  | Decimal.D3 l => uint_value (10 * acc + 3) l
  | Decimal.D4 l => uint_value (10 * acc + 4) l
  | Decimal.D5 l => uint_value (10 * acc + 5) l
  | Decimal.D6 l => uint_value (10 * acc + 6) l
  | Decimal.D7 l => uint_value (10 * acc + 7) l
  | Decimal.D8 l => uint_value (10 * acc + 8) l
  | Decimal.D9 l => uint_value (10 * acc + 9) l
  end.

(** A partition file as the Hive layout names it. *)
Definition hive_path (root : Path) (lang : string) (year month : Z) (name : string)
  : Path :=
  root // ("lang=" +:+ lang) // ("year=" +:+ Py.str year)
       // ("month=" +:+ Py.fmt_02d month) // name.

(** The group of an aggregated transition, and the destination whose
    referrers are ranked together. *)
Definition edge_group (e : edge_row) : string * Z * Z * Z * Z :=
  (e_lang e, e_year e, e_month e, e_prev_id e, e_curr_id e).

Definition ref_key (e : edge_row) : string * Z * Z * Z :=
  (e_lang e, e_year e, e_month e, e_curr_id e).

(** The rows of [s_ids] that go from [prev] to [curr] within a partition. *)
Definition transitions_of (ids : list ids_row) (g : string * Z * Z * Z * Z)
  : list ids_row :=
  filter (λ r, (i_lang r, i_year r, i_month r) = (g.1.1.1.1, g.1.1.1.2, g.1.1.2)
               ∧ i_prev_id r = Some g.1.2 ∧ i_curr_id r = g.2) ids.

(** The rows of [s_ids] of the scenario, against the dictionary
    London = 1, Paris = 2. *)
Definition scenario_ids : list ids_row :=
  [IdsRow "en" 2024 1 None 2 100;
   IdsRow "en" 2024 1 (Some 2) 1 50;
   IdsRow "en" 2024 1 None 1 30].

(** The order of the referrer ranking. *)
Definition transitions_ge (a b : edge_row) : Prop :=
  e_total_transitions b ≤ e_total_transitions a.

(** The loop of [main] over the jobs when one worker is asked for
    ([--workers 1]): the languages one after the other, each with a
    connection of its own, the counts added up for the summary line. *)
Definition main_jobs (jobs : list (string * list Path)) (gold_dir : Path)
    (topn topm min_edges min_ref : Z) (write_edges write_ref skip_existing : bool)
  : M (Z * Z) :=
  for_each jobs (0, 0)
           (λ acc j,
              ps ← process_lang j.1 j.2 gold_dir topn topm min_edges min_ref
                                write_edges write_ref skip_existing;
              mret (acc.1 + ps.1, acc.2 + ps.2)).

(** The jobs [d] hold the files [files] grouped by language. *)
Definition grouped (files : list Path) (d : list (string * list Path)) : Prop :=
  NoDup d.*1
  ∧ (∀ l, l ∈ d.*1 ↔ ∃ f, f ∈ files ∧ lang_of f = l)
  ∧ ∀ l fs, (l, fs) ∈ d → fs = filter (λ f, lang_of f = l) files.

(** A title expression that reads a column the source has. *)
Definition names_column (cols : gset string) (e : string) : Prop :=
  ∃ prefix,
    (e = prefix +:+ "_title" ∧ (prefix +:+ "_title") ∈ cols)
    ∨ (e = prefix +:+ "_name" ∧ (prefix +:+ "_name") ∈ cols)
    ∨ (e = "CAST(" +:+ prefix +:+ "_id AS VARCHAR)" ∧ (prefix +:+ "_id") ∈ cols).

(** What a run of a builder must not hold: a write over a file that was
    there, and a write whose query reads a title column that is not. *)
Definition rewrites_existing (m : gmap Path file) (evs : list bevent) : Prop :=
  ∃ out label exprs params,
    BWrite out label exprs params ∈ evs ∧ out_exists m out = true.

Definition reads_missing_column (cols : gset string) (evs : list bevent) : Prop :=
  ∃ out label exprs params e,
    BWrite out label exprs params ∈ evs ∧ e ∈ exprs ∧ ¬ names_column cols e.

Definition skips (evs : list bevent) : Prop :=
  ∃ step lang out, BSkip step lang out ∈ evs.

(** What a write and a skip of a builder tell: the write goes to a path
    that is free or may be written over, with expressions that read columns
    of the source; the skip is of a path that is taken and may not. *)
Definition builder_event_ok (m : gmap Path file) (cols : gset string)
    (overwrite : bool) (e : bevent) : Prop :=
  match e with
  | BWrite out _ exprs _ =>
      out_exists m out && negb overwrite = false ∧ Forall (names_column cols) exprs
  | BSkip _ _ out => out_exists m out && negb overwrite = true
  | _ => True
  end.

(** The two rankings among the artifacts.  Their queries number rows by a
    value and keep the first ones; which of several rows of equal value
    comes first is the engine's choice, so what these files hold is not
    fixed by what is read. *)
Definition ranked_artifact (gold_root : Path) (p : Path) : Prop :=
  ∃ lang year month,
    p = out_path gold_root "article_top" lang year month
    ∨ p = out_path gold_root "referrers_top" lang year month.

(** A change of the file system that treats every path on its own: at each
    path it either keeps what is there or puts something that does not
    depend on what was there. *)
Definition pointwise (G : gmap Path file → gmap Path file) : Prop :=
  ∀ i, (∀ m, G m !! i = m !! i) ∨ (∃ v, ∀ m, G m !! i = v).

(** The ids of a dictionary are 1, 2, ..., up to the number of its rows,
    each one once, in whatever order the rows come. *)
Definition dense (d : list dim_row) : Prop :=
  d_id <$> d ≡ₚ seqZ 1 (Z.of_nat (length d)).

(** * Properties *)

(** ** The primitives on small inputs *)

Example split_kv : Py.split "=" "year=2024" = ["year"; "2024"].
Proof. reflexivity. Qed.

Example int_month : Py.int "01" = Some 1 ∧ Py.int " -1_0 " = Some (-10) ∧ Py.int "1__0" = None.
Proof. repeat split; reflexivity. Qed.

Example fmt_month : Py.fmt_02d 7 = "07" ∧ Py.fmt_02d 12 = "12" ∧ Py.fmt_02d (-3) = "-3".
Proof. repeat split; reflexivity. Qed.

Example sorted_stable :
  Py.sorted (λ a b : Z * string, a.1 <=? b.1) [(2, "a"); (1, "b"); (2, "c"); (1, "d")]
  = [(1, "b"); (1, "d"); (2, "a"); (2, "c")].
Proof. reflexivity. Qed.

Example parse_scenario_file :
  parse_partition_from_path scenario_file = Ok ("en", 2024, 1)
  ∧ parse_partition_from_path ["silver"; "lang=en"; "year=x"; "month=01"; "data.parquet"]
    = Raise ValueError
  ∧ parse_partition_from_path ["silver"; "en"; "year=2024"; "month=01"; "data.parquet"]
    = Raise IndexError
  ∧ parse_partition_from_path ["year=2024"; "month=01"; "data.parquet"] = Raise KeyError.
Proof. vm_compute. repeat split; reflexivity. Qed.

(** The end-to-end scenario of the specification, from an empty dictionary. *)
Example scenario_run :
  let w := (run_one_partition scenario_file ["gold"] 2 50 1 1 true true true
                              scenario_world).2 in
  fs w !! dim_path_for "en" ["gold"]
  = Some (Parquet (TDim [DimRow 1 "London"; DimRow 2 "Paris"]))
  ∧ fs w !! out_path ["gold"] "article_popularity" "en" 2024 1
    = Some (Parquet (TPop [PopRow "en" 2024 1 2 100; PopRow "en" 2024 1 1 80]))
  ∧ fs w !! out_path ["gold"] "article_top" "en" 2024 1
    = Some (Parquet (TTop [TopRow (PopRow "en" 2024 1 2 100) 1;
                           TopRow (PopRow "en" 2024 1 1 80) 2]))
  ∧ fs w !! out_path ["gold"] "edges_monthly" "en" 2024 1
    = Some (Parquet (TEdges [EdgeRow "en" 2024 1 2 1 50]))
  ∧ fs w !! out_path ["gold"] "referrers_top" "en" 2024 1
    = Some (Parquet (TRef [RefRow (EdgeRow "en" 2024 1 2 1 50) 1])).
Proof. vm_compute. repeat split; reflexivity. Qed.

(** ** Sorting and orders *)

Section sorted.
Context {A : Type} (le : A → A → bool).
Hypothesis le_total : ∀ x y, le x y = true ∨ le y x = true.

Lemma insert_perm x l : Py.insert le x l ≡ₚ x :: l.
Proof.
  induction l as [|y l IH]; simpl; [done|].
  destruct (le x y); [done|]. rewrite IH. apply Permutation_swap.
Qed.

Lemma sorted_perm l : Py.sorted le l ≡ₚ l.
Proof.
  induction l as [|x l IH]; simpl; [done|]. by rewrite insert_perm, IH.
Qed.

Lemma insert_Sorted x l :
  Sorted (λ a b, le a b = true) l →
  Sorted (λ a b, le a b = true) (Py.insert le x l).
Proof.
  induction 1 as [|y l Hs IH Hhd]; simpl; [by repeat constructor|].
  destruct (le x y) eqn:E.
  - constructor; [by constructor|]. by constructor.
  - constructor; [done|].
    destruct l as [|z l]; simpl in *.
    + constructor. destruct (le_total x y); congruence.
    + destruct (le x z); constructor.
      * destruct (le_total x y); congruence.
      * by inversion Hhd.
Qed.

Lemma sorted_Sorted l : Sorted (λ a b, le a b = true) (Py.sorted le l).
Proof. induction l; simpl; [constructor|by apply insert_Sorted]. Qed.
End sorted.

Lemma string_compare_trans c s1 : ∀ s2 s3,
  String.compare s1 s2 = c → String.compare s2 s3 = c → String.compare s1 s3 = c.
Proof.
  induction s1 as [|a s1 IH]; intros [|b s2] [|d s3]; simpl; try congruence.
  unfold Ascii.compare.
  destruct (N.compare_spec (N_of_ascii a) (N_of_ascii b)) as [E1|E1|E1];
  destruct (N.compare_spec (N_of_ascii b) (N_of_ascii d)) as [E2|E2|E2];
  intros H1 H2; subst; try congruence.
  - rewrite E1, E2, N.compare_refl. eauto.
  - rewrite E1. by apply N.compare_lt_iff in E2 as ->.
  - rewrite E1. by apply N.compare_gt_iff in E2 as ->.
  - rewrite <- E2. by apply N.compare_lt_iff in E1 as ->.
  - assert (N_of_ascii a < N_of_ascii d)%N as ->%N.compare_lt_iff by lia. done.
  - rewrite <- E2. by apply N.compare_gt_iff in E1 as ->.
  - assert (N_of_ascii d < N_of_ascii a)%N as ->%N.compare_gt_iff by lia. done.
Qed.

Global Instance title_le_trans : Transitive title_le.
Proof.
  intros s1 s2 s3. unfold title_le, String.leb.
  destruct (String.compare s1 s2) eqn:E1; [|
    destruct (String.compare s2 s3) eqn:E2 |]; try done.
  - apply String.compare_eq_iff in E1 as ->. done.
  - apply String.compare_eq_iff in E2 as <-. by rewrite E1.
  - by rewrite (string_compare_trans Lt _ _ _ E1 E2).
Qed.

Global Instance title_le_antisym : AntiSymm (=) title_le.
Proof. intros s1 s2. apply String.leb_antisym. Qed.

Lemma title_lt_le_ne a b : title_lt a b ↔ title_le a b ∧ a ≠ b.
Proof.
  unfold title_lt, title_le, String.ltb, String.leb. split.
  - destruct (String.compare a b) eqn:E; try done. intros _. split; [done|].
    intros ->. clear -E. induction b as [|c b IH]; simpl in E; [done|].
    unfold Ascii.compare in E. by rewrite N.compare_refl in E.
  - intros [H Hne]. destruct (String.compare a b) eqn:E; try done.
    by apply String.compare_eq_iff in E.
Qed.

Lemma tuple_leb_total a b : Py.tuple_leb a b = true ∨ Py.tuple_leb b a = true.
Proof.
  unfold Py.tuple_leb. destruct a as [a1 a2], b as [b1 b2]; simpl.
  destruct (Z.ltb_spec a1 b1), (Z.ltb_spec b1 a1), (Z.eqb_spec a1 b1),
    (Z.eqb_spec b1 a1), (Z.leb_spec a2 b2), (Z.leb_spec b2 a2);
    simpl; auto; lia.
Qed.

Lemma tuple_leb_spec a b :
  Py.tuple_leb a b = true ↔ a.1 < b.1 ∨ (a.1 = b.1 ∧ a.2 ≤ b.2).
Proof.
  unfold Py.tuple_leb. destruct a as [a1 a2], b as [b1 b2]; simpl.
  destruct (Z.ltb_spec a1 b1), (Z.eqb_spec a1 b1), (Z.leb_spec a2 b2);
    simpl; split; auto; try lia; intros; discriminate.
Qed.

(** ** The queries of the merge *)

Lemma number_from_fst {A} n (l : list A) : (Sql.number_from n l).*1 = l.
Proof. revert n; induction l as [|x l IH]; intros n; simpl; [done|]. by rewrite IH. Qed.

Lemma number_from_snd {A} n (l : list A) :
  (Sql.number_from n l).*2 = seqZ n (Z.of_nat (length l)).
Proof.
  revert n; induction l as [|x l IH]; intros n; [done|].
  cbn [Sql.number_from fmap list_fmap length]. 
  rewrite Nat2Z.inj_succ, seqZ_cons by lia. simpl. rewrite IH. do 3 f_equal. lia.
Qed.

Lemma number_from_length {A} n (l : list A) : length (Sql.number_from n l) = length l.
Proof. by rewrite <- (length_fmap fst), number_from_fst. Qed.

Lemma number_from_bounds {A} n (l : list A) x :
  x ∈ Sql.number_from n l → n ≤ x.2 < n + Z.of_nat (length l).
Proof.
  intros Hx. assert (x.2 ∈ (Sql.number_from n l).*2) as H by (by apply list_elem_of_fmap_2).
  rewrite number_from_snd in H. apply elem_of_seqZ in H. lia.
Qed.

Lemma sorted_titles_Sorted l : Sorted title_le (Py.sorted String.leb l).
Proof. apply (sorted_Sorted String.leb), String.leb_total. Qed.

Lemma sorted_titles_unique l1 l2 :
  NoDup l1 → NoDup l2 → (∀ t, t ∈ l1 ↔ t ∈ l2) →
  Py.sorted String.leb l1 = Py.sorted String.leb l2.
Proof.
  intros H1 H2 H. apply (Sorted_unique title_le); try apply sorted_titles_Sorted.
  rewrite !sorted_perm. by apply NoDup_Permutation.
Qed.

Lemma sorted_titles_strict l :
  NoDup l → StronglySorted title_lt (Py.sorted String.leb l).
Proof.
  intros Hnd.
  assert (NoDup (Py.sorted String.leb l)) as Hnd' by (by rewrite sorted_perm).
  pose proof (Sorted_StronglySorted _ _ (sorted_titles_Sorted l)) as Hs.
  revert Hnd'. induction Hs as [|x l' Hs IH Hall]; intros Hnd'; [constructor|].
  apply NoDup_cons in Hnd' as [Hx Hnd']. constructor; [by apply IH|].
  apply Forall_forall. intros y Hy. apply title_lt_le_ne. split.
  - by apply (proj1 (Forall_forall _ _) Hall).
  - intros ->. by apply Hx.
Qed.

Lemma foldr_max_spec x l :
  (foldr Z.max x l = x ∨ foldr Z.max x l ∈ l)
  ∧ x ≤ foldr Z.max x l ∧ ∀ y, y ∈ l → y ≤ foldr Z.max x l.
Proof.
  induction l as [|z l (Hm & Hx & Hl)]; cbn [foldr].
  - split; [by left|]. split; [lia|]. intros y Hy. by apply elem_of_nil in Hy.
  - split; [|split].
    + destruct (Z.max_spec z (foldr Z.max x l)) as [[_ E]|[_ E]]; rewrite E.
      * destruct Hm as [?|?]; [by left|right; by right].
      * right; left.
    + lia.
    + intros y [->|Hy]%elem_of_cons; [lia|]. specialize (Hl y Hy). lia.
Qed.

Lemma q_base_cases dim :
  (dim = [] ∧ q_base dim = 0) ∨
  (dim ≠ [] ∧ (∃ d, d ∈ dim ∧ q_base dim = d_id d) ∧ ∀ d, d ∈ dim → d_id d ≤ q_base dim).
Proof.
  unfold q_base, Sql.max. destruct dim as [|d dim]; [by left|right]. split; [done|].
  cbn [fmap list_fmap Sql.coalesce default].
  destruct (foldr_max_spec (d_id d) (d_id <$> dim)) as (Hm & Hx & Hl). split.
  - destruct Hm as [E|(d0 & E & Hd0)%list_elem_of_fmap].
    + exists d. split; [left|done].
    + exists d0. split; [by right|done].
  - intros x [->|Hx']%elem_of_cons; [done|].
    apply Hl. by apply list_elem_of_fmap_2.
Qed.

Lemma q_base_in_bigint dim :
  Forall (λ d, Sql.in_bigint (d_id d) = true) dim → Sql.in_bigint (q_base dim) = true.
Proof.
  intros H. destruct (q_base_cases dim) as [[_ ->]|(_ & (d & Hd & ->) & _)]; [done|].
  by apply (proj1 (Forall_forall _ _) H).
Qed.

(** The ids [q_dim_new] hands out, when none leaves BIGINT. *)
Lemma q_dim_new_Ok base new :
  Sql.in_bigint base = true →
  base + Z.of_nat (length (Sql.distinct new)) ≤ Sql.bigint_max →
  q_dim_new base new
  = Ok ((λ x, DimRow (x.2 + base) x.1)
          <$> Sql.number_from 1 (Sql.order_by String.leb (Sql.distinct new))).
Proof.
  intros Hb Hfit. unfold q_dim_new.
  rewrite (proj2 (forallb_forall _ _)); [done|].
  intros x Hx%list_elem_of_In%number_from_bounds.
  unfold Sql.order_by in Hx. rewrite (Permutation_length (sorted_perm _ _)) in Hx.
  unfold Sql.in_bigint in *. apply andb_true_iff in Hb as [Hb1%Z.leb_le Hb2%Z.leb_le].
  apply andb_true_iff. split; apply Z.leb_le; lia.
Qed.

Lemma q_dim_new_inv base new dn :
  q_dim_new base new = Ok dn →
  d_title <$> dn = Py.sorted String.leb (Sql.distinct new)
  ∧ d_id <$> dn = seqZ (base + 1) (Z.of_nat (length dn))
  ∧ Forall (λ d, Sql.in_bigint (d_id d) = true) dn.
Proof.
  unfold q_dim_new.
  destruct (forallb _ _) eqn:E; [|done]. intros [= <-].
  rewrite <- !list_fmap_compose. split; [|split].
  - etrans; [|apply (number_from_fst 1)]. done.
  - rewrite length_fmap, number_from_length.
    rewrite <- (fmap_add_seqZ base 1), <- number_from_snd, <- list_fmap_compose.
    apply list_fmap_ext. intros ? x _. simpl. lia.
  - apply Forall_fmap, Forall_forall. intros x Hx. simpl.
    by apply (proj1 (forallb_forall _ _) E), list_elem_of_In.
Qed.

Lemma q_dim_new_ext base new1 new2 :
  (∀ t, t ∈ new1 ↔ t ∈ new2) → q_dim_new base new1 = q_dim_new base new2.
Proof.
  intros H. unfold q_dim_new, Sql.order_by.
  rewrite (sorted_titles_unique (Sql.distinct new1) (Sql.distinct new2)); [done|..].
  - apply NoDup_remove_dups.
  - apply NoDup_remove_dups.
  - intros t. unfold Sql.distinct. by rewrite !elem_of_remove_dups.
Qed.

(** ** Running the monad *)

Lemma string_length_app s1 s2 :
  String.length (s1 +:+ s2) = (String.length s1 + String.length s2)%nat.
Proof. induction s1; simpl; [done|]. by rewrite IHs1. Qed.

Lemma with_suffix_tmp_last p :
  p ≠ [] → List.last (PathLib.with_suffix_tmp p) "" = List.last p "" +:+ ".tmp".
Proof. destruct p; [done|]. intros _. unfold PathLib.with_suffix_tmp. by rewrite last_last. Qed.

Lemma with_suffix_tmp_ne p : p ≠ [] → PathLib.with_suffix_tmp p ≠ p.
Proof.
  intros Hp E. pose proof (with_suffix_tmp_last p Hp) as H. rewrite E in H.
  apply (f_equal String.length) in H. rewrite string_length_app in H. simpl in H. lia.
Qed.

Lemma bind_ok {A B} (m : M A) (f : A → M B) w a w1 :
  m w = (Ok a, w1) → (m ≫= f) w = f a w1.
Proof. unfold mbind, M_bind. by intros ->. Qed.

Lemma bind_raise {A B} (m : M A) (f : A → M B) w e w1 :
  m w = (Raise e, w1) → (m ≫= f) w = (Raise e, w1).
Proof. unfold mbind, M_bind. by intros ->. Qed.

Lemma unlink_ok p w :
  is_Some (fs w !! p) →
  unlink p w = (Ok tt, World (delete p (fs w)) (con w) (log w ++ [Unlink p])).
Proof. intros [f Hf]. unfold unlink. by rewrite Hf. Qed.

Lemma rename_ok src dst w f :
  fs w !! src = Some f →
  rename src dst w
  = (Ok tt, World (<[dst := f]> (delete src (fs w))) (con w) (log w ++ [Rename src dst])).
Proof. intros Hf. unfold rename. by rewrite Hf. Qed.

Lemma atomic_copy_spec query out_file label w :
  out_file ≠ [] →
  atomic_copy_query_to_parquet query out_file label w
  = (Ok tt,
     World (<[out_file := Parquet (parquet_of (query (con w)))]>
              (delete (PathLib.with_suffix_tmp out_file) (fs w)))
           (con w)
           (log w ++ atomic_copy_events (fs w) out_file label)).
Proof.
  intros Hne. pose proof (with_suffix_tmp_ne _ Hne) as Htmp.
  destruct w as [m c l].
  unfold atomic_copy_query_to_parquet, atomic_copy_events.
  set (tmp := PathLib.with_suffix_tmp out_file) in *.
  set (P := Parquet (parquet_of (query c))).
  erewrite bind_ok by reflexivity. cbn [fs con log].
  (* the world once the temporary file is out of the way *)
  set (e1 := if bool_decide (is_Some (m !! tmp)) then [Unlink tmp] else []).
  erewrite (bind_ok _ _ _ tt (World (delete tmp m) c (l ++ e1))); cycle 1.
  { subst e1. case_bool_decide as Ht.
    - by rewrite unlink_ok.
    - unfold mret, M_ret. rewrite delete_id, app_nil_r; [done|].
      by apply eq_None_not_Some. }
  erewrite bind_ok by reflexivity. cbn [fs con log].
  erewrite bind_ok by reflexivity. cbn [fs con log].
  rewrite lookup_insert_ne, lookup_delete_ne by done.
  set (e2 := if bool_decide (is_Some (m !! out_file)) then [Unlink out_file] else []).
  erewrite (bind_ok _ _ _ tt
              (World (delete out_file (<[tmp := P]> (delete tmp m))) c
                     ((l ++ e1) ++ [CopyTo tmp] ++ e2))); cycle 1.
  { subst e2. case_bool_decide as Ho.
    - rewrite unlink_ok; cbn [fs con log]; [by rewrite <- !app_assoc|].
      by rewrite lookup_insert_ne, lookup_delete_ne.
    - unfold mret, M_ret. rewrite (delete_id _ out_file), app_nil_r; [done|].
      rewrite lookup_insert_ne, lookup_delete_ne by done.
      by apply eq_None_not_Some. }
  erewrite bind_ok; cycle 1.
  { apply rename_ok. cbn [fs]. rewrite lookup_delete_ne by done. apply lookup_insert_eq. }
  unfold print. cbn [fs con log]. f_equal. f_equal.
  - apply map_eq. intros i.
    destruct (decide (i = out_file)) as [->|]; [by rewrite !lookup_insert_eq|].
    rewrite !lookup_insert_ne by done.
    destruct (decide (i = tmp)) as [->|]; [by rewrite !lookup_delete_eq|].
    rewrite !lookup_delete_ne by done. rewrite lookup_insert_ne by done.
    by rewrite lookup_delete_ne.
  - by rewrite <- !app_assoc.
Qed.

(** ** The steps of a partition *)

Lemma load_or_init_dim_spec lang dim_file w :
  load_or_init_dim lang dim_file w
  = match dict_loaded (fs w) dim_file with
    | Ok rows => (Ok tt, World (fs w) (set_dim_idx rows (set_dim rows (con w))) (log w))
    | Raise e => (Raise e, w)
    end.
Proof.
  destruct w as [m c l]. unfold load_or_init_dim, dict_loaded.
  erewrite bind_ok by reflexivity. cbn [fs con log].
  destruct (m !! dim_file) as [[n|t]|] eqn:E; cbn [size_positive].
  - destruct (0 <? n)%N.
    + apply bind_raise. apply bind_raise. unfold read_parquet. cbn [fs]. by rewrite E.
    + erewrite bind_ok by reflexivity. reflexivity.
  - assert (read_parquet dim_file (World m c l) = (Ok t, World m c l)) as Hr.
    { unfold read_parquet. cbn [fs]. by rewrite E. }
    destruct t as [rows|rows|rows|rows|rows|rows];
      try (apply bind_raise; erewrite bind_ok by apply Hr; reflexivity).
    destruct (forallb _ rows) eqn:Ef.
    + erewrite bind_ok; cycle 1.
      { erewrite bind_ok by apply Hr. cbv beta iota. rewrite Ef. reflexivity. }
      reflexivity.
    + apply bind_raise. erewrite bind_ok by apply Hr. cbv beta iota. by rewrite Ef.
  - erewrite bind_ok by reflexivity. reflexivity.
Qed.

Lemma update_dim_with_partition_spec lang dim_file w :
  dim_file ≠ [] →
  let dim := t_dim (con w) in
  let new := titles_to_add (t_s (con w)) (t_dim_idx (con w)) in
  match q_dim_new (q_base dim) new with
  | Ok dn =>
      ∃ w', update_dim_with_partition lang dim_file w = (Ok tt, w')
            ∧ fs w' = publish dim_file (TDim (dim ++ dn)) (fs w)
            ∧ log w' = log w ++ atomic_copy_events (fs w) dim_file
                                  ("article_dim[" +:+ lang +:+ "]")
            ∧ t_s (con w') = t_s (con w)
            ∧ t_dim (con w') = dim ++ dn
            ∧ t_dim_idx (con w') = dim ++ dn
  | Raise e =>
      ∃ w', update_dim_with_partition lang dim_file w = (Raise e, w')
            ∧ fs w' = fs w ∧ log w' = log w
  end.
Proof.
  intros Hne dim new. destruct w as [m c l]. cbn [fs con log] in *.
  unfold update_dim_with_partition.
  do 4 (erewrite bind_ok by reflexivity; cbn [fs con log]).
  cbn [t_dim t_s t_dim_idx t_part_titles t_part_titles_all t_new_titles
       set_part_titles_all set_part_titles set_new_titles].
  fold (titles_to_add (t_s c) (t_dim_idx c)). fold new. fold dim.
  destruct (q_dim_new (q_base dim) new) as [dn|e] eqn:E.
  - erewrite bind_ok; cycle 1.
    { unfold execute. cbn [con fs log t_new_titles set_new_titles]. rewrite E. reflexivity. }
    erewrite bind_ok by reflexivity. cbn [fs con log].
    erewrite bind_ok by (by apply atomic_copy_spec). cbn [fs con log].
    erewrite bind_ok by reflexivity. cbn [fs con log].
    eexists. split; [reflexivity|]. cbn. done.
  - eexists. split.
    + apply bind_raise. unfold execute. cbn [con fs log t_new_titles set_new_titles].
      rewrite E. reflexivity.
    + done.
Qed.

Lemma out_path_ne_nil gold_root name lang year month :
  out_path gold_root name lang year month ≠ [].
Proof. unfold out_path, PathLib.div. intros H. by apply app_eq_nil in H as [_ ?]. Qed.

Lemma dim_path_ne_nil lang gold_root : dim_path_for lang gold_root ≠ [].
Proof. unfold dim_path_for, PathLib.div. intros H. by apply app_eq_nil in H as [_ ?]. Qed.

Lemma outputs_for_paths lang year month gold_root :
  outputs_for lang year month gold_root
  = (λ name, (name, out_path gold_root name lang year month))
      <$> ["article_popularity"; "article_top"; "referrers_top"; "edges_monthly"].
Proof. reflexivity. Qed.

Lemma compute_and_write_outputs_spec gold_root lang year month
    topn topm min_edges min_ref write_edges write_ref w :
  let ids := q_s_ids (t_s (con w)) (t_dim_idx (con w)) in
  compute_and_write_outputs (outputs_for lang year month gold_root)
                            topn topm min_edges min_ref write_edges write_ref w
  = (Ok tt,
     World (outputs_fs gold_root lang year month topn topm min_edges min_ref
                       write_edges write_ref ids (fs w))
           (set_s_ids ids (con w))
           (log w ++ outputs_events gold_root lang year month topn topm
                                    min_ref write_edges write_ref ids (fs w))).
Proof.
  intros ids. destruct w as [m c l]. cbn [fs con log] in *.
  unfold compute_and_write_outputs, outputs_fs, outputs_events.
  erewrite bind_ok by reflexivity. cbn [fs con log].
  erewrite bind_ok by reflexivity.
  erewrite bind_ok by (apply atomic_copy_spec, out_path_ne_nil). cbn [fs con log].
  erewrite bind_ok by reflexivity.
  erewrite bind_ok by (apply atomic_copy_spec, out_path_ne_nil). cbn [fs con log].
  cbn [t_s_ids set_s_ids]. fold ids.
  destruct write_ref, write_edges.
  - erewrite bind_ok; cycle 1.
    { erewrite bind_ok by reflexivity. apply atomic_copy_spec, out_path_ne_nil. }
    erewrite bind_ok by reflexivity.
    rewrite atomic_copy_spec by apply out_path_ne_nil. cbn [fs con log t_s_ids set_s_ids].
    by rewrite <- !app_assoc.
  - erewrite bind_ok; cycle 1.
    { erewrite bind_ok by reflexivity. apply atomic_copy_spec, out_path_ne_nil. }
    unfold mret, M_ret. cbn [fs con log t_s_ids set_s_ids].
    by rewrite app_nil_r, <- !app_assoc.
  - erewrite bind_ok by reflexivity.
    erewrite bind_ok by reflexivity.
    rewrite atomic_copy_spec by apply out_path_ne_nil. cbn [fs con log t_s_ids set_s_ids].
    by rewrite <- !app_assoc.
  - erewrite bind_ok by reflexivity.
    unfold mret, M_ret. cbn [fs con log t_s_ids set_s_ids].
    by rewrite app_nil_r, <- !app_assoc.
Qed.

Lemma run_one_partition_parse_raise f gold_root topn topm min_edges min_ref
    write_edges write_ref skip_existing w e :
  parse_partition_from_path f = Raise e →
  run_one_partition f gold_root topn topm min_edges min_ref
                    write_edges write_ref skip_existing w = (Raise e, w).
Proof. intros H. unfold run_one_partition. apply bind_raise. unfold lift. by rewrite H. Qed.

Lemma run_one_partition_spec f gold_root topn topm min_edges min_ref
    write_edges write_ref skip_existing w lang year month :
  parse_partition_from_path f = Ok (lang, year, month) →
  let outs := outputs_for lang year month gold_root in
  let tw := to_write_of (fs w) outs write_edges write_ref skip_existing in
  let dim_file := dim_path_for lang gold_root in
  let run := run_one_partition f gold_root topn topm min_edges min_ref
                               write_edges write_ref skip_existing in
  if skip_existing && bool_decide (tw = [])
  then run w = (Ok skipped,
                World (fs w) (con w) (log w ++ [Print (MsgSkip lang year month)]))
  else match merge_inputs (fs w) (lang, year, month) f dim_file with
       | Raise e => ∃ w', run w = (Raise e, w') ∧ fs w' = fs w ∧ log w' = log w
       | Ok (s, dim, dn) =>
           let ids := q_s_ids s (dim ++ dn) in
           let m1 := publish dim_file (TDim (dim ++ dn)) (fs w) in
           ∃ w', run w = (Ok processed, w')
                 ∧ fs w' = outputs_fs gold_root lang year month topn topm min_edges
                                      min_ref write_edges write_ref ids m1
                 ∧ log w' = log w
                     ++ atomic_copy_events (fs w) dim_file ("article_dim[" +:+ lang +:+ "]")
                     ++ [Print (MsgStart lang year month tw)]
                     ++ outputs_events gold_root lang year month topn topm min_ref
                                       write_edges write_ref ids m1
                     ++ [Print (MsgOk lang year month)]
       end.
Proof.
  intros Hp outs tw dim_file run. subst run. unfold run_one_partition.
  erewrite bind_ok by (unfold lift; rewrite Hp; reflexivity). cbv beta iota zeta.
  fold outs.
  erewrite (bind_ok _ _ _
    (if skip_existing
     then omap (λ kp : string * Path,
                  match fs w !! kp.2 with
                  | Some f => if size_positive f then None else Some kp.1
                  | None => Some kp.1
                  end) outs
     else fst <$> outs) w) by (by destruct skip_existing).
  change (if negb write_ref && bool_decide ("referrers_top" ∈ _) then _ else _)
    with tw.
  destruct (skip_existing && bool_decide (tw = [])) eqn:Eskip.
  { erewrite bind_ok by reflexivity. reflexivity. }
  unfold merge_inputs. fold dim_file.
  destruct w as [m c l]. cbn [fs con log] in *.
  destruct (m !! f) as [[n|t]|] eqn:Ef; cbn [mbind result_bind].
  1,3: eexists; split;
    [apply bind_raise; unfold read_parquet; cbn [fs];
     rewrite Ef; reflexivity|done].
  assert (read_parquet f (World m c l) = (Ok t, World m c l)) as Hr.
  { unfold read_parquet. cbn [fs]. by rewrite Ef. }
  destruct t as [rows|rows|rows|rows|rows|rows]; cbn [mbind result_bind];
    try (eexists; split;
         [erewrite bind_ok by apply Hr; apply bind_raise; reflexivity|done]).
  destruct (q_s (lang, year, month) rows) as [s|e] eqn:Es; cbn [mbind result_bind].
  2:{ eexists; split;
        [erewrite bind_ok by apply Hr; apply bind_raise;
         unfold execute; cbn [con]; rewrite Es; reflexivity|done]. }
  erewrite bind_ok by apply Hr.
  erewrite bind_ok; cycle 1.
  { unfold execute. cbn [con fs log mbind result_bind]. rewrite Es. reflexivity. }
  pose proof (load_or_init_dim_spec lang dim_file (World m (set_s s c) l)) as Hload.
  cbn [fs con log] in Hload.
  destruct (dict_loaded m dim_file) as [dim|e] eqn:Ed; cbn [mbind result_bind].
  2:{ eexists; split; [by apply bind_raise|done]. }
  erewrite bind_ok by apply Hload.
  pose proof (update_dim_with_partition_spec lang dim_file
                (World m (set_dim_idx dim (set_dim dim (set_s s c))) l)
                (dim_path_ne_nil _ _)) as Hup.
  cbn [fs con log t_s t_dim t_dim_idx set_dim_idx set_dim set_s] in Hup.
  destruct (q_dim_new (q_base dim) (titles_to_add s dim)) as [dn|e] eqn:En;
    cbn [mbind result_bind].
  2:{ destruct Hup as (w' & Hrun & Hfs & Hlog). exists w'. split; [|done].
      by apply bind_raise. }
  destruct Hup as (w1 & Hrun & Hfs & Hlog & Hs & Hdim & Hidx).
  erewrite bind_ok by apply Hrun.
  erewrite bind_ok by reflexivity.
  erewrite bind_ok by apply compute_and_write_outputs_spec.
  erewrite bind_ok by reflexivity.
  eexists. split; [reflexivity|]. cbn [fs con log].
  rewrite Hs, Hidx, Hfs, Hlog. split; [done|].
  by rewrite <- !app_assoc.
Qed.

(** ** The merge *)

Lemma titles_to_add_elem s dim t :
  t ∈ titles_to_add s dim ↔ t ∈ q_part_titles_all s ∧ t ∉ d_title <$> dim.
Proof.
  unfold titles_to_add, q_new_titles, q_part_titles, Sql.distinct.
  rewrite list_elem_of_filter, elem_of_remove_dups. tauto.
Qed.

Lemma q_dim_new_titles_elem base new dn t :
  q_dim_new base new = Ok dn → t ∈ d_title <$> dn ↔ t ∈ new.
Proof.
  intros (-> & _ & _)%q_dim_new_inv.
  rewrite (sorted_perm String.leb). unfold Sql.distinct. apply elem_of_remove_dups.
Qed.

Lemma publish_lookup_eq out_file t m : publish out_file t m !! out_file = Some (Parquet t).
Proof. unfold publish. apply lookup_insert_eq. Qed.

(** C1. The merge gives ids to exactly the observed titles the dictionary
    lacks; the ids start one above the greatest id of the dictionary (0 when
    it is empty), go up by one, and follow the ascending byte order of the
    titles; the new table and the persisted file are the old rows followed
    by the new ones; and any other list holding the same new titles, in any
    order, gets the same ids from the same base. *)
Theorem merge_assigns_ids lang gold_root w :
  let dim := t_dim (con w) in
  let observed := q_part_titles_all (t_s (con w)) in
  let dim_file := dim_path_for lang gold_root in
  let base := q_base dim in
  t_dim_idx (con w) = dim →
  Forall (λ d, Sql.in_bigint (d_id d) = true) dim →
  base + Z.of_nat (length (Sql.distinct (titles_to_add (t_s (con w)) dim)))
    ≤ Sql.bigint_max →
  ∃ dn w',
    update_dim_with_partition lang dim_file w = (Ok tt, w')
    ∧ t_dim (con w') = dim ++ dn
    ∧ fs w' !! dim_file = Some (Parquet (TDim (dim ++ dn)))
    ∧ (∀ t, t ∈ d_title <$> dn ↔ t ∈ observed ∧ t ∉ d_title <$> dim)
    ∧ StronglySorted title_lt (d_title <$> dn)
    ∧ d_id <$> dn = seqZ (base + 1) (Z.of_nat (length dn))
    ∧ ((dim = [] ∧ base = 0)
       ∨ ((∃ d, d ∈ dim ∧ base = d_id d) ∧ ∀ d, d ∈ dim → d_id d ≤ base))
    ∧ (∀ new', (∀ t, t ∈ new' ↔ t ∈ d_title <$> dn) → q_dim_new base new' = Ok dn).
Proof.
  intros dim observed dim_file base Hidx Hrange Hfit.
  pose proof (update_dim_with_partition_spec lang dim_file w (dim_path_ne_nil _ _)) as Hup.
  cbv zeta in Hup. rewrite Hidx in Hup. fold dim base in Hup.
  pose proof (q_dim_new_Ok base (titles_to_add (t_s (con w)) dim)
                (q_base_in_bigint _ Hrange) Hfit) as Hnew.
  rewrite Hnew in Hup. destruct Hup as (w' & Hrun & Hfs & _ & _ & Hdim & _).
  eexists _, w'. split; [exact Hrun|]. split; [exact Hdim|].
  split; [rewrite Hfs; apply publish_lookup_eq|].
  pose proof (q_dim_new_inv _ _ _ Hnew) as (Ht & Hi & _).
  split; [|split; [|split; [|split]]].
  - intros t. rewrite (q_dim_new_titles_elem _ _ _ t Hnew). apply titles_to_add_elem.
  - rewrite Ht. apply sorted_titles_strict, NoDup_remove_dups.
  - exact Hi.
  - destruct (q_base_cases dim) as [?|(_ & ? & ?)]; [by left|by right].
  - intros new' Hsame. rewrite <- Hnew. apply q_dim_new_ext.
    intros t. rewrite Hsame. apply (q_dim_new_titles_elem _ _ _ t Hnew).
Qed.

Lemma merge_assigns_ids_witness :
  ∃ dn w',
    update_dim_with_partition "en" (dim_path_for "en" ["gold"])
                              (World ∅ (set_s scenario_s connect) []) = (Ok tt, w')
    ∧ t_dim (con w') = [] ++ dn
    ∧ fs w' !! dim_path_for "en" ["gold"] = Some (Parquet (TDim ([] ++ dn)))
    ∧ (∀ t, t ∈ d_title <$> dn
            ↔ t ∈ q_part_titles_all scenario_s ∧ t ∉ d_title <$> ([] : list dim_row))
    ∧ StronglySorted title_lt (d_title <$> dn)
    ∧ d_id <$> dn = seqZ (0 + 1) (Z.of_nat (length dn))
    ∧ ((([] : list dim_row) = [] ∧ 0 = 0)
       ∨ ((∃ d : dim_row, d ∈ [] ∧ 0 = d_id d) ∧ ∀ d : dim_row, d ∈ [] → d_id d ≤ 0))
    ∧ (∀ new', (∀ t, t ∈ new' ↔ t ∈ d_title <$> dn) → q_dim_new 0 new' = Ok dn).
Proof.
  apply (merge_assigns_ids "en" ["gold"] (World ∅ (set_s scenario_s connect) [])).
  - reflexivity.
  - constructor.
  - vm_compute. discriminate.
Defined.

(** *** Paths of the GOLD layout *)

Lemma with_suffix_tmp_div p x :
  PathLib.with_suffix_tmp (p // x) = p // (x +:+ ".tmp").
Proof.
  unfold PathLib.with_suffix_tmp, PathLib.div.
  destruct (p ++ [x]) eqn:E; [by destruct p|]. rewrite <- E.
  by rewrite removelast_last, last_last.
Qed.

Lemma out_path_parts gold_root name lang year month :
  out_path gold_root name lang year month
  = gold_root ++ [name; "lang=" +:+ lang; "year=" +:+ Py.str year;
                  "month=" +:+ Py.fmt_02d month; "data.parquet"].
Proof. unfold out_path, PathLib.div. by rewrite <- !app_assoc. Qed.

Lemma out_path_tmp_parts gold_root name lang year month :
  PathLib.with_suffix_tmp (out_path gold_root name lang year month)
  = gold_root ++ [name; "lang=" +:+ lang; "year=" +:+ Py.str year;
                  "month=" +:+ Py.fmt_02d month; "data.parquet.tmp"].
Proof.
  unfold out_path. rewrite with_suffix_tmp_div. unfold PathLib.div.
  by rewrite <- !app_assoc.
Qed.

Lemma dim_path_parts lang gold_root :
  dim_path_for lang gold_root
  = gold_root ++ ["dimensions"; "articles"; "lang=" +:+ lang; "dict.parquet"].
Proof. unfold dim_path_for, PathLib.div. by rewrite <- !app_assoc. Qed.

Lemma dim_path_tmp_parts lang gold_root :
  PathLib.with_suffix_tmp (dim_path_for lang gold_root)
  = gold_root ++ ["dimensions"; "articles"; "lang=" +:+ lang; "dict.parquet.tmp"].
Proof.
  unfold dim_path_for. rewrite with_suffix_tmp_div. unfold PathLib.div.
  by rewrite <- !app_assoc.
Qed.

(** Two paths under the same root differ as soon as their parts below the
    root do. *)
Ltac path_ne :=
  rewrite ?out_path_tmp_parts, ?dim_path_tmp_parts, ?out_path_parts, ?dim_path_parts;
  let H := fresh in
  intros H; apply app_inv_head in H; congruence.

Lemma publish_lookup_ne out_file t m p :
  p ≠ out_file → p ≠ PathLib.with_suffix_tmp out_file →
  publish out_file t m !! p = m !! p.
Proof. intros. unfold publish. by rewrite lookup_insert_ne, lookup_delete_ne. Qed.

(** The fact artifacts leave every dictionary file alone. *)
Lemma outputs_fs_dim_path gold_root lang year month topn topm min_edges min_ref
    write_edges write_ref ids m lang' :
  outputs_fs gold_root lang year month topn topm min_edges min_ref
             write_edges write_ref ids m !! dim_path_for lang' gold_root
  = m !! dim_path_for lang' gold_root.
Proof.
  unfold outputs_fs.
  destruct write_edges, write_ref;
    rewrite ?publish_lookup_ne; try done; path_ne.
Qed.

(** A file at an artifact path that is not empty stays so through any
    atomic write: only temporary files are ever removed. *)
Lemma publish_published out_file t m p :
  p ≠ PathLib.with_suffix_tmp out_file →
  published m p = true → published (publish out_file t m) p = true.
Proof.
  intros Hne. unfold published.
  destruct (decide (p = out_file)) as [->|].
  - by rewrite publish_lookup_eq.
  - by rewrite publish_lookup_ne.
Qed.

Lemma publish_published_eq out_file t m : published (publish out_file t m) out_file = true.
Proof. unfold published. by rewrite publish_lookup_eq. Qed.

(** *** Properties of the file system kept by the control structure *)

Section preserves.
Context (I : gmap Path file → Prop).

Lemma preserves_ret {A} (a : A) : preserves I (mret a).
Proof. by intros w. Qed.

Lemma preserves_lift {A} (r : result A) : preserves I (lift r).
Proof. by intros w. Qed.

Lemma preserves_print m : preserves I (print m).
Proof. by intros w. Qed.

Lemma preserves_bind {A B} (m : M A) (f : A → M B) :
  preserves I m → (∀ a, preserves I (f a)) → preserves I (m ≫= f).
Proof.
  intros Hm Hf w Hw. specialize (Hm w Hw). unfold mbind, M_bind.
  destruct (m w) as [[a|e] w']; [by apply Hf|done].
Qed.

Lemma preserves_try_except {A} (m : M A) (h : exn → M A) :
  preserves I m → (∀ e, preserves I (h e)) → preserves I (try_except m h).
Proof.
  intros Hm Hh w Hw. specialize (Hm w Hw). unfold try_except.
  destruct (m w) as [[a|e] w']; [done|by apply Hh].
Qed.

Lemma preserves_try_finally {A} (m : M A) (f : M unit) :
  preserves I m → preserves I f → preserves I (try_finally m f).
Proof.
  intros Hm Hf w Hw. specialize (Hm w Hw). unfold try_finally.
  destruct (m w) as [r w']. specialize (Hf w' Hm).
  by destruct (f w') as [[[]|e] w''].
Qed.

Lemma preserves_for_each {A B} (l : list A) (acc : B) (body : B → A → M B) :
  (∀ acc x, preserves I (body acc x)) → preserves I (for_each l acc body).
Proof.
  intros Hb. revert acc. induction l as [|x l IH]; intros acc; simpl.
  - apply preserves_ret.
  - apply preserves_bind; [apply Hb|]. intros acc'. apply IH.
Qed.

Lemma process_lang_preserves lang files gold_dir topn topm min_edges min_ref
    write_edges write_ref skip_existing :
  (∀ f, preserves I (run_one_partition f gold_dir topn topm min_edges min_ref
                                       write_edges write_ref skip_existing)) →
  preserves I (process_lang lang files gold_dir topn topm min_edges min_ref
                            write_edges write_ref skip_existing).
Proof.
  intros Hrun. unfold process_lang.
  apply preserves_bind; [by intros w|]. intros _.
  apply preserves_try_finally; [|by intros w].
  apply preserves_bind; [apply preserves_lift|]. intros keyed.
  apply preserves_for_each. intros acc f.
  apply preserves_try_except.
  - apply preserves_bind; [apply Hrun|]. intros st. apply preserves_ret.
  - intros e. apply preserves_bind; [apply preserves_lift|]. intros p.
    apply preserves_bind; [apply preserves_print|]. intros _. apply preserves_ret.
Qed.
End preserves.

(** *** The dictionary through a merge *)

Lemma dict_extends_refl d : dict_extends d d.
Proof.
  exists []. split; [by rewrite app_nil_r|]. intros r r' Hr. by apply elem_of_nil in Hr.
Qed.

Lemma dict_extends_trans d1 d2 d3 :
  dict_extends d1 d2 → dict_extends d2 d3 → dict_extends d1 d3.
Proof.
  intros (dn1 & -> & H1) (dn2 & -> & H2). exists (dn1 ++ dn2).
  split; [by rewrite app_assoc|].
  intros r r' [Hr|Hr]%elem_of_app Hr'; [by apply H1|].
  apply H2; [done|]. apply elem_of_app. by left.
Qed.

Lemma dict_loaded_dict_at m p dim : dict_loaded m p = Ok dim → dict_at m p = dim.
Proof.
  unfold dict_loaded, dict_at.
  destruct (m !! p) as [[n|[]]|]; try done.
  - destruct (0 <? n)%N; [done|]. by intros [= <-].
  - destruct (forallb _ _); [|done]. by intros [= <-].
  - by intros [= <-].
Qed.

Lemma merge_step_dict_ok s dim dn :
  dict_ok dim →
  q_dim_new (q_base dim) (titles_to_add s dim) = Ok dn →
  dict_ok (dim ++ dn) ∧ dict_extends dim (dim ++ dn).
Proof.
  intros [Ht Hi] Hnew.
  pose proof (q_dim_new_inv _ _ _ Hnew) as (Htitles & Hids & _).
  assert (∀ r, r ∈ dn → q_base dim < d_id r) as Habove.
  { intros r Hr. apply (list_elem_of_fmap_2 d_id) in Hr.
    rewrite Hids in Hr. apply elem_of_seqZ in Hr. lia. }
  assert (∀ r' , r' ∈ dim → d_id r' ≤ q_base dim) as Hbelow.
  { intros r' Hr'. destruct (q_base_cases dim) as [[-> _]|(_ & _ & H)]; [|by apply H].
    by apply elem_of_nil in Hr'. }
  split; [split|].
  - rewrite fmap_app. apply NoDup_app. split; [done|]. split.
    + intros t Hold Hnew'. apply (q_dim_new_titles_elem _ _ _ t Hnew) in Hnew'.
      apply titles_to_add_elem in Hnew' as [_ Hnot]. by apply Hnot.
    + rewrite Htitles, (sorted_perm String.leb). apply NoDup_remove_dups.
  - rewrite fmap_app. apply NoDup_app. split; [done|]. split.
    + intros i (r' & -> & Hr')%list_elem_of_fmap (r & Heq & Hr)%list_elem_of_fmap.
      specialize (Habove r Hr). specialize (Hbelow r' Hr'). lia.
    + rewrite Hids. apply NoDup_seqZ.
  - exists dn. split; [done|]. intros r r' Hr Hr'.
    specialize (Habove r Hr). specialize (Hbelow r' Hr'). lia.
Qed.

Lemma dict_at_publish_eq p d m : dict_at (publish p (TDim d) m) p = d.
Proof. unfold dict_at. by rewrite publish_lookup_eq. Qed.

Lemma dict_at_publish_ne p t m p' :
  p' ≠ p → p' ≠ PathLib.with_suffix_tmp p → dict_at (publish p t m) p' = dict_at m p'.
Proof. intros. unfold dict_at. by rewrite publish_lookup_ne. Qed.

(** One partition, whatever its outcome, takes a dictionary file in
    bijection to an extension of it that is in bijection. *)
Lemma run_one_partition_dict f gold_root topn topm min_edges min_ref
    write_edges write_ref skip_existing lang' w :
  let p := dim_path_for lang' gold_root in
  let w' := (run_one_partition f gold_root topn topm min_edges min_ref
                               write_edges write_ref skip_existing w).2 in
  dict_ok (dict_at (fs w) p) →
  dict_ok (dict_at (fs w') p) ∧ dict_extends (dict_at (fs w) p) (dict_at (fs w') p).
Proof.
  intros p w' Hok. subst w'.
  destruct (parse_partition_from_path f) as [[[lang year] month]|e] eqn:Hp.
  2:{ rewrite (run_one_partition_parse_raise _ _ _ _ _ _ _ _ _ _ _ Hp).
      split; [done|apply dict_extends_refl]. }
  pose proof (run_one_partition_spec f gold_root topn topm min_edges min_ref
                write_edges write_ref skip_existing w lang year month Hp) as Hrun.
  cbv zeta in Hrun.
  destruct (skip_existing && bool_decide (_ = [])).
  { rewrite Hrun. split; [done|apply dict_extends_refl]. }
  destruct (merge_inputs (fs w) (lang, year, month) f (dim_path_for lang gold_root))
    as [[[s dim] dn]|e] eqn:Hin.
  2:{ destruct Hrun as (w' & -> & Hfs & _). cbn [snd]. rewrite Hfs.
      split; [done|apply dict_extends_refl]. }
  destruct Hrun as (w' & -> & Hfs & _). cbn [snd]. rewrite Hfs. subst p.
  assert (dict_at (outputs_fs gold_root lang year month topn topm min_edges min_ref
                     write_edges write_ref (q_s_ids s (dim ++ dn))
                     (publish (dim_path_for lang gold_root) (TDim (dim ++ dn)) (fs w)))
                  (dim_path_for lang' gold_root)
          = dict_at (publish (dim_path_for lang gold_root) (TDim (dim ++ dn)) (fs w))
                    (dim_path_for lang' gold_root)) as ->.
  { unfold dict_at. by rewrite outputs_fs_dim_path. }
  destruct (decide (dim_path_for lang' gold_root = dim_path_for lang gold_root))
    as [Heq|Hne].
  - rewrite Heq in Hok |- *. rewrite dict_at_publish_eq.
    unfold merge_inputs in Hin.
    destruct (fs w !! f) as [[?|[]]|]; try done. cbn [mbind result_bind] in Hin.
    destruct (q_s _ rows) as [s0|]; [|done]. cbn [mbind result_bind] in Hin.
    destruct (dict_loaded (fs w) (dim_path_for lang gold_root)) as [dim0|] eqn:Hd;
      [|done]. cbn [mbind result_bind] in Hin.
    destruct (q_dim_new _ _) as [dn0|] eqn:Hn; [|done]. injection Hin as <- <- <-.
    apply dict_loaded_dict_at in Hd.
    rewrite Hd in Hok |- *. by apply (merge_step_dict_ok s0).
  - rewrite dict_at_publish_ne; [|done|path_ne].
    split; [done|apply dict_extends_refl].
Qed.

(** C2. Through one partition, and through all the partitions of a language
    in sequence, a dictionary file whose titles and ids are in bijection
    stays in bijection, keeps every row it had where it was, and only gains
    rows whose ids are above every id it had. *)
Theorem merges_preserve_dictionary gold_root topn topm min_edges min_ref
    write_edges write_ref skip_existing lang' w :
  let p := dim_path_for lang' gold_root in
  dict_ok (dict_at (fs w) p) →
  (∀ f,
     let w' := (run_one_partition f gold_root topn topm min_edges min_ref
                                  write_edges write_ref skip_existing w).2 in
     dict_ok (dict_at (fs w') p) ∧ dict_extends (dict_at (fs w) p) (dict_at (fs w') p))
  ∧ (∀ lang files,
       let w' := (process_lang lang files gold_root topn topm min_edges min_ref
                               write_edges write_ref skip_existing w).2 in
       dict_ok (dict_at (fs w') p) ∧ dict_extends (dict_at (fs w) p) (dict_at (fs w') p)).
Proof.
  intros p Hok. split.
  - intros f. by apply run_one_partition_dict.
  - intros lang files.
    apply (process_lang_preserves
             (λ m, dict_ok (dict_at m p) ∧ dict_extends (dict_at (fs w) p) (dict_at m p)));
      [|split; [done|apply dict_extends_refl]].
    intros f w1 [Hok1 Hext1].
    destruct (run_one_partition_dict f gold_root topn topm min_edges min_ref
                write_edges write_ref skip_existing lang' w1 Hok1) as [Hok2 Hext2].
    split; [done|]. by eapply dict_extends_trans.
Qed.

Lemma merges_preserve_dictionary_witness :
  dict_ok (dict_at (fs scenario_world) (dim_path_for "en" ["gold"]))
  ∧ dict_at (fs (process_lang "en" [scenario_file] ["gold"] 2 50 1 1 true true true
                              scenario_world).2)
            (dim_path_for "en" ["gold"])
    = [DimRow 1 "London"; DimRow 2 "Paris"]
  ∧ dict_ok (dict_at (fs (process_lang "en" [scenario_file] ["gold"] 2 50 1 1 true true true
                                       scenario_world).2)
                     (dim_path_for "en" ["gold"])).
Proof.
  assert (dict_ok (dict_at (fs scenario_world) (dim_path_for "en" ["gold"]))) as Hok.
  { split; constructor. }
  split; [exact Hok|]. split; [reflexivity|].
  exact (proj1 (proj2 (merges_preserve_dictionary ["gold"] 2 50 1 1 true true true
                         "en" scenario_world Hok)
                      "en" [scenario_file])).
Defined.

(** ** Windows: [ROW_NUMBER() OVER (PARTITION BY ... ORDER BY ... DESC)] *)

Lemma number_from_filter_le {A} limit n (l : list A) :
  filter (λ x : A * Z, x.2 ≤ limit) (Sql.number_from n l)
  = Sql.number_from n (take (Z.to_nat (limit - n + 1)) l).
Proof.
  revert n. induction l as [|r l IH]; intros n; [by rewrite take_nil|].
  cbn [Sql.number_from]. destruct (decide (n ≤ limit)) as [Hle|Hgt].
  - rewrite filter_cons_True by done. rewrite IH.
    replace (Z.to_nat (limit - n + 1)) with (S (Z.to_nat (limit - (n + 1) + 1))) by lia.
    done.
  - rewrite filter_cons_False by done. rewrite IH.
    replace (Z.to_nat (limit - n + 1)) with 0%nat by lia.
    replace (Z.to_nat (limit - (n + 1) + 1)) with 0%nat by lia. done.
Qed.

Lemma filter_all {A} (P : A → Prop) `{∀ x, Decision (P x)} (l : list A) :
  (∀ x, x ∈ l → P x) → filter P l = l.
Proof.
  induction l as [|x l IH]; intros Hall; [done|].
  rewrite filter_cons_True by (apply Hall; left).
  rewrite IH; [done|]. intros y Hy. apply Hall. by right.
Qed.

Lemma filter_none {A} (P : A → Prop) `{∀ x, Decision (P x)} (l : list A) :
  (∀ x, x ∈ l → ¬ P x) → filter P l = [].
Proof.
  induction l as [|x l IH]; intros Hall; [done|].
  rewrite filter_cons_False by (apply Hall; left).
  apply IH. intros y Hy. apply Hall. by right.
Qed.

Lemma filter_comm {A} (P Q : A → Prop) `{∀ x, Decision (P x)} `{∀ x, Decision (Q x)}
    (l : list A) :
  filter P (filter Q l) = filter Q (filter P l).
Proof.
  induction l as [|x l IH]; [done|].
  rewrite (filter_cons Q), (filter_cons P x l).
  destruct (decide (Q x)), (decide (P x));
    rewrite ?filter_cons_True, ?filter_cons_False by done; by rewrite ?IH.
Qed.

Lemma filter_fmap {A B} (f : A → B) (P : B → Prop) `{∀ y, Decision (P y)} (l : list A) :
  filter P (f <$> l) = f <$> filter (λ x, P (f x)) l.
Proof.
  induction l as [|x l IH]; [done|]. cbn [fmap list_fmap].
  rewrite (filter_cons P), (filter_cons (λ x, P (f x))).
  destruct (decide (P (f x))); by rewrite IH.
Qed.

Section window.
Context {A K : Type} `{EqDecision K} (part : A → K) (val : A → Z).

Local Abbreviation desc := (Sql.desc val).

Lemma desc_total a b : desc a b = true ∨ desc b a = true.
Proof. unfold Sql.desc. destruct (Z.leb_spec (val b) (val a)); [by left|right]. apply Z.leb_le. lia. Qed.

Lemma sorted_desc_StronglySorted l :
  StronglySorted (λ a b, val b ≤ val a) (Py.sorted desc l).
Proof.
  apply Sorted_StronglySorted; [intros a b c; lia|].
  eapply Sorted_ind with (P := λ l, Sorted (λ a b, val b ≤ val a) l);
    [constructor| |apply (sorted_Sorted desc desc_total l)].
  intros a l' _ IH Hhd. constructor; [done|].
  destruct Hhd as [|b l'' Hb]; constructor. by apply Z.leb_le.
Qed.

Lemma concat_blocks_filter (block : K → list (A * Z)) ks k :
  (∀ k' x, x ∈ block k' → part x.1 = k') → NoDup ks →
  filter (λ x, part x.1 = k) (concat (block <$> ks))
  = if decide (k ∈ ks) then block k else [].
Proof.
  intros Hblock. induction 1 as [|k0 ks Hk0 Hnd IH]; [done|].
  cbn [fmap list_fmap concat]. rewrite filter_app, IH.
  destruct (decide (k = k0)) as [Heq|Hne].
  - subst k0. rewrite (decide_True (P := k ∈ k :: ks)) by left.
    rewrite (decide_False (P := k ∈ ks)) by done.
    rewrite app_nil_r. apply filter_all. intros x Hx. by apply Hblock.
  - rewrite filter_none; cycle 1.
    { intros x Hx. apply Hblock in Hx. congruence. }
    cbn [app]. destruct (decide (k ∈ ks)) as [Hin|Hnin].
    + rewrite decide_True by (by right). done.
    + rewrite decide_False; [done|]. by intros [?|?]%elem_of_cons.
Qed.

(** The rows a window keeps in the partition [k]: the first [limit] rows
    of the partition in descending order of value, numbered from 1. *)
Lemma row_number_desc_partition limit rows k :
  filter (λ x, part x.1 = k) (Sql.row_number_desc part val limit rows)
  = Sql.number_from 1
      (take (Z.to_nat limit) (Py.sorted desc (filter (λ r, part r = k) rows))).
Proof.
  unfold Sql.row_number_desc, Sql.order_by, Sql.distinct.
  rewrite filter_comm.
  rewrite (concat_blocks_filter
             (λ k, Sql.number_from 1 (Py.sorted desc (filter (λ r, part r = k) rows))));
    [|  |apply NoDup_remove_dups].
  - destruct (decide (k ∈ remove_dups (part <$> rows))) as [Hin|Hnin].
    + rewrite number_from_filter_le. do 2 f_equal. lia.
    + rewrite (filter_none (λ r, part r = k) rows); [simpl; by rewrite take_nil|].
      intros r Hr Heq. apply Hnin. rewrite elem_of_remove_dups, <- Heq.
      by apply list_elem_of_fmap_2.
  - intros k' x Hx. apply (list_elem_of_fmap_2 fst) in Hx.
    rewrite number_from_fst, (sorted_perm desc) in Hx.
    by apply list_elem_of_filter in Hx as [? _].
Qed.
End window.

(** C4, as the code has it.  Within each (lang, year, month) partition the
    Top-N fact holds N Popularity rows, or all of them when there are
    fewer, ranked 1, 2, ... in descending order of total_clicks: they come
    before all other rows of the partition in a descending arrangement
    [top ++ rest] of it.  Nothing is said of the order among rows of equal
    total_clicks: the query does not name one. *)
Theorem top_n_ranks_by_clicks topn pop k :
  let part := filter (λ p, pop_key p = k) pop in
  let top := filter (λ t, pop_key (t_pop t) = k) (rank_top topn pop) in
  ∃ rest,
    (t_pop <$> top) ++ rest ≡ₚ part
    ∧ length top = Nat.min (Z.to_nat topn) (length part)
    ∧ t_rn <$> top = seqZ 1 (Z.of_nat (length top))
    ∧ StronglySorted clicks_ge ((t_pop <$> top) ++ rest).
Proof.
  intros part top.
  set (sorted := Py.sorted (Sql.desc p_total_clicks) part).
  assert (top = (λ x, TopRow x.1 x.2)
                  <$> Sql.number_from 1 (take (Z.to_nat topn) sorted)) as Htop.
  { subst top. unfold rank_top. rewrite filter_fmap.
    f_equal. apply (row_number_desc_partition pop_key p_total_clicks). }
  assert (t_pop <$> top = take (Z.to_nat topn) sorted) as Hpop.
  { rewrite Htop, <- list_fmap_compose. apply (number_from_fst 1). }
  assert (length top = length (take (Z.to_nat topn) sorted)) as Hlen.
  { by rewrite <- Hpop, length_fmap. }
  exists (drop (Z.to_nat topn) sorted). rewrite Hpop, take_drop.
  split; [apply (sorted_perm (Sql.desc p_total_clicks))|].
  split.
  { rewrite Hlen, length_take. subst sorted.
    by rewrite (Permutation_length (sorted_perm _ part)). }
  split.
  { rewrite Hlen, Htop, <- list_fmap_compose. apply (number_from_snd 1). }
  apply (sorted_desc_StronglySorted p_total_clicks).
Qed.

(** C4, as the specification words it, fails.  The window orders by
    total_clicks alone, so among rows of equal total_clicks any order is a
    result the query admits.  With the one the embedding takes, of two
    articles with the same total_clicks the greater id is ranked first,
    which is not the ranking of the specification; and the same rows
    delivered in the other order give another Top-N fact, so the ranking of
    equal rows is not the same whatever the arrival order. *)
Lemma top_n_ties_not_broken_by_id :
  q_top 1 ties_ids ≠ spec_rank_top 1 (q_pop ties_ids)
  ∧ (reverse ties_ids ≡ₚ ties_ids ∧ q_top 1 (reverse ties_ids) ≠ q_top 1 ties_ids).
Proof.
  split; [|split].
  - vm_compute. discriminate.
  - apply reverse_Permutation.
  - vm_compute. discriminate.
Qed.

(** ** Aggregation: [GROUP BY] with [SUM] *)

Lemma sum_app l1 l2 : Sql.sum (l1 ++ l2) = Sql.sum l1 + Sql.sum l2.
Proof. unfold Sql.sum. induction l1 as [|x l1 IH]; simpl; lia. Qed.

Section group_sum.
Context {A K : Type} `{EqDecision K} (key : A → K) (val : A → Z).

Lemma group_total_cons (r : A) (rows : list A) (k : K) :
  group_total key val (r :: rows) k
  = (if decide (key r = k) then val r else 0) + group_total key val rows k.
Proof.
  unfold group_total. rewrite filter_cons. by destruct (decide (key r = k)).
Qed.

Lemma sum_indicator (ks : list K) (k : K) (v : Z) :
  NoDup ks →
  Sql.sum ((λ k', if decide (k = k') then v else 0) <$> ks)
  = if decide (k ∈ ks) then v else 0.
Proof.
  induction 1 as [|k0 ks Hk0 Hnd IH]; [done|].
  cbn [fmap list_fmap]. change (Sql.sum (?x :: ?l)) with (x + Sql.sum l).
  rewrite IH. destruct (decide (k = k0)) as [->|Hne].
  - rewrite (decide_True (P := k0 ∈ k0 :: ks)) by left.
    rewrite (decide_False (P := k0 ∈ ks)) by done. lia.
  - destruct (decide (k ∈ ks)).
    + rewrite decide_True by (by right). lia.
    + rewrite decide_False; [lia|]. by intros [?|?]%elem_of_cons.
Qed.

Lemma sum_group_totals (ks : list K) (rows : list A) :
  NoDup ks → (∀ r, r ∈ rows → key r ∈ ks) →
  Sql.sum (group_total key val rows <$> ks) = Sql.sum (val <$> rows).
Proof.
  intros Hnd. induction rows as [|r rows IH]; intros Hin.
  - clear. unfold group_total. induction ks as [|k ks IHk]; [done|].
    cbn [fmap list_fmap]. change (Sql.sum (?x :: ?l)) with (x + Sql.sum l).
    by rewrite IHk.
  - cbn [fmap list_fmap]. change (Sql.sum (?x :: ?l)) with (x + Sql.sum l).
    rewrite <- IH by (intros; apply Hin; by right).
    assert (val r = Sql.sum ((λ k', if decide (key r = k') then val r else 0) <$> ks))
      as Hr.
    { rewrite sum_indicator by done. rewrite decide_True; [done|]. apply Hin. left. }
    rewrite Hr at 1. clear.
    induction ks as [|k ks IHk]; [done|].
    cbn [fmap list_fmap]. change (Sql.sum (?x :: ?l)) with (x + Sql.sum l).
    rewrite IHk, group_total_cons. lia.
Qed.

(** The sums of the groups add up to the sum of the table. *)
Lemma group_sum_total (rows : list A) :
  Sql.sum ((Sql.group_sum key val rows).*2) = Sql.sum (val <$> rows).
Proof.
  unfold Sql.group_sum, Sql.distinct. rewrite <- list_fmap_compose.
  apply (sum_group_totals (remove_dups (key <$> rows)) rows).
  - apply NoDup_remove_dups.
  - intros r Hr. rewrite elem_of_remove_dups. by apply list_elem_of_fmap_2.
Qed.

(** One row per group, holding the sum of the group, and a group for
    every key of the table. *)
Lemma group_sum_keys (rows : list A) :
  NoDup (Sql.group_sum key val rows).*1
  ∧ ∀ k, k ∈ (Sql.group_sum key val rows).*1 ↔ k ∈ key <$> rows.
Proof.
  unfold Sql.group_sum, Sql.distinct. rewrite <- list_fmap_compose.
  change (fst ∘ _) with (@id K). rewrite list_fmap_id.
  split; [apply NoDup_remove_dups|]. intros k. apply elem_of_remove_dups.
Qed.

Lemma group_sum_elem (rows : list A) k t :
  (k, t) ∈ Sql.group_sum key val rows → t = group_total key val rows k ∧ k ∈ key <$> rows.
Proof.
  unfold Sql.group_sum, Sql.distinct.
  intros (k' & [= -> ->] & Hk)%list_elem_of_fmap. split; [reflexivity|].
  by rewrite elem_of_remove_dups in Hk.
Qed.
End group_sum.

(** ** Resolving titles to ids *)

Lemma filter_title_unique dict t :
  NoDup (d_title <$> dict) → t ∈ d_title <$> dict →
  ∃ d, filter (λ d, Some (d_title d) = Some t) dict = [d] ∧ d ∈ dict ∧ d_title d = t.
Proof.
  induction dict as [|d0 dict IH]; intros Hnd Hin; [by apply elem_of_nil in Hin|].
  cbn [fmap list_fmap] in Hnd, Hin. apply NoDup_cons in Hnd as [Hd0 Hnd].
  destruct (decide (d_title d0 = t)) as [Heq|Hne].
  - exists d0. rewrite filter_cons_True by (by rewrite Heq).
    rewrite filter_none; [split; [done|split; [left|done]]|].
    intros d Hd [= Ht]. apply Hd0. rewrite Heq, <- Ht. by apply list_elem_of_fmap_2.
  - rewrite filter_cons_False by (intros [= ?]; done).
    apply elem_of_cons in Hin as [?|Hin]; [done|].
    destruct (IH Hnd Hin) as (d & Hf & Hd & Ht). exists d. split; [done|].
    split; [by right|done].
Qed.

Lemma filter_title_null dict o :
  o = None → filter (λ d, Some (d_title d) = o) dict = [].
Proof. intros ->. apply filter_none. by intros d _. Qed.

Lemma id_of_Some dict t :
  NoDup (d_title <$> dict) → t ∈ d_title <$> dict →
  ∃ d, id_of dict (Some t) = Some (d_id d) ∧ d ∈ dict ∧ d_title d = t
       ∧ filter (λ d, Some (d_title d) = Some t) dict = [d].
Proof.
  intros Hnd Hin. destruct (filter_title_unique dict t Hnd Hin) as (d & Hf & Hd & Ht).
  exists d. unfold id_of. by rewrite Hf.
Qed.

Lemma q_part_titles_all_cons r s t :
  t ∈ q_part_titles_all (r :: s)
  ↔ s_curr_title r = Some t ∨ s_prev_title r = Some t ∨ t ∈ q_part_titles_all s.
Proof.
  unfold q_part_titles_all. rewrite !elem_of_app. cbn [omap list_omap].
  destruct (s_curr_title r) as [c|], (s_prev_title r) as [p|];
    rewrite ?elem_of_cons; split; intros H;
    intuition (try discriminate; try congruence).
Qed.

(** With a dictionary whose titles are distinct and that holds every title
    of [s], the joins of [s_ids] deliver one row for each record that has a
    [curr_title], in the order of [s]. *)
Lemma q_s_ids_resolve dict s :
  NoDup (d_title <$> dict) → covers dict s →
  q_s_ids s dict = resolve dict <$> filter (λ r, is_Some (s_curr_title r)) s.
Proof.
  intros Hnd. unfold covers. induction s as [|r s IH]; intros Hcov; [done|].
  assert (q_s_ids (r :: s) dict
          = q_s_ids [r] dict ++ q_s_ids s dict) as ->.
  { unfold q_s_ids. by rewrite bind_cons, bind_singleton. }
  rewrite IH by (intros t Ht; apply Hcov, q_part_titles_all_cons; auto).
  rewrite filter_cons. unfold q_s_ids. rewrite bind_singleton.
  destruct (s_curr_title r) as [c|] eqn:Ec.
  - rewrite decide_True by eauto. cbn [fmap list_fmap]. f_equal.
    destruct (id_of_Some dict c Hnd) as (dc & Hidc & _ & _ & Hfc).
    { apply Hcov, q_part_titles_all_cons. auto. }
    rewrite Hfc. rewrite bind_singleton.
    unfold resolve. rewrite Ec, Hidc. cbn [default].
    destruct (s_prev_title r) as [p|] eqn:Ep.
    + destruct (id_of_Some dict p Hnd) as (dp & Hidp & _ & _ & Hfp).
      { apply Hcov. apply q_part_titles_all_cons. right. by left. }
      by rewrite Hfp, Hidp.
    + unfold id_of. by rewrite !(filter_title_null dict None eq_refl).
  - rewrite decide_False by (by intros [? ?]).
    by rewrite (filter_title_null dict None eq_refl).
Qed.

(** When every record counts more than zero, [s] is the file, row by row,
    under the partition of its path. *)
Lemma q_s_positive part rows s :
  (∀ r, r ∈ rows → 0 < count r) → q_s part rows = Ok s →
  s = (λ r, SRow part.1.1 part.1.2 part.2 (r_prev_title r)
                 (r_curr_title r) (count r)) <$> rows.
Proof.
  intros Hpos. unfold q_s.
  assert (omap (λ r, n ← r_n r; if 0 <? n then Some (r, n) else None) rows
          = (λ r, (r, count r)) <$> rows) as ->.
  { induction rows as [|r rows IH]; [done|]. cbn [omap list_omap fmap list_fmap].
    rewrite IH by (intros; apply Hpos; by right).
    specialize (Hpos r ltac:(left)). unfold count in *.
    destruct (r_n r) as [n|]; cbn [default mbind option_bind] in *; [|lia].
    by rewrite (proj2 (Z.ltb_lt 0 n) Hpos). }
  destruct (forallb _ _); [|done]. intros [= <-].
  by rewrite <- list_fmap_compose.
Qed.

Lemma filter_ext_elem {A} (P Q : A → Prop) `{∀ x, Decision (P x)} `{∀ x, Decision (Q x)}
    (l : list A) :
  (∀ x, x ∈ l → P x ↔ Q x) → filter P l = filter Q l.
Proof.
  induction l as [|x l IH]; intros Hext; [done|].
  rewrite (filter_cons P), (filter_cons Q).
  rewrite IH by (intros; apply Hext; by right).
  destruct (decide (P x)) as [HP|HP], (decide (Q x)) as [HQ|HQ]; try done;
    apply (Hext x ltac:(left)) in HP || apply (Hext x ltac:(left)) in HQ; done.
Qed.

Lemma NoDup_fmap_elem_inj {A B} (f : A → B) (l : list A) x y :
  NoDup (f <$> l) → x ∈ l → y ∈ l → f x = f y → x = y.
Proof.
  induction l as [|z l IH]; intros Hnd Hx Hy Heq; [by apply elem_of_nil in Hx|].
  cbn [fmap list_fmap] in Hnd. apply NoDup_cons in Hnd as [Hz Hnd].
  apply elem_of_cons in Hx as [->|Hx]; apply elem_of_cons in Hy as [->|Hy]; try done.
  - exfalso. apply Hz. rewrite Heq. by apply list_elem_of_fmap_2.
  - exfalso. apply Hz. rewrite <- Heq. by apply list_elem_of_fmap_2.
  - by apply IH.
Qed.

Lemma outputs_fs_pop_path gold_root lang year month topn topm min_edges min_ref
    write_edges write_ref ids m :
  outputs_fs gold_root lang year month topn topm min_edges min_ref
             write_edges write_ref ids m
    !! out_path gold_root "article_popularity" lang year month
  = Some (Parquet (TPop (pop_stored <$> q_pop ids))).
Proof.
  unfold outputs_fs.
  destruct write_edges, write_ref;
    rewrite ?publish_lookup_ne by path_ne; apply publish_lookup_eq.
Qed.

Lemma merged_dict_covers s dim dn :
  q_dim_new (q_base dim) (titles_to_add s dim) = Ok dn → covers (dim ++ dn) s.
Proof.
  intros Hnew t Ht. rewrite fmap_app, elem_of_app.
  destruct (decide (t ∈ d_title <$> dim)) as [?|Hnot]; [by left|right].
  apply (q_dim_new_titles_elem _ _ _ t Hnew), titles_to_add_elem. done.
Qed.

(** *** Popularity against a dictionary in bijection that holds every title *)

Section popularity.
Context (dict : list dim_row) (s : list s_row).
Hypothesis dict_bij : dict_ok dict.
Hypothesis dict_covers : covers dict s.

Let ids := q_s_ids s dict.

Lemma q_pop_conserves :
  Sql.sum (p_total_clicks <$> q_pop ids)
  = Sql.sum (s_n <$> filter (λ r, is_Some (s_curr_title r)) s).
Proof.
  unfold q_pop. rewrite <- list_fmap_compose.
  etrans; [|etrans; [apply (group_sum_total
                              (λ r, (i_lang r, i_year r, i_month r, i_curr_id r))
                              i_n ids)|]].
  - f_equal. apply list_fmap_ext. by intros ? [[[[l y] m] c] t] _.
  - subst ids. rewrite q_s_ids_resolve by (done || apply dict_bij).
    by rewrite <- list_fmap_compose.
Qed.

Lemma q_pop_groups :
  NoDup (pop_group <$> q_pop ids).
Proof.
  unfold q_pop. rewrite <- list_fmap_compose.
  pose proof (proj1 (group_sum_keys
                       (λ r, (i_lang r, i_year r, i_month r, i_curr_id r)) i_n ids)) as H.
  erewrite list_fmap_ext; [exact H|]. by intros ? [[[[l y] m] c] t] _.
Qed.

Lemma q_pop_row p :
  p ∈ q_pop ids →
  ∃ title r0,
    DimRow (p_curr_id p) title ∈ dict
    ∧ r0 ∈ s ∧ pop_key p = (s_lang r0, s_year r0, s_month r0)
    ∧ p_total_clicks p
      = Sql.sum (s_n <$> filter (λ r, s_lang r = p_lang p ∧ s_year r = p_year p
                                      ∧ s_month r = p_month p
                                      ∧ s_curr_title r = Some title) s).
Proof.
  destruct dict_bij as [Htitles Hids].
  unfold q_pop. intros ([[[[l y] m] c] t] & -> & Hg)%list_elem_of_fmap.
  apply group_sum_elem in Hg as [-> Hk]. cbn [p_curr_id p_total_clicks p_lang p_year p_month].
  subst ids. rewrite q_s_ids_resolve in Hk |- * by done.
  rewrite <- list_fmap_compose in Hk.
  apply list_elem_of_fmap in Hk as (r0 & [= -> -> -> ->] & [[title0 Hc0] Hr0]%list_elem_of_filter).
  destruct (id_of_Some dict title0 Htitles) as (d0 & Hid0 & Hd0 & Ht0 & _).
  { apply dict_covers. unfold q_part_titles_all. apply elem_of_app. left.
    apply list_elem_of_omap. eauto. }
  exists title0, r0. rewrite Hc0, Hid0. cbn [default]. split.
  { destruct d0 as [i t']. cbn in Ht0 |- *. by rewrite <- Ht0. }
  split; [done|]. split; [done|].
  unfold group_total. rewrite filter_fmap, <- list_fmap_compose, list_filter_filter.
  change (i_n ∘ resolve dict) with s_n. do 2 f_equal.
  apply filter_ext_elem. intros r Hr. unfold resolve. cbn. split.
  - intros [[= Hl Hy Hm Hc] [title Hc']]. repeat split; try done.
    rewrite Hc' in Hc |- *.
    destruct (id_of_Some dict title Htitles) as (d & Hid & Hd & Ht & _).
    { apply dict_covers. unfold q_part_titles_all. apply elem_of_app. left.
      apply list_elem_of_omap. eauto. }
    rewrite Hid in Hc. cbn [default] in Hc.
    assert (d = d0) as -> by (by apply (NoDup_fmap_elem_inj d_id dict)).
    by rewrite <- Ht, Ht0.
  - intros (-> & -> & -> & Hc). rewrite Hc, Hid0. by eauto.
Qed.
End popularity.

(** What a processed partition leaves on disk. *)
Lemma run_one_partition_processed f gold_root topn topm min_edges min_ref
    write_edges write_ref skip_existing w w' lang year month :
  parse_partition_from_path f = Ok (lang, year, month) →
  run_one_partition f gold_root topn topm min_edges min_ref
                    write_edges write_ref skip_existing w = (Ok processed, w') →
  ∃ s dim dn,
    merge_inputs (fs w) (lang, year, month) f (dim_path_for lang gold_root) = Ok (s, dim, dn)
    ∧ fs w' = outputs_fs gold_root lang year month topn topm min_edges min_ref
                         write_edges write_ref (q_s_ids s (dim ++ dn))
                         (publish (dim_path_for lang gold_root) (TDim (dim ++ dn)) (fs w))
    ∧ log w' = log w
        ++ atomic_copy_events (fs w) (dim_path_for lang gold_root)
                              ("article_dim[" +:+ lang +:+ "]")
        ++ [Print (MsgStart lang year month
                     (to_write_of (fs w) (outputs_for lang year month gold_root)
                                  write_edges write_ref skip_existing))]
        ++ outputs_events gold_root lang year month topn topm min_ref
                          write_edges write_ref (q_s_ids s (dim ++ dn))
                          (publish (dim_path_for lang gold_root) (TDim (dim ++ dn)) (fs w))
        ++ [Print (MsgOk lang year month)].
Proof.
  intros Hp Hrun.
  pose proof (run_one_partition_spec f gold_root topn topm min_edges min_ref
                write_edges write_ref skip_existing w lang year month Hp) as Hspec.
  cbv zeta in Hspec.
  destruct (skip_existing && bool_decide (_ = [])); [congruence|].
  destruct (merge_inputs _ _ _ _) as [[[s dim] dn]|e].
  - destruct Hspec as (w1 & Hrun1 & Hfs & Hlog).
    rewrite Hrun in Hrun1. injection Hrun1 as <-. by exists s, dim, dn.
  - destruct Hspec as (w1 & Hrun1 & _). congruence.
Qed.

Lemma merge_inputs_inv m part f dim_file s dim dn :
  merge_inputs m part f dim_file = Ok (s, dim, dn) →
  ∃ rows, m !! f = Some (Parquet (TSilver rows))
          ∧ q_s part rows = Ok s
          ∧ dict_loaded m dim_file = Ok dim
          ∧ q_dim_new (q_base dim) (titles_to_add s dim) = Ok dn.
Proof.
  unfold merge_inputs. destruct (m !! f) as [[?|[]]|]; try done.
  cbn [mbind result_bind]. destruct (q_s _ rows) as [s0|] eqn:Es; [|done].
  cbn [mbind result_bind]. destruct (dict_loaded m dim_file) as [dim0|] eqn:Ed; [|done].
  cbn [mbind result_bind]. destruct (q_dim_new _ _) as [dn0|] eqn:E; [|done].
  intros [= <- <- <-]. by exists rows.
Qed.

Lemma to_double_exact z : Z.abs z ≤ Sql.double_exact → Sql.to_double z = z.
Proof. intros H. unfold Sql.to_double. by rewrite (proj2 (Z.leb_le _ _) H). Qed.

Lemma sum_nonneg l : Forall (λ z, 0 ≤ z) l → 0 ≤ Sql.sum l.
Proof. unfold Sql.sum. induction 1; simpl; lia. Qed.

(** Among counts that are not negative, the sum over fewer rows is the
    smaller one. *)
Lemma sum_filter_le {A} (v : A → Z) (P Q : A → Prop)
    `{∀ x, Decision (P x)} `{∀ x, Decision (Q x)} (l : list A) :
  (∀ x, x ∈ l → 0 ≤ v x) → (∀ x, P x → Q x) →
  0 ≤ Sql.sum (v <$> filter P l) ≤ Sql.sum (v <$> filter Q l).
Proof.
  intros Hpos HPQ. induction l as [|x l IH]; [done|].
  specialize (IH (λ y Hy, Hpos y (list_elem_of_further _ _ _ Hy))).
  pose proof (Hpos x (list_elem_of_here _ _)) as Hx.
  rewrite (filter_cons P), (filter_cons Q).
  destruct (decide (P x)) as [HP|HP].
  - rewrite decide_True by auto. cbn [fmap list_fmap].
    change (Sql.sum (?a :: ?b)) with (a + Sql.sum b). lia.
  - destruct (decide (Q x)); cbn [fmap list_fmap];
      change (Sql.sum (?a :: ?b)) with (a + Sql.sum b); lia.
Qed.

(** C5. For a processed partition whose records all count more than zero
    and add up, over those with a curr_title, to at most 2^53, read against
    a dictionary file in bijection: the Popularity file holds one row per
    (lang, year, month, id); its total_clicks add up to the counts of all
    records with a curr_title; every row lies in the partition of the
    path; and the total_clicks of a row is the sum of the counts of the
    records whose curr_title is the title of its id. *)
Theorem popularity_conserves_clicks f gold_root topn topm min_edges min_ref
    write_edges write_ref skip_existing w w' lang year month rows :
  parse_partition_from_path f = Ok (lang, year, month) →
  fs w !! f = Some (Parquet (TSilver rows)) →
  (∀ r, r ∈ rows → 0 < count r) →
  Sql.sum (count <$> filter (λ r, is_Some (r_curr_title r)) rows) ≤ Sql.double_exact →
  dict_ok (dict_at (fs w) (dim_path_for lang gold_root)) →
  run_one_partition f gold_root topn topm min_edges min_ref
                    write_edges write_ref skip_existing w = (Ok processed, w') →
  ∃ pop,
    fs w' !! out_path gold_root "article_popularity" lang year month
    = Some (Parquet (TPop pop))
    ∧ Sql.sum (p_total_clicks <$> pop)
      = Sql.sum (count <$> filter (λ r, is_Some (r_curr_title r)) rows)
    ∧ NoDup (pop_group <$> pop)
    ∧ ∀ p, p ∈ pop →
        pop_key p = (lang, year, month)
        ∧ ∃ title,
            DimRow (p_curr_id p) title ∈ dict_at (fs w') (dim_path_for lang gold_root)
            ∧ p_total_clicks p
              = Sql.sum (count <$> filter (λ r, r_curr_title r = Some title) rows).
Proof.
  intros Hp Hf Hpos Hbound Hok Hrun.
  destruct (run_one_partition_processed _ _ _ _ _ _ _ _ _ _ _ _ _ _ Hp Hrun)
    as (s & dim & dn & Hin & Hfs & _).
  apply merge_inputs_inv in Hin as (rows' & Hf' & Hs & Hdim & Hnew).
  rewrite Hf in Hf'. injection Hf' as <-.
  apply dict_loaded_dict_at in Hdim. rewrite Hdim in Hok.
  destruct (merge_step_dict_ok s dim dn Hok Hnew) as [Hbij _].
  pose proof (merged_dict_covers s dim dn Hnew) as Hcov.
  pose proof (q_s_positive _ rows s Hpos Hs) as Hsrows. cbn [fst snd] in Hsrows.
  assert (dict_at (fs w') (dim_path_for lang gold_root) = dim ++ dn) as Hdict.
  { rewrite Hfs. unfold dict_at. rewrite outputs_fs_dim_path.
    by rewrite publish_lookup_eq. }
  (* what the query gives each row *)
  assert (∀ p, p ∈ q_pop (q_s_ids s (dim ++ dn)) →
            pop_key p = (lang, year, month)
            ∧ ∃ title,
                DimRow (p_curr_id p) title ∈ dim ++ dn
                ∧ p_total_clicks p
                  = Sql.sum (count <$> filter (λ r, r_curr_title r = Some title) rows))
    as Hrow.
  { intros p Hpop.
    destruct (q_pop_row _ _ Hbij Hcov p Hpop) as (title & r0 & Hd & Hr0 & Hkey & Ht).
    rewrite Hsrows in Hr0. apply list_elem_of_fmap in Hr0 as (x0 & -> & _).
    cbn [s_lang s_year s_month] in Hkey. split; [done|].
    exists title. split; [done|]. rewrite Ht, Hsrows.
    rewrite filter_fmap, <- list_fmap_compose. unfold pop_key in Hkey.
    injection Hkey as Hl Hy Hm. rewrite Hl, Hy, Hm.
    apply (f_equal Sql.sum), (f_equal (fmap count)).
    apply filter_ext_elem. intros r _. cbn. tauto. }
  (* no total is rounded when it is written *)
  assert (pop_stored <$> q_pop (q_s_ids s (dim ++ dn)) = q_pop (q_s_ids s (dim ++ dn)))
    as Hstored.
  { rewrite <- (list_fmap_id (q_pop _)) at 2. apply list_fmap_ext.
    intros i p Hi. apply list_elem_of_lookup_2 in Hi.
    destruct (Hrow p Hi) as (_ & title & _ & Ht).
    destruct p as [l y m c t]. unfold pop_stored. cbn in Ht |- *. f_equal.
    apply to_double_exact. rewrite Ht.
    pose proof (sum_filter_le count (λ r, r_curr_title r = Some title)
                  (λ r, is_Some (r_curr_title r)) rows
                  (λ r Hr, Z.lt_le_incl _ _ (Hpos r Hr))
                  (λ r Hr, ex_intro _ title Hr)).
    lia. }
  exists (q_pop (q_s_ids s (dim ++ dn))).
  split; [by rewrite Hfs, outputs_fs_pop_path, Hstored|].
  split.
  { rewrite (q_pop_conserves _ _ Hbij Hcov), Hsrows.
    by rewrite filter_fmap, <- list_fmap_compose. }
  split; [by apply q_pop_groups|].
  rewrite Hdict. exact Hrow.
Qed.

Lemma popularity_conserves_clicks_witness :
  ∃ pop,
    fs (run_one_partition scenario_file ["gold"] 2 50 1 1 true true true scenario_world).2
      !! out_path ["gold"] "article_popularity" "en" 2024 1
    = Some (Parquet (TPop pop))
    ∧ Sql.sum (p_total_clicks <$> pop)
      = Sql.sum (count <$> filter (λ r, is_Some (r_curr_title r)) scenario_rows)
    ∧ NoDup (pop_group <$> pop)
    ∧ ∀ p, p ∈ pop →
        pop_key p = ("en", 2024, 1)
        ∧ ∃ title,
            DimRow (p_curr_id p) title
              ∈ dict_at (fs (run_one_partition scenario_file ["gold"] 2 50 1 1 true true
                                               true scenario_world).2)
                        (dim_path_for "en" ["gold"])
            ∧ p_total_clicks p
              = Sql.sum (count <$> filter (λ r, r_curr_title r = Some title)
                                          scenario_rows).
Proof.
  refine (popularity_conserves_clicks scenario_file ["gold"] 2 50 1 1 true true true
           scenario_world
           (run_one_partition scenario_file ["gold"] 2 50 1 1 true true true
                              scenario_world).2
           "en" 2024 1 scenario_rows _ _ _ _ _ _).
  - vm_compute. reflexivity.
  - vm_compute. reflexivity.
  - intros r Hr. repeat (apply elem_of_cons in Hr as [->|Hr]; [reflexivity|]).
    by apply elem_of_nil in Hr.
  - vm_compute. discriminate.
  - split; constructor.
  - vm_compute. reflexivity.
Defined.

(** C5, as the specification words it, fails.  Two records of one article,
    both counting more than zero, whose counts add up to 2^53 + 1: the
    partition is processed and the Popularity file holds 2^53 for the
    article, the nearest number its column can take, so the total_clicks of
    the file do not add up to the counts of the records. *)
Lemma popularity_rounded_above_2_53 :
  let r := run_one_partition scenario_file ["gold"] 2 50 1 1 true true true
                             heavy_world in
  let pop := [PopRow "en" 2024 1 1 (2 ^ 53)] in
  fs heavy_world !! scenario_file = Some (Parquet (TSilver heavy_rows))
  ∧ Forall (λ x, 0 < count x) heavy_rows
  ∧ r.1 = Ok processed
  ∧ fs r.2 !! out_path ["gold"] "article_popularity" "en" 2024 1
    = Some (Parquet (TPop pop))
  ∧ Sql.sum (count <$> filter (λ x, is_Some (r_curr_title x)) heavy_rows) = 2 ^ 53 + 1
  ∧ Sql.sum (p_total_clicks <$> pop)
    ≠ Sql.sum (count <$> filter (λ x, is_Some (r_curr_title x)) heavy_rows).
Proof.
  cbv zeta. split; [reflexivity|]. split; [by repeat constructor|].
  split; [vm_compute; reflexivity|]. split; [vm_compute; reflexivity|].
  split; [vm_compute; reflexivity|]. vm_compute. discriminate.
Qed.

(** ** Skipping *)

(** C3 fails on the code. With skip-mode on, the Popularity file present
    and the three other artifacts missing, [missing_outputs] names the three
    missing artifacts only, yet the partition is processed and the
    Popularity file is unlinked and written again along with them:
    [compute_and_write_outputs] never looks at [to_write]. *)
Theorem existing_artifact_rewritten :
  let pop := out_path ["gold"] "article_popularity" "en" 2024 1 in
  let run := run_one_partition scenario_file ["gold"] 2 50 1 1 true true true stale_world in
  published (fs stale_world) pop = true
  ∧ (missing_outputs (outputs_for "en" 2024 1 ["gold"]) stale_world).1
    = Ok ["article_top"; "referrers_top"; "edges_monthly"]
  ∧ run.1 = Ok processed
  ∧ filter (λ e, written e = Some pop) (log run.2)
    = [Unlink pop; Rename (PathLib.with_suffix_tmp pop) pop]
  ∧ fs stale_world !! pop = Some (Parquet (TPop []))
  ∧ fs run.2 !! pop
    = Some (Parquet (TPop [PopRow "en" 2024 1 2 100; PopRow "en" 2024 1 1 80])).
Proof. vm_compute. repeat split; reflexivity. Qed.

Lemma missing_published (m : gmap Path file) (k : string) (p : Path) :
  match m !! p with
  | Some f => if size_positive f then None else Some k
  | None => Some k
  end = if published m p then None else Some k.
Proof. unfold published. by destruct (m !! p). Qed.

Lemma all_published_unfold m gold_root write_edges write_ref lang year month :
  all_published m gold_root write_edges write_ref lang year month
  ↔ published m (out_path gold_root "article_popularity" lang year month) = true
    ∧ published m (out_path gold_root "article_top" lang year month) = true
    ∧ (write_ref = true →
       published m (out_path gold_root "referrers_top" lang year month) = true)
    ∧ (write_edges = true →
       published m (out_path gold_root "edges_monthly" lang year month) = true).
Proof.
  unfold all_published, enabled_outputs. split.
  - intros H. repeat split.
    + apply H. left.
    + apply H. right. left.
    + intros ->. apply H. do 2 right. left.
    + intros ->. apply H. apply elem_of_app. right. apply elem_of_app. right. left.
  - intros (H1 & H2 & H3 & H4) name Hn.
    apply elem_of_cons in Hn as [->|Hn]; [done|].
    apply elem_of_cons in Hn as [->|Hn]; [done|]. cbn [app] in Hn.
    apply elem_of_app in Hn as [Hn|Hn].
    + destruct write_ref; [|by apply elem_of_nil in Hn].
      apply list_elem_of_singleton in Hn as ->. by apply H3.
    + destruct write_edges; [|by apply elem_of_nil in Hn].
      apply list_elem_of_singleton in Hn as ->. by apply H4.
Qed.

(** With skip-mode on, nothing is left to write exactly when every enabled
    artifact is published. *)
Lemma to_write_nil_iff m gold_root lang year month write_edges write_ref :
  to_write_of m (outputs_for lang year month gold_root) write_edges write_ref true = []
  ↔ all_published m gold_root write_edges write_ref lang year month.
Proof.
  rewrite all_published_unfold. unfold to_write_of. rewrite outputs_for_paths.
  cbn [fmap list_fmap omap list_omap fst snd]. rewrite !missing_published.
  destruct (published m (out_path gold_root "article_popularity" lang year month)),
           (published m (out_path gold_root "article_top" lang year month)),
           (published m (out_path gold_root "referrers_top" lang year month)),
           (published m (out_path gold_root "edges_monthly" lang year month)),
           write_edges, write_ref; vm_compute; intuition discriminate.
Qed.

(** A partition with nothing left to write is skipped: one line, no file
    operation, the connection untouched. *)
Lemma run_one_partition_skipped f gold_root topn topm min_edges min_ref
    write_edges write_ref w lang year month :
  parse_partition_from_path f = Ok (lang, year, month) →
  all_published (fs w) gold_root write_edges write_ref lang year month →
  run_one_partition f gold_root topn topm min_edges min_ref write_edges write_ref true w
  = (Ok skipped, World (fs w) (con w) (log w ++ [Print (MsgSkip lang year month)])).
Proof.
  intros Hp Hpub%to_write_nil_iff.
  pose proof (run_one_partition_spec f gold_root topn topm min_edges min_ref
                write_edges write_ref true w lang year month Hp) as Hspec.
  cbv zeta in Hspec. rewrite Hpub in Hspec. exact Hspec.
Qed.

(** ** The loop of [process_lang] *)

Lemma mapM_parse_ok files :
  Forall parses files →
  mapM (λ f, p ← parse_partition_from_path f; Ok (f, (p.1.2, p.2))) files
  = Ok ((λ f, (f, ym_of f)) <$> files).
Proof.
  induction 1 as [|f files [[[l y] m] Hp] _ IH]; [done|].
  cbn [mapM fmap list_fmap]. rewrite Hp, IH. cbn. unfold ym_of. by rewrite Hp.
Qed.

Lemma mapM_parse_raise files :
  ¬ Forall parses files →
  ∃ e, mapM (λ f, p ← parse_partition_from_path f; Ok (f, (p.1.2, p.2))) files = Raise e.
Proof.
  induction files as [|f files IH]; intros Hn; [by destruct Hn|].
  cbn [mapM]. destruct (parse_partition_from_path f) as [p|e] eqn:Hp; [|by exists e].
  cbn [mbind result_bind]. destruct IH as [e He].
  { intros H. apply Hn. constructor; [by exists p|done]. }
  exists e. by rewrite He.
Qed.

Lemma process_lang_unfold lang files gold_dir topn topm min_edges min_ref
    write_edges write_ref skip_existing w :
  Forall parses files →
  let r := for_each (lang_order files) (0, 0)
                    (lang_step lang gold_dir topn topm min_edges min_ref
                               write_edges write_ref skip_existing)
                    (World (fs w) connect (log w)) in
  process_lang lang files gold_dir topn topm min_edges min_ref
               write_edges write_ref skip_existing w
  = (r.1, World (fs r.2) connect (log r.2)).
Proof.
  intros Hparse r. unfold process_lang.
  erewrite bind_ok by reflexivity. unfold try_finally.
  erewrite bind_ok by (unfold lift; rewrite (mapM_parse_ok _ Hparse); reflexivity).
  fold (lang_order files). unfold lang_step in r. fold r. by destruct r.
Qed.

Lemma lang_order_perm files : lang_order files ≡ₚ files.
Proof.
  unfold lang_order. rewrite (sorted_perm _), <- list_fmap_compose.
  by rewrite list_fmap_id.
Qed.

Lemma lang_order_sorted files :
  Sorted (λ a b, Py.tuple_leb (ym_of a) (ym_of b) = true) (lang_order files).
Proof.
  unfold lang_order.
  set (keyed := (λ f, (f, ym_of f)) <$> files).
  assert (Forall (λ x : Path * (Z * Z), x.2 = ym_of x.1)
                 (Py.sorted (λ a b : Path * (Z * Z), Py.tuple_leb a.2 b.2) keyed)) as Hk.
  { rewrite (sorted_perm _). subst keyed. apply Forall_fmap, Forall_forall. by intros. }
  pose proof (sorted_Sorted (λ a b : Path * (Z * Z), Py.tuple_leb a.2 b.2)
                (λ a b, tuple_leb_total a.2 b.2) keyed) as Hs.
  induction Hs as [|x l Hs IH Hhd]; [constructor|].
  apply Forall_cons in Hk as [Hx Hk]. cbn [fmap list_fmap].
  constructor; [by apply IH|].
  destruct Hhd as [|y l' Hxy]; constructor. cbn [fst].
  apply Forall_cons in Hk as [Hy _]. by rewrite <- Hx, <- Hy.
Qed.

Lemma lang_step_outcome lang gold_dir topn topm min_edges min_ref
    write_edges write_ref skip_existing acc f w :
  parses f →
  ∃ acc' w',
    lang_step lang gold_dir topn topm min_edges min_ref write_edges write_ref
              skip_existing acc f w = (Ok acc', w')
    ∧ step_outcome gold_dir lang topn topm min_edges min_ref write_edges write_ref
                   skip_existing f acc w acc' w'.
Proof.
  intros [[[l y] m] Hp].
  pose proof (run_one_partition_spec f gold_dir topn topm min_edges min_ref
                write_edges write_ref skip_existing w l y m Hp) as Hspec.
  cbv zeta in Hspec. unfold lang_step, try_except.
  destruct (skip_existing && bool_decide (_ = [])) eqn:Eskip.
  - apply andb_true_iff in Eskip as [-> Htw%bool_decide_eq_true].
    apply to_write_nil_iff in Htw.
    erewrite bind_ok by exact Hspec. eexists _, _. split; [reflexivity|].
    by eapply StepSkipped.
  - destruct (merge_inputs _ _ _ _) as [[[s dim] dn]|e] eqn:Hin.
    + destruct Hspec as (w' & Hrun & Hfs & Hlog).
      erewrite bind_ok by exact Hrun. eexists _, _. split; [reflexivity|].
      eapply StepProcessed; try done.
    + destruct Hspec as (w' & Hrun & Hfs & Hlog).
      erewrite bind_raise by exact Hrun.
      erewrite bind_ok by (unfold lift; rewrite Hp; reflexivity).
      erewrite bind_ok by reflexivity.
      eexists _, _. split; [reflexivity|].
      eapply StepError; try done. cbn. by rewrite Hlog.
Qed.

(** *** The lines of a run *)

Section lines.
Context {B : Type} (line : event → option B).
Hypothesis line_file_op : ∀ e, written e ≠ None → line e = None.
Hypothesis line_write : ∀ label p, line (Print (MsgWrite label p)) = None.

Lemma atomic_copy_events_lines m p label :
  omap line (atomic_copy_events m p label) = [].
Proof.
  unfold atomic_copy_events.
  repeat case_bool_decide; cbn [app omap list_omap];
    rewrite ?line_write, ?line_file_op by done; done.
Qed.

Lemma outputs_events_lines gold_root lang year month topn topm min_ref
    write_edges write_ref ids m :
  omap line (outputs_events gold_root lang year month topn topm min_ref
                            write_edges write_ref ids m) = [].
Proof.
  unfold outputs_events. rewrite !omap_app, !atomic_copy_events_lines.
  destruct write_ref, write_edges; by rewrite ?atomic_copy_events_lines.
Qed.
End lines.

Lemma count_status_app st l1 l2 :
  count_status st (l1 ++ l2) = count_status st l1 + count_status st l2.
Proof. unfold count_status. rewrite fmap_app, filter_app, length_app. lia. Qed.

Lemma count_status_none st evs :
  omap counted evs = [] → count_status st evs = 0.
Proof.
  unfold count_status. induction evs as [|e evs IH]; [done|].
  cbn [omap list_omap fmap list_fmap]. destruct (counted e); [done|].
  intros H. rewrite filter_cons_False by done. by apply IH.
Qed.

Lemma processed_events_lines gold_root lang year month topn topm min_ref
    write_edges write_ref skip_existing ids dict m :
  let evs := processed_events gold_root lang year month topn topm min_ref
                              write_edges write_ref skip_existing ids dict m in
  omap partition_line evs = [(year, month)]
  ∧ count_status processed evs = 1 ∧ count_status skipped evs = 0.
Proof.
  unfold processed_events. split; [|split].
  - rewrite !omap_app, atomic_copy_events_lines, outputs_events_lines; try done.
    all: by intros [] ?.
  - rewrite !count_status_app.
    rewrite (count_status_none _ (atomic_copy_events _ _ _)),
            (count_status_none _ (outputs_events _ _ _ _ _ _ _ _ _ _ _)); [done|..].
    + apply outputs_events_lines; [by intros [] ?|done].
    + apply atomic_copy_events_lines; [by intros [] ?|done].
  - rewrite !count_status_app.
    rewrite (count_status_none _ (atomic_copy_events _ _ _)),
            (count_status_none _ (outputs_events _ _ _ _ _ _ _ _ _ _ _)); [done|..].
    + apply outputs_events_lines; [by intros [] ?|done].
    + apply atomic_copy_events_lines; [by intros [] ?|done].
Qed.

(** One turn of the loop: one closing line for the file, one count. *)
Lemma step_outcome_lines gold_dir lang topn topm min_edges min_ref
    write_edges write_ref skip_existing f acc w acc' w' :
  step_outcome gold_dir lang topn topm min_edges min_ref write_edges write_ref
               skip_existing f acc w acc' w' →
  ∃ evs, log w' = log w ++ evs
         ∧ omap partition_line evs = [ym_of f]
         ∧ acc'.1 = acc.1 + count_status processed evs
         ∧ acc'.2 = acc.2 + count_status skipped evs.
Proof.
  intros [l y m Hp _ _ -> _ Hlog|l y m s dim dn Hp _ -> _ Hlog|l y m e Hp -> _ Hlog];
    unfold ym_of; rewrite Hp; eexists; (split; [exact Hlog|]).
  - split; [reflexivity|]. unfold count_status. cbn.
    repeat case_decide; try discriminate; try done; cbn; split; lia.
  - destruct (processed_events_lines gold_dir l y m topn topm min_ref write_edges
                write_ref skip_existing (q_s_ids s (dim ++ dn)) (dim ++ dn) (fs w))
      as (H1 & H2 & H3).
    rewrite H1, H2, H3. cbn. split; [done|]. split; lia.
  - split; [reflexivity|]. unfold count_status. cbn.
    repeat case_decide; try discriminate; try done; cbn; split; lia.
Qed.

Lemma for_each_lines lang gold_dir topn topm min_edges min_ref
    write_edges write_ref skip_existing order :
  Forall parses order →
  ∀ acc w,
  ∃ acc' w' evs,
    for_each order acc (lang_step lang gold_dir topn topm min_edges min_ref
                                  write_edges write_ref skip_existing) w
    = (Ok acc', w')
    ∧ log w' = log w ++ evs
    ∧ omap partition_line evs = ym_of <$> order
    ∧ acc'.1 = acc.1 + count_status processed evs
    ∧ acc'.2 = acc.2 + count_status skipped evs.
Proof.
  induction 1 as [|f order Hf _ IH]; intros acc w.
  - exists acc, w, []. rewrite app_nil_r. repeat split; try done; unfold count_status; cbn; lia.
  - destruct (lang_step_outcome lang gold_dir topn topm min_edges min_ref write_edges
                write_ref skip_existing acc f w Hf) as (acc1 & w1 & Hstep & Hout).
    apply step_outcome_lines in Hout as (evs1 & Hlog1 & Hl1 & Hp1 & Hs1).
    destruct (IH acc1 w1) as (acc2 & w2 & evs2 & Hrun & Hlog2 & Hl2 & Hp2 & Hs2).
    exists acc2, w2, (evs1 ++ evs2). cbn [for_each].
    erewrite bind_ok by exact Hstep. split; [exact Hrun|].
    split; [by rewrite Hlog2, Hlog1, app_assoc|].
    split; [by rewrite omap_app, Hl1, Hl2|].
    rewrite !count_status_app. lia.
Qed.

Lemma count_status_lines evs :
  count_status processed evs + count_status skipped evs
  = Z.of_nat (length (omap partition_line evs)).
Proof.
  induction evs as [|e evs IH]; [done|].
  change (e :: evs) with ([e] ++ evs).
  rewrite !count_status_app, omap_app, length_app, Nat2Z.inj_add, <- IH.
  assert (count_status processed [e] + count_status skipped [e]
          = Z.of_nat (length (omap partition_line [e]))) as <-; [|lia].
  by destruct e as [| | |[]].
Qed.

Lemma tuple_leb_ym_le a b : Py.tuple_leb a b = true ↔ ym_le a b.
Proof. apply tuple_leb_spec. Qed.

(** One turn of the loop is one step of the specification. *)
Lemma lang_step_counted lang gold_dir topn topm min_edges min_ref
    write_edges write_ref skip_existing acc f w :
  parses f →
  lang_step lang gold_dir topn topm min_edges min_ref write_edges write_ref
            skip_existing acc f w
  = let st := counted_step gold_dir lang topn topm min_edges min_ref write_edges
                           write_ref skip_existing (acc, w) f in
    (Ok st.1, st.2).
Proof.
  intros [[[l y] m] Hp]. unfold lang_step, try_except, counted_step. cbn [fst snd].
  destruct (run_one_partition f gold_dir topn topm min_edges min_ref write_edges
                              write_ref skip_existing w) as [[st|e] w1] eqn:Hrun.
  - erewrite bind_ok by exact Hrun. by destruct st.
  - erewrite bind_raise by exact Hrun.
    erewrite bind_ok by (unfold lift; rewrite Hp; reflexivity).
    unfold ym_of. rewrite Hp. reflexivity.
Qed.

Lemma for_each_counted lang gold_dir topn topm min_edges min_ref
    write_edges write_ref skip_existing order :
  Forall parses order →
  ∀ acc w,
    for_each order acc (lang_step lang gold_dir topn topm min_edges min_ref
                                  write_edges write_ref skip_existing) w
    = let st := foldl (counted_step gold_dir lang topn topm min_edges min_ref
                                    write_edges write_ref skip_existing)
                      (acc, w) order in
      (Ok st.1, st.2).
Proof.
  induction 1 as [|f order Hf _ IH]; intros acc w; [done|].
  cbn [for_each foldl]. erewrite bind_ok by (by apply lang_step_counted).
  rewrite IH. by destruct (counted_step _ _ _ _ _ _ _ _ _ _ _) as [[a b] w1].
Qed.

(** C8. The partitions of a language are taken one at a time in ascending
    (year, month) order, each on what the ones before it left: one that is
    processed counts as processed, one that is skipped as skipped, and one
    that raises is caught, reported in an [ERROR] line and counted as
    skipped, after which the next one is taken.  So every partition ends
    with exactly one closing line, [OK], [SKIP] or [ERROR], in that order,
    and [process_lang] returns the two counts, which add up to the number
    of partitions. *)
Theorem process_lang_sequence lang files gold_dir topn topm min_edges min_ref
    write_edges write_ref skip_existing w :
  Forall parses files →
  ∃ order evs n_processed n_skipped w',
    process_lang lang files gold_dir topn topm min_edges min_ref
                 write_edges write_ref skip_existing w
    = (Ok (n_processed, n_skipped), w')
    ∧ order ≡ₚ files
    ∧ Sorted (λ a b, ym_le (ym_of a) (ym_of b)) order
    ∧ (let st := foldl (counted_step gold_dir lang topn topm min_edges min_ref
                                     write_edges write_ref skip_existing)
                       (0, 0, World (fs w) connect (log w)) order in
       (n_processed, n_skipped) = st.1 ∧ w' = World (fs st.2) connect (log st.2))
    ∧ log w' = log w ++ evs
    ∧ omap partition_line evs = ym_of <$> order
    ∧ n_processed = count_status processed evs
    ∧ n_skipped = count_status skipped evs
    ∧ n_processed + n_skipped = Z.of_nat (length files).
Proof.
  intros Hparse.
  assert (Forall parses (lang_order files)) as Hord.
  { by rewrite lang_order_perm. }
  destruct (for_each_lines lang gold_dir topn topm min_edges min_ref write_edges
              write_ref skip_existing _ Hord (0, 0) (World (fs w) connect (log w)))
    as ([p s] & w' & evs & Hrun & Hlog & Hlines & Hp & Hs).
  cbn [fst snd log] in *.
  exists (lang_order files), evs, p, s, (World (fs w') connect (log w')).
  split.
  { rewrite process_lang_unfold by done. cbv zeta. by rewrite Hrun. }
  split; [apply lang_order_perm|].
  split.
  { eapply Sorted_ind with (P := λ l, Sorted (λ a b, ym_le (ym_of a) (ym_of b)) l);
      [constructor| |apply lang_order_sorted].
    intros a l _ IH Hhd. constructor; [done|].
    destruct Hhd; constructor. by apply tuple_leb_ym_le. }
  split.
  { rewrite (for_each_counted _ _ _ _ _ _ _ _ _ _ Hord) in Hrun. cbv zeta in Hrun |- *.
    injection Hrun as <- <-. by split. }
  split; [done|]. split; [done|]. split; [lia|]. split; [lia|].
  rewrite Hp, Hs. cbn [fst snd]. rewrite !Z.add_0_l, count_status_lines.
  by rewrite Hlines, length_fmap, (Permutation_length (lang_order_perm files)).
Qed.

Lemma scenario_files_parse : Forall parses scenario_files.
Proof. repeat constructor; eexists; vm_compute; reflexivity. Qed.

Lemma process_lang_sequence_witness :
  Forall parses scenario_files
  ∧ ∃ order evs n_processed n_skipped w',
      process_lang "en" scenario_files ["gold"] 2 50 1 1 true true true scenario_world
      = (Ok (n_processed, n_skipped), w')
      ∧ order ≡ₚ scenario_files
      ∧ Sorted (λ a b, ym_le (ym_of a) (ym_of b)) order
      ∧ (let st := foldl (counted_step ["gold"] "en" 2 50 1 1 true true true)
                         (0, 0, World (fs scenario_world) connect (log scenario_world))
                         order in
         (n_processed, n_skipped) = st.1 ∧ w' = World (fs st.2) connect (log st.2))
      ∧ log w' = log scenario_world ++ evs
      ∧ omap partition_line evs = ym_of <$> order
      ∧ n_processed = count_status processed evs
      ∧ n_skipped = count_status skipped evs
      ∧ n_processed + n_skipped = Z.of_nat (length scenario_files).
Proof.
  split; [exact scenario_files_parse|].
  exact (process_lang_sequence "en" scenario_files ["gold"] 2 50 1 1 true true true
           scenario_world scenario_files_parse).
Defined.

(** The unreadable partition 2024-02 is reported after 2024-01 was
    processed, and counted as skipped. *)
Example process_lang_error_continues :
  let r := process_lang "en" scenario_files ["gold"] 2 50 1 1 true true true
                        scenario_world in
  r.1 = Ok (1, 1)
  ∧ omap partition_line (log r.2) = [(2024, 1); (2024, 2)]
  ∧ filter (λ e, error_line e = true) (log r.2)
    = [Print (MsgError "en" 2024 2 IOException)].
Proof. vm_compute. repeat split; reflexivity. Qed.

(** ** The order of the writes of a partition *)

Lemma atomic_copy_events_targets m p label :
  Forall (λ e, written e = None ∨ written e = Some p
               ∨ written e = Some (PathLib.with_suffix_tmp p))
         (atomic_copy_events m p label).
Proof.
  unfold atomic_copy_events.
  repeat case_bool_decide; cbn [app]; repeat apply Forall_cons_2;
    try apply Forall_nil_2; cbn; auto.
Qed.

Lemma atomic_copy_events_rename m p label :
  Rename (PathLib.with_suffix_tmp p) p ∈ atomic_copy_events m p label.
Proof.
  unfold atomic_copy_events. rewrite !elem_of_app. do 3 right. left.
Qed.

Lemma outputs_events_targets gold_root lang year month topn topm min_ref
    write_edges write_ref ids m :
  Forall (λ e, written e = None
               ∨ ∃ name, written e = Some (out_path gold_root name lang year month)
                         ∨ written e
                           = Some (PathLib.with_suffix_tmp
                                     (out_path gold_root name lang year month)))
         (outputs_events gold_root lang year month topn topm min_ref
                         write_edges write_ref ids m).
Proof.
  assert (∀ m name label,
    Forall (λ e, written e = None
                 ∨ ∃ name, written e = Some (out_path gold_root name lang year month)
                           ∨ written e
                             = Some (PathLib.with_suffix_tmp
                                       (out_path gold_root name lang year month)))
           (atomic_copy_events m (out_path gold_root name lang year month) label)) as H.
  { intros m' name label. eapply Forall_impl; [apply atomic_copy_events_targets|].
    intros e [?|[?|?]]; [by left|right; exists name; by left|right; exists name; by right]. }
  unfold outputs_events. rewrite !Forall_app. repeat split; try apply H.
  - destruct write_ref; [apply H|constructor].
  - destruct write_edges; [apply H|constructor].
Qed.

Lemma outputs_events_renames gold_root lang year month topn topm min_ref
    write_edges write_ref ids m name :
  name ∈ enabled_outputs write_edges write_ref →
  Rename (PathLib.with_suffix_tmp (out_path gold_root name lang year month))
         (out_path gold_root name lang year month)
    ∈ outputs_events gold_root lang year month topn topm min_ref
                     write_edges write_ref ids m.
Proof.
  unfold enabled_outputs, outputs_events. rewrite !elem_of_app.
  intros [Hn|[Hn|Hn]].
  - apply elem_of_cons in Hn as [->|Hn]; [left; apply atomic_copy_events_rename|].
    apply list_elem_of_singleton in Hn as ->. right. left.
    apply atomic_copy_events_rename.
  - destruct write_ref; [|by apply elem_of_nil in Hn].
    apply list_elem_of_singleton in Hn as ->. right. right. left.
    apply atomic_copy_events_rename.
  - destruct write_edges; [|by apply elem_of_nil in Hn].
    apply list_elem_of_singleton in Hn as ->. right. right. right.
    apply atomic_copy_events_rename.
Qed.

(** What comes before the first event with a property holds every event of
    a run of events without it that the log starts with. *)
Lemma before_first {A} (P : A → Prop) (first rest before after : list A) e x :
  first ++ rest = before ++ e :: after →
  Forall (λ y, ¬ P y) first → P e → x ∈ first → x ∈ before.
Proof.
  intros Heq Hnone He Hx.
  apply app_eq_app in Heq as (l & [[-> Hl]|[-> _]]).
  - destruct l as [|y l]; [by rewrite app_nil_r in Hx|].
    injection Hl as <- _. apply Forall_app in Hnone as [_ Hnone].
    by apply Forall_cons in Hnone as [? _].
  - apply elem_of_app. by left.
Qed.

(** C7. No file operation on a fact artifact of a partition comes before
    the rename that publishes the dictionary, however the partition ends.
    When it is processed, its records [s] and the dictionary [dim] on disk
    give the new rows [dn]; the file operations split in two runs: first
    those on the dictionary file, with the rename that publishes it and
    nothing that touches a fact artifact, then the rest, with the rename of
    every enabled artifact and nothing that touches the dictionary file;
    the dictionary file holds the rows of [dim] and [dn], which have every
    title of the partition, and the Popularity file holds the rows computed
    against them. *)
Theorem dictionary_persisted_before_facts f gold_root topn topm min_edges min_ref
    write_edges write_ref skip_existing w lang year month :
  parse_partition_from_path f = Ok (lang, year, month) →
  let dim_file := dim_path_for lang gold_root in
  let r := run_one_partition f gold_root topn topm min_edges min_ref
                             write_edges write_ref skip_existing w in
  (∀ before e after,
     log r.2 = log w ++ before ++ e :: after →
     fact_write gold_root lang year month e →
     Rename (PathLib.with_suffix_tmp dim_file) dim_file ∈ before)
  ∧ (r.1 = Ok processed →
     ∃ rows s dim dn dict_evs fact_evs merged pop,
       fs w !! f = Some (Parquet (TSilver rows))
       ∧ q_s (lang, year, month) rows = Ok s
       ∧ dict_loaded (fs w) dim_file = Ok dim
       ∧ q_dim_new (q_base dim) (titles_to_add s dim) = Ok dn
       ∧ log r.2 = log w ++ dict_evs ++ fact_evs
       ∧ Rename (PathLib.with_suffix_tmp dim_file) dim_file ∈ dict_evs
       ∧ Forall (λ e, ¬ fact_write gold_root lang year month e) dict_evs
       ∧ Forall (λ e, written e ≠ Some dim_file
                      ∧ written e ≠ Some (PathLib.with_suffix_tmp dim_file)) fact_evs
       ∧ (∀ name, name ∈ enabled_outputs write_edges write_ref →
            Rename (PathLib.with_suffix_tmp (out_path gold_root name lang year month))
                   (out_path gold_root name lang year month) ∈ fact_evs)
       ∧ fs r.2 !! dim_file = Some (Parquet (TDim merged))
       ∧ merged ≡ₚ dim ++ dn
       ∧ covers merged s
       ∧ fs r.2 !! out_path gold_root "article_popularity" lang year month
         = Some (Parquet (TPop pop))
       ∧ pop ≡ₚ pop_stored <$> q_pop (q_s_ids s (dim ++ dn))).
Proof.
  intros Hp dim_file r. subst r.
  pose proof (run_one_partition_spec f gold_root topn topm min_edges min_ref
                write_edges write_ref skip_existing w lang year month Hp) as Hspec.
  cbv zeta in Hspec. fold dim_file in Hspec.
  destruct (skip_existing && bool_decide (_ = [])).
  { rewrite Hspec. cbn [snd log fst]. split; [|done].
    intros before e after Heq%app_inv_head Hfact.
    destruct before as [|e0 [|? ?]]; try (by destruct after); try done.
    injection Heq as <- _. by destruct Hfact as (n & p & [=] & _). }
  destruct (merge_inputs _ _ _ _) as [[[s dim] dn]|e] eqn:Hin.
  2:{ destruct Hspec as (w' & -> & _ & Hlog). cbn [snd fst]. split; [|done].
      intros before e' after Heq. rewrite Hlog in Heq.
      rewrite <- (app_nil_r (log w)) in Heq at 1. apply app_inv_head in Heq.
      by destruct before. }
  destruct Hspec as (w' & -> & Hfs & Hlog). cbn [snd fst].
  assert (Forall (λ e, ¬ fact_write gold_root lang year month e)
                 (atomic_copy_events (fs w) dim_file ("article_dim[" +:+ lang +:+ "]")))
    as Hdict.
  { eapply Forall_impl; [apply atomic_copy_events_targets|].
    intros e Hw (name & p & Hwp & Hpath). cbv beta in Hw. rewrite Hwp in Hw.
    destruct Hw as [[=]|[[= ->]|[= ->]]]; destruct Hpath as [Hpath|Hpath];
      revert Hpath; subst dim_file; path_ne. }
  split.
  { intros before e after Heq Hfact. rewrite Hlog in Heq. apply app_inv_head in Heq.
    eapply before_first; [exact Heq|exact Hdict|exact Hfact|].
    apply atomic_copy_events_rename. }
  intros _.
  pose proof Hin as Hin'.
  apply merge_inputs_inv in Hin' as (rows & Hrows & Hs & Hdim & Hnew).
  exists rows, s, dim, dn. eexists _, _.
  exists (dim ++ dn), (pop_stored <$> q_pop (q_s_ids s (dim ++ dn))).
  split; [done|]. split; [done|]. split; [done|]. split; [done|].
  split; [exact Hlog|]. split; [apply atomic_copy_events_rename|].
  split; [exact Hdict|]. split; [|split; [|split; [|split; [|split; [|split]]]]].
  - constructor; [by split|]. apply Forall_app. split; [|by repeat constructor].
    eapply Forall_impl; [apply outputs_events_targets|].
    cbv beta. intros e [Hw|(name & [Hw|Hw])]; rewrite Hw; [by split|split..];
      intros [= Hpath]; revert Hpath; subst dim_file; path_ne.
  - intros name Hname. apply elem_of_cons. right. apply elem_of_app. left.
    by apply outputs_events_renames.
  - rewrite Hfs. subst dim_file. by rewrite outputs_fs_dim_path, publish_lookup_eq.
  - done.
  - by apply merged_dict_covers.
  - rewrite Hfs. apply outputs_fs_pop_path.
  - done.
Qed.

Lemma dictionary_persisted_before_facts_witness :
  let dim_file := dim_path_for "en" ["gold"] in
  let r := run_one_partition scenario_file ["gold"] 2 50 1 1 true true true
                             scenario_world in
  parse_partition_from_path scenario_file = Ok ("en", 2024, 1)
  ∧ r.1 = Ok processed
  ∧ (∀ before e after,
       log r.2 = log scenario_world ++ before ++ e :: after →
       fact_write ["gold"] "en" 2024 1 e →
       Rename (PathLib.with_suffix_tmp dim_file) dim_file ∈ before)
  ∧ ∃ rows s dim dn dict_evs fact_evs merged pop,
      fs scenario_world !! scenario_file = Some (Parquet (TSilver rows))
      ∧ q_s ("en", 2024, 1) rows = Ok s
      ∧ dict_loaded (fs scenario_world) dim_file = Ok dim
      ∧ q_dim_new (q_base dim) (titles_to_add s dim) = Ok dn
      ∧ log r.2 = log scenario_world ++ dict_evs ++ fact_evs
      ∧ Rename (PathLib.with_suffix_tmp dim_file) dim_file ∈ dict_evs
      ∧ Forall (λ e, ¬ fact_write ["gold"] "en" 2024 1 e) dict_evs
      ∧ Forall (λ e, written e ≠ Some dim_file
                     ∧ written e ≠ Some (PathLib.with_suffix_tmp dim_file)) fact_evs
      ∧ (∀ name, name ∈ enabled_outputs true true →
           Rename (PathLib.with_suffix_tmp (out_path ["gold"] name "en" 2024 1))
                  (out_path ["gold"] name "en" 2024 1) ∈ fact_evs)
      ∧ fs r.2 !! dim_file = Some (Parquet (TDim merged))
      ∧ merged ≡ₚ dim ++ dn
      ∧ covers merged s
      ∧ fs r.2 !! out_path ["gold"] "article_popularity" "en" 2024 1
        = Some (Parquet (TPop pop))
      ∧ pop ≡ₚ pop_stored <$> q_pop (q_s_ids s (dim ++ dn)).
Proof.
  intros dim_file r.
  assert (parse_partition_from_path scenario_file = Ok ("en", 2024, 1)) as Hp
    by (vm_compute; reflexivity).
  assert (r.1 = Ok processed) as Hproc by (vm_compute; reflexivity).
  destruct (dictionary_persisted_before_facts scenario_file ["gold"] 2 50 1 1 true true
              true scenario_world "en" 2024 1 Hp) as [Hany Hdone].
  split; [exact Hp|]. split; [exact Hproc|]. split; [exact Hany|exact (Hdone Hproc)].
Defined.

(** ** Running twice *)

Lemma outputs_fs_published gold_root lang year month topn topm min_edges min_ref
    write_edges write_ref ids m name' lang' year' month' :
  published m (out_path gold_root name' lang' year' month') = true →
  published (outputs_fs gold_root lang year month topn topm min_edges min_ref
                        write_edges write_ref ids m)
            (out_path gold_root name' lang' year' month') = true.
Proof.
  intros H. unfold outputs_fs.
  destruct write_edges, write_ref;
    repeat (apply publish_published; [path_ne|]); done.
Qed.

Lemma outputs_fs_all_published gold_root lang year month topn topm min_edges min_ref
    write_edges write_ref ids m :
  all_published (outputs_fs gold_root lang year month topn topm min_edges min_ref
                            write_edges write_ref ids m)
                gold_root write_edges write_ref lang year month.
Proof.
  apply all_published_unfold. unfold outputs_fs.
  split; [|split; [|split]].
  - destruct write_edges, write_ref;
      repeat first [apply publish_published_eq | apply publish_published; [path_ne|]].
  - destruct write_edges, write_ref;
      repeat first [apply publish_published_eq | apply publish_published; [path_ne|]].
  - intros ->. destruct write_edges;
      repeat first [apply publish_published_eq | apply publish_published; [path_ne|]].
  - intros ->. repeat first [apply publish_published_eq | apply publish_published; [path_ne|]].
Qed.

Section twice.
Context (lang : string) (gold_dir : Path) (topn topm min_edges min_ref : Z).
Context (write_edges write_ref : bool).

Lemma step_outcome_published skip_existing f acc w acc' w' name' lang' year' month' :
  step_outcome gold_dir lang topn topm min_edges min_ref write_edges write_ref
               skip_existing f acc w acc' w' →
  published (fs w) (out_path gold_dir name' lang' year' month') = true →
  published (fs w') (out_path gold_dir name' lang' year' month') = true.
Proof.
  intros [l y m _ _ _ _ -> _|l y m s dim dn _ _ _ -> _|l y m e _ _ -> _] H; try done.
  apply outputs_fs_published. apply publish_published; [path_ne|done].
Qed.

Lemma step_outcome_file_published skip_existing f acc w acc' w' :
  step_outcome gold_dir lang topn topm min_edges min_ref write_edges write_ref
               skip_existing f acc w acc' w' →
  (∀ e, e ∈ log w' → error_line e = false) →
  file_published (fs w') gold_dir write_edges write_ref f.
Proof.
  unfold file_published, lang_of, ym_of.
  intros [l y m Hp _ Hpub _ -> _|l y m s dim dn Hp _ _ -> _|l y m e Hp _ _ Hlog] Herr;
    rewrite Hp; cbn [fst snd].
  - done.
  - apply outputs_fs_all_published.
  - specialize (Herr (Print (MsgError lang y m e))). rewrite Hlog in Herr.
    discriminate Herr. apply elem_of_app. right. left.
Qed.

(** The first run: when it reports no error, every partition it was
    given ends up published. *)
Lemma for_each_publishes skip_existing order :
  Forall parses order →
  ∀ acc w,
  ∃ acc' w' evs,
    for_each order acc (lang_step lang gold_dir topn topm min_edges min_ref
                                  write_edges write_ref skip_existing) w
    = (Ok acc', w')
    ∧ log w' = log w ++ evs
    ∧ (∀ name' lang' year' month',
         published (fs w) (out_path gold_dir name' lang' year' month') = true →
         published (fs w') (out_path gold_dir name' lang' year' month') = true)
    ∧ ((∀ e, e ∈ log w' → error_line e = false) →
       Forall (file_published (fs w') gold_dir write_edges write_ref) order).
Proof.
  induction 1 as [|f order Hf _ IH]; intros acc w.
  - exists acc, w, []. rewrite app_nil_r. by repeat split.
  - destruct (lang_step_outcome lang gold_dir topn topm min_edges min_ref write_edges
                write_ref skip_existing acc f w Hf) as (acc1 & w1 & Hstep & Hout).
    destruct (IH acc1 w1) as (acc2 & w2 & evs2 & Hrun & Hlog2 & Hmono & Hpub).
    destruct (step_outcome_lines _ _ _ _ _ _ _ _ _ _ _ _ _ _ Hout)
      as (evs1 & Hlog1 & _).
    exists acc2, w2, (evs1 ++ evs2). cbn [for_each].
    erewrite bind_ok by exact Hstep. split; [exact Hrun|].
    split; [by rewrite Hlog2, Hlog1, app_assoc|]. split.
    + intros name' lang' year' month' H. apply Hmono.
      by eapply step_outcome_published.
    + intros Herr. constructor; [|by apply Hpub].
      assert (file_published (fs w1) gold_dir write_edges write_ref f) as H1.
      { eapply step_outcome_file_published; [exact Hout|].
        intros e He. apply Herr. rewrite Hlog2. apply elem_of_app. by left. }
      intros name Hn. apply Hmono. by apply H1.
Qed.

(** The second run: partitions that are published are skipped one by
    one; nothing is written. *)
Lemma for_each_skips order :
  Forall parses order →
  ∀ acc w,
  Forall (file_published (fs w) gold_dir write_edges write_ref) order →
  ∃ w' evs,
    for_each order acc (lang_step lang gold_dir topn topm min_edges min_ref
                                  write_edges write_ref true) w
    = (Ok (acc.1, acc.2 + Z.of_nat (length order)), w')
    ∧ fs w' = fs w
    ∧ log w' = log w ++ evs
    ∧ Forall (λ e, written e = None) evs.
Proof.
  induction 1 as [|f order [[[l y] m] Hp] _ IH]; intros acc w Hpub.
  - exists w, []. rewrite app_nil_r. cbn [length for_each].
    replace (acc.2 + Z.of_nat 0) with acc.2 by lia. by destruct acc.
  - apply Forall_cons in Hpub as [Hf Hpub].
    unfold file_published, lang_of, ym_of in Hf. rewrite Hp in Hf. cbn [fst snd] in Hf.
    pose proof (run_one_partition_skipped f gold_dir topn topm min_edges min_ref
                  write_edges write_ref w l y m Hp Hf) as Hskip.
    destruct (IH (acc.1, acc.2 + 1)
                 (World (fs w) (con w) (log w ++ [Print (MsgSkip l y m)])) Hpub)
      as (w' & evs & Hrun & Hfs & Hlog & Hev).
    cbn [fs log] in Hfs, Hlog.
    exists w', (Print (MsgSkip l y m) :: evs). cbn [for_each].
    erewrite bind_ok; cycle 1.
    { unfold lang_step, try_except. erewrite bind_ok by exact Hskip. reflexivity. }
    split.
    { rewrite Hrun. cbn [fst snd length].
      by replace (acc.2 + 1 + Z.of_nat (length order))
        with (acc.2 + Z.of_nat (S (length order))) by lia. }
    split; [done|]. split; [by rewrite Hlog, <- app_assoc|]. by constructor.
Qed.
End twice.

(** C6. With skip-mode on, a partition all of whose enabled artifacts exist
    and are not empty is skipped: [run_one_partition] returns [skipped],
    prints one line and leaves the file system (dictionary and facts
    included) and the connection as they were.  Hence, after a run of a
    language that reported no error, a second run over the same files skips
    every partition: it returns (0, number of files), the file system is
    the one the first run left, and the log gains printed lines only. *)
Theorem skip_existing_idempotent gold_root topn topm min_edges min_ref
    write_edges write_ref :
  (∀ f w lang year month,
     parse_partition_from_path f = Ok (lang, year, month) →
     all_published (fs w) gold_root write_edges write_ref lang year month →
     run_one_partition f gold_root topn topm min_edges min_ref
                       write_edges write_ref true w
     = (Ok skipped, World (fs w) (con w) (log w ++ [Print (MsgSkip lang year month)])))
  ∧ (∀ lang files w,
       Forall parses files →
       let w1 := (process_lang lang files gold_root topn topm min_edges min_ref
                               write_edges write_ref true w).2 in
       (∀ e, e ∈ log w1 → error_line e = false) →
       ∃ w2 evs,
         process_lang lang files gold_root topn topm min_edges min_ref
                      write_edges write_ref true w1
         = (Ok (0, Z.of_nat (length files)), w2)
         ∧ fs w2 = fs w1
         ∧ log w2 = log w1 ++ evs
         ∧ Forall (λ e, written e = None) evs).
Proof.
  split.
  { intros f w lang year month. apply run_one_partition_skipped. }
  intros lang files w Hparse w1 Herr.
  assert (Forall parses (lang_order files)) as Hord by (by rewrite lang_order_perm).
  destruct (for_each_publishes lang gold_root topn topm min_edges min_ref write_edges
              write_ref true _ Hord (0, 0) (World (fs w) connect (log w)))
    as (acc1 & v1 & evs1 & Hrun1 & _ & _ & Hpub).
  assert (w1 = World (fs v1) connect (log v1)) as Hw1.
  { subst w1. rewrite process_lang_unfold by done. cbv zeta. by rewrite Hrun1. }
  rewrite Hw1 in Herr |- *. cbn [fs log] in *.
  destruct (for_each_skips lang gold_root topn topm min_edges min_ref write_edges
              write_ref _ Hord (0, 0) (World (fs v1) connect (log v1)) (Hpub Herr))
    as (v2 & evs2 & Hrun2 & Hfs2 & Hlog2 & Hev2).
  cbn [fs log fst snd] in *.
  exists (World (fs v2) connect (log v2)), evs2.
  split.
  { rewrite process_lang_unfold by done. cbv zeta. cbn [fs log]. rewrite Hrun2.
    cbn [fst snd]. by rewrite (Permutation_length (lang_order_perm files)). }
  done.
Qed.

Lemma skip_existing_idempotent_witness :
  let w1 := (process_lang "en" [scenario_file] ["gold"] 2 50 1 1 true true true
                          scenario_world).2 in
  (parse_partition_from_path scenario_file = Ok ("en", 2024, 1)
   ∧ all_published (fs w1) ["gold"] true true "en" 2024 1
   ∧ run_one_partition scenario_file ["gold"] 2 50 1 1 true true true w1
     = (Ok skipped, World (fs w1) (con w1) (log w1 ++ [Print (MsgSkip "en" 2024 1)])))
  ∧ (Forall parses [scenario_file]
     ∧ (∀ e, e ∈ log w1 → error_line e = false)
     ∧ ∃ w2 evs,
         process_lang "en" [scenario_file] ["gold"] 2 50 1 1 true true true w1
         = (Ok (0, Z.of_nat (length [scenario_file])), w2)
         ∧ fs w2 = fs w1
         ∧ log w2 = log w1 ++ evs
         ∧ Forall (λ e, written e = None) evs).
Proof.
  intros w1.
  assert (parse_partition_from_path scenario_file = Ok ("en", 2024, 1)) as Hp
    by (vm_compute; reflexivity).
  assert (all_published (fs w1) ["gold"] true true "en" 2024 1) as Hpub.
  { intros name Hn.
    repeat (apply elem_of_cons in Hn as [->|Hn]; [vm_compute; reflexivity|]).
    by apply elem_of_nil in Hn. }
  assert (Forall parses [scenario_file]) as Hparse.
  { repeat constructor. by eexists. }
  assert (∀ e, e ∈ log w1 → error_line e = false) as Herr.
  { apply Forall_forall. subst w1. vm_compute. repeat constructor. }
  split.
  - split; [exact Hp|]. split; [exact Hpub|].
    exact (proj1 (skip_existing_idempotent ["gold"] 2 50 1 1 true true)
                 scenario_file w1 "en" 2024 1 Hp Hpub).
  - split; [exact Hparse|]. split; [exact Herr|].
    exact (proj2 (skip_existing_idempotent ["gold"] 2 50 1 1 true true)
                 "en" [scenario_file] scenario_world Hparse Herr).
Defined.

(** ** Column resolution of the insights builder *)


Lemma title_expr_probe cols prefix :
  ((prefix +:+ "_title") ∈ cols → title_expr cols prefix = prefix +:+ "_title")
  ∧ ((prefix +:+ "_title") ∉ cols → (prefix +:+ "_name") ∈ cols →
     title_expr cols prefix = prefix +:+ "_name")
  ∧ ((prefix +:+ "_title") ∉ cols → (prefix +:+ "_name") ∉ cols → (prefix +:+ "_id") ∈ cols →
     title_expr cols prefix = "CAST(" +:+ prefix +:+ "_id AS VARCHAR)")
  ∧ (no_title_column cols prefix → title_expr cols prefix = "NULL").
Proof.
  unfold title_expr, no_title_column.
  repeat case_bool_decide; repeat split; intros; try done; tauto.
Qed.









(** A language that has Popularity files of this pipeline, with ids and
    no titles, and no edges file at all: the first two steps fall back on
    the id, the step that reads the edges raises. *)
Example builders_without_edges :
  let pop := Source true [2024] true (Some (2024, 1))
                    {[ "lang"; "year"; "month"; "curr_id"; "total_clicks" ]} in
  let none := Source false [] false None ∅ in
  build_all_time_top ∅ pop ["GOLD_Specifics"] "en" 500 false
  = [BWrite ["GOLD_Specifics"; "all_time_top"; "lang=en"; "data.parquet"]
            "all_time_top en" ["CAST(curr_id AS VARCHAR)"] [500]]
  ∧ build_edges_6m ∅ none ["GOLD_Specifics"] "en" 100000 false = [BRaise IOException].
Proof. vm_compute. split; reflexivity. Qed.

(** ** The partition locator *)

Lemma ym_le_trans a b c : ym_le a b → ym_le b c → ym_le a c.
Proof. unfold ym_le. lia. Qed.

Lemma ym_le_refl a : ym_le a a.
Proof. unfold ym_le. lia. Qed.

Lemma ym_le_antisym a b : ym_le a b → ym_le b a → a = b.
Proof. unfold ym_le. destruct a, b; cbn. intros. f_equal; lia. Qed.

Lemma py_max_fold l x :
  let r := fold_left (λ m y, if Py.tuple_leb y m then m else y) l x in
  (r = x ∨ r ∈ l) ∧ ym_le x r ∧ ∀ y, y ∈ l → ym_le y r.
Proof.
  revert x. induction l as [|z l IH]; intros x; cbn [fold_left].
  - split; [by left|]. split; [apply ym_le_refl|]. intros y Hy. by apply elem_of_nil in Hy.
  - destruct (Py.tuple_leb z x) eqn:E.
    + destruct (IH x) as (Hr & Hx & Hl). split; [|split].
      * destruct Hr; [by left|right; by right].
      * done.
      * intros y [->|Hy]%elem_of_cons; [|by apply Hl].
        eapply ym_le_trans; [|exact Hx]. by apply tuple_leb_spec.
    + destruct (IH z) as (Hr & Hz & Hl). split; [|split].
      * right. destruct Hr as [->|?]; [left|by right].
      * eapply ym_le_trans; [|exact Hz].
        destruct (tuple_leb_total x z) as [H|H]; [by apply tuple_leb_spec|congruence].
      * intros y [->|Hy]%elem_of_cons; [done|by apply Hl].
Qed.

Lemma py_max_spec l :
  l ≠ [] → ∃ mx, Py.max l = Some mx ∧ mx ∈ l ∧ ∀ y, y ∈ l → ym_le y mx.
Proof.
  destruct l as [|x l]; [done|]. intros _. eexists. split; [reflexivity|].
  destruct (py_max_fold l x) as (Hr & Hx & Hl). split.
  - destruct Hr as [->|?]; [left|by right].
  - intros y [->|Hy]%elem_of_cons; [done|by apply Hl].
Qed.

Lemma mapM_keyed_ok files :
  Forall parses files →
  mapM (λ f, p ← parse_partition_from_path f; Ok (f, p)) files
  = Ok ((λ f, (f, key_of f)) <$> files).
Proof.
  induction 1 as [|f files [p Hp] _ IH]; [done|].
  cbn [mapM fmap list_fmap]. rewrite Hp, IH. cbn. unfold key_of. by rewrite Hp.
Qed.

Lemma key_of_ym f : ((key_of f).1.2, (key_of f).2) = ym_of f.
Proof. unfold key_of, ym_of. by destruct (parse_partition_from_path f) as [[[l y] m]|]. Qed.

Lemma key_of_lang f : (key_of f).1.1 = lang_of f.
Proof. unfold key_of, lang_of. by destruct (parse_partition_from_path f) as [[[l y] m]|]. Qed.

Lemma pick_latest_month_spec files :
  Forall parses files → files ≠ [] →
  ∃ res mx,
    pick_latest_month files = Ok res
    ∧ mx ∈ ym_of <$> files
    ∧ (∀ f, f ∈ files → ym_le (ym_of f) mx)
    ∧ res ≡ₚ filter (λ f, ym_of f = mx) files
    ∧ Sorted (λ a b, title_le (lang_of a) (lang_of b)) res.
Proof.
  intros Hparse Hne. unfold pick_latest_month.
  destruct files as [|f0 files0] eqn:Ef; [done|]. rewrite <- Ef in *. clear Ef f0 files0.
  rewrite (mapM_keyed_ok _ Hparse). cbn [mbind result_bind].
  rewrite <- list_fmap_compose.
  assert ((λ x : Path * (string * Z * Z), (x.2.1.2, x.2.2)) ∘ (λ f, (f, key_of f)) <$> files
          = ym_of <$> files) as ->.
  { apply list_fmap_ext. intros ? f _. apply key_of_ym. }
  destruct (py_max_spec (ym_of <$> files)) as (mx & -> & Hin & Hmax).
  { by destruct files. }
  eexists _, mx. split; [reflexivity|]. split; [done|]. split.
  { intros f Hf. apply Hmax. by apply list_elem_of_fmap_2. }
  split.
  - rewrite (sorted_perm _), filter_fmap, <- list_fmap_compose, list_fmap_id.
    erewrite filter_ext_elem; [done|]. intros f _. cbn. by rewrite key_of_ym.
  - set (keyed := filter _ ((λ f, (f, key_of f)) <$> files)).
    assert (Forall (λ x : Path * (string * Z * Z), x.2.1.1 = lang_of x.1)
              (Py.sorted (λ a b : Path * (string * Z * Z), String.leb a.2.1.1 b.2.1.1)
                         keyed)) as Hk.
    { rewrite (sorted_perm _). subst keyed. apply Forall_forall.
      intros x [_ (f & -> & _)%list_elem_of_fmap]%list_elem_of_filter. apply key_of_lang. }
    pose proof (sorted_Sorted (λ a b : Path * (string * Z * Z), String.leb a.2.1.1 b.2.1.1)
                  (λ a b, String.leb_total a.2.1.1 b.2.1.1) keyed) as Hs.
    induction Hs as [|x l Hs IH Hhd]; [constructor|].
    apply Forall_cons in Hk as [Hx Hk]. cbn [fmap list_fmap].
    constructor; [by apply IH|].
    destruct Hhd as [|y l' Hxy]; constructor. cbn [fst].
    apply Forall_cons in Hk as [Hy _]. unfold title_le. by rewrite <- Hx, <- Hy.
Qed.

Lemma by_lang_append_keys lang f d l :
  l ∈ (by_lang_append lang f d).*1 ↔ l = lang ∨ l ∈ d.*1.
Proof.
  induction d as [|[k fs] d IH]; cbn [by_lang_append fmap list_fmap fst].
  - rewrite list_elem_of_singleton, elem_of_nil. tauto.
  - destruct (String.eqb_spec k lang) as [->|Hne]; cbn [fmap list_fmap fst].
    + rewrite elem_of_cons. tauto.
    + rewrite !elem_of_cons, IH. tauto.
Qed.

Lemma main_by_lang_fold files :
  Forall parses files →
  ∀ d0,
  foldl (λ acc f, d ← acc; p ← parse_partition_from_path f;
                  Ok (by_lang_append p.1.1 f d)) (Ok d0) files
  = Ok (foldl (λ d f, by_lang_append (lang_of f) f d) d0 files).
Proof.
  induction 1 as [|f files [p Hp] _ IH]; intros d0; [reflexivity|].
  cbn [foldl mbind result_bind]. rewrite Hp. cbn [mbind result_bind].
  rewrite IH. unfold lang_of. rewrite Hp. by destruct p as [[l y] m].
Qed.

Lemma by_lang_fold_keys files d0 l :
  l ∈ (foldl (λ d f, by_lang_append (lang_of f) f d) d0 files).*1
  ↔ l ∈ d0.*1 ∨ ∃ f, f ∈ files ∧ lang_of f = l.
Proof.
  revert d0. induction files as [|f files IH]; intros d0; cbn [foldl].
  - split; [by left|]. intros [?|(f & Hf & _)]; [done|by apply elem_of_nil in Hf].
  - rewrite IH, by_lang_append_keys. split.
    + intros [[->|?]|(f' & Hf' & Hl)]; [right; exists f; split; [left|done]|by left|].
      right. exists f'. split; [by right|done].
    + intros [?|(f' & [->|Hf']%elem_of_cons & Hl)]; [left; by right|left; by left|].
      right. by exists f'.
Qed.

(** The languages of the jobs are those of the files. *)
Lemma main_by_lang_keys files :
  Forall parses files →
  ∃ jobs, main_by_lang files = Ok jobs
          ∧ ∀ l, l ∈ jobs.*1 ↔ ∃ f, f ∈ files ∧ lang_of f = l.
Proof.
  intros Hparse. eexists. split; [apply (main_by_lang_fold _ Hparse)|].
  intros l. rewrite by_lang_fold_keys. cbn. rewrite elem_of_nil. tauto.
Qed.

(** C10. With the latest-month filter on, the files kept are those whose
    (year, month) is the greatest over all the files matched, whatever
    their language, ordered by language; a language none of whose files
    has that (year, month) keeps no file and gets no job. *)
Theorem latest_month_only files :
  Forall parses files → files ≠ [] →
  ∃ res mx jobs,
    main_files (Args None None None true) files = Ok res
    ∧ pick_latest_month files = Ok res
    ∧ main_by_lang res = Ok jobs
    ∧ mx ∈ ym_of <$> files
    ∧ (∀ f, f ∈ files → ym_le (ym_of f) mx)
    ∧ res ≡ₚ filter (λ f, ym_of f = mx) files
    ∧ Sorted (λ a b, title_le (lang_of a) (lang_of b)) res
    ∧ ∀ l, (∀ f, f ∈ files → lang_of f = l → ym_of f ≠ mx) →
           (∀ f, f ∈ res → lang_of f ≠ l) ∧ l ∉ jobs.*1.
Proof.
  intros Hparse Hne.
  destruct (pick_latest_month_spec files Hparse Hne)
    as (res & mx & Hpick & Hin & Hmax & Hperm & Hsorted).
  assert (∀ f, f ∈ res ↔ f ∈ files ∧ ym_of f = mx) as Hres.
  { intros f. rewrite Hperm, list_elem_of_filter. tauto. }
  assert (Forall parses res) as Hparse'.
  { apply Forall_forall. intros f [Hf _]%Hres.
    by apply (proj1 (Forall_forall _ _) Hparse). }
  destruct (main_by_lang_keys res Hparse') as (jobs & Hjobs & Hkeys).
  exists res, mx, jobs. split.
  { unfold main_files. cbn [a_lang a_year a_month a_latest_month].
    rewrite bool_decide_eq_false_2 by done. exact Hpick. }
  repeat (split; [done|]).
  intros l Hl.
  assert (∀ f, f ∈ res → lang_of f ≠ l) as Hnone.
  { intros f [Hf Hym]%Hres Heq. by apply (Hl f). }
  split; [done|]. intros (f & Hf & Heq)%Hkeys. by apply (Hnone f).
Qed.

Lemma locator_files_parse : Forall parses locator_files.
Proof. repeat constructor; eexists; vm_compute; reflexivity. Qed.

Lemma latest_month_only_witness :
  Forall parses locator_files ∧ locator_files ≠ []
  ∧ ∃ res mx jobs,
      main_files (Args None None None true) locator_files = Ok res
      ∧ pick_latest_month locator_files = Ok res
      ∧ main_by_lang res = Ok jobs
      ∧ mx ∈ ym_of <$> locator_files
      ∧ (∀ f, f ∈ locator_files → ym_le (ym_of f) mx)
      ∧ res ≡ₚ filter (λ f, ym_of f = mx) locator_files
      ∧ Sorted (λ a b, title_le (lang_of a) (lang_of b)) res
      ∧ ∀ l, (∀ f, f ∈ locator_files → lang_of f = l → ym_of f ≠ mx) →
             (∀ f, f ∈ res → lang_of f ≠ l) ∧ l ∉ jobs.*1.
Proof.
  split; [exact locator_files_parse|]. split; [discriminate|].
  apply (latest_month_only locator_files locator_files_parse). discriminate.
Defined.

(** Of the five partitions, those of 2024-02 stay, [de] before [fr]; the
    language [en], whose newest partition is 2024-01, is out of the run. *)
Example latest_month_drops_en :
  pick_latest_month locator_files
  = Ok [["silver"; "lang=de"; "year=2024"; "month=02"; "data.parquet"];
        ["silver"; "lang=fr"; "year=2024"; "month=02"; "data.parquet"]].
Proof. vm_compute. reflexivity. Qed.

(** * Further properties of the code *)

(** ** Numbers as text: [str], the [0Wd] format and [int] *)

Lemma lstrip_no_space s : no_space s = true → Py.lstrip s = s.
Proof. destruct s as [|a s]; [done|]. simpl. by destruct (Py.isspace a). Qed.

Lemma string_app_cons a s1 s2 : String a s1 +:+ s2 = String a (s1 +:+ s2).
Proof. reflexivity. Qed.

Lemma string_app_nil_l s : "" +:+ s = s.
Proof. reflexivity. Qed.

Lemma rev_app_rev_app s1 : ∀ s2 s3,
  String.rev_app (String.rev_app s1 s2) s3 = String.rev_app s2 (s1 +:+ s3).
Proof.
  induction s1 as [|a s1 IH]; intros s2 s3; cbn [String.rev_app]; [done|].
  by rewrite IH, string_app_cons.
Qed.

Lemma string_app_nil_r s : s +:+ "" = s.
Proof. induction s as [|a s IH]; [done|]. by rewrite string_app_cons, IH. Qed.

Lemma rev_app_no_space s1 : ∀ s2,
  no_space s1 = true → no_space s2 = true → no_space (String.rev_app s1 s2) = true.
Proof.
  induction s1 as [|a s1 IH]; intros s2 H1 H2; simpl in *; [done|].
  apply andb_true_iff in H1 as [Ha H1]. apply IH; [done|]. simpl. by rewrite Ha.
Qed.

Lemma strip_no_space s : no_space s = true → Py.strip s = s.
Proof.
  intros H. unfold Py.strip. rewrite (lstrip_no_space s H).
  rewrite lstrip_no_space by (by apply rev_app_no_space).
  unfold String.rev. rewrite rev_app_rev_app. cbn [String.rev_app]. apply string_app_nil_r.
Qed.

Lemma no_space_app s1 s2 :
  no_space (s1 +:+ s2) = no_space s1 && no_space s2.
Proof.
  induction s1 as [|a s1 IH]; [done|].
  rewrite string_app_cons. cbn [no_space]. by rewrite IH, andb_assoc.
Qed.

Lemma int_digits_uint d : ∀ acc,
  Py.int_digits acc (NilEmpty.string_of_uint d) = Some (uint_value acc d).
Proof.
  induction d; intros acc; simpl; try done; rewrite IHd; do 2 f_equal;
    unfold Py.digit; simpl; lia.
Qed.

Lemma no_space_uint d : no_space (NilEmpty.string_of_uint d) = true.
Proof. induction d; simpl; done. Qed.

Lemma uint_value_pos d : ∀ acc,
  uint_value (Z.pos acc) d = Z.pos (Pos.of_uint_acc d acc).
Proof.
  induction d; intros acc; simpl; try done;
    (etrans; [|apply IHd]); f_equal; lia.
Qed.

Lemma uint_value_0 d : uint_value 0 d = Z.of_uint d.
Proof.
  unfold Z.of_uint. induction d; simpl; try done;
    change (uint_value ?n d) with (uint_value n d);
    try (by rewrite <- uint_value_pos).
Qed.

(** A run of digits that is not empty is read from zero. *)
Lemma int_unsigned_digits s :
  (∃ a r, s = String a r ∧ Py.isdigit a = true) →
  Py.int_unsigned s = Py.int_digits 0 s.
Proof. intros (a & r & -> & Ha). simpl. by rewrite Ha. Qed.

Lemma nilzero_uint_head d :
  ∃ a r, NilZero.string_of_uint d = String a r ∧ Py.isdigit a = true
         ∧ a ≠ "-"%char ∧ a ≠ "+"%char.
Proof. destruct d; simpl; eexists _, _; (split; [reflexivity|]); done. Qed.

Lemma nilzero_uint_digits d :
  Py.int_digits 0 (NilZero.string_of_uint d) = Some (Z.of_uint d).
Proof.
  rewrite <- uint_value_0.
  destruct d; try apply int_digits_uint. reflexivity.
Qed.

Lemma nilzero_uint_no_space d : no_space (NilZero.string_of_uint d) = true.
Proof. destruct d; try apply no_space_uint. reflexivity. Qed.

Lemma int_digits_zeros k s : Py.int_digits 0 (Py.zeros k +:+ s) = Py.int_digits 0 s.
Proof.
  induction k as [|k IH]; [done|].
  cbn [Py.zeros]. rewrite string_app_cons. exact IH.
Qed.

Lemma no_space_zeros k : no_space (Py.zeros k) = true.
Proof. induction k; simpl; done. Qed.

(** The text of a natural number, possibly after zeros, reads back. *)
Lemma int_unsigned_padded k d :
  Py.int_unsigned (Py.zeros k +:+ NilZero.string_of_uint d) = Some (Z.of_uint d).
Proof.
  destruct (nilzero_uint_head d) as (a & r & E & Ha & _).
  rewrite int_unsigned_digits.
  - rewrite int_digits_zeros. apply nilzero_uint_digits.
  - destruct k; simpl; [rewrite E; eauto|eauto].
Qed.

Lemma int_padded k d :
  Py.int (Py.zeros k +:+ NilZero.string_of_uint d) = Some (Z.of_uint d).
Proof.
  unfold Py.int. rewrite strip_no_space
    by (by rewrite no_space_app, no_space_zeros, nilzero_uint_no_space).
  rewrite <- (int_unsigned_padded k d).
  destruct k; simpl; [|done].
  destruct (nilzero_uint_head d) as (a & r & -> & _ & Hm & Hp).
  destruct a as [[] [] [] [] [] [] [] []]; try done.
Qed.

Lemma int_neg_padded k d :
  Py.int ("-" +:+ Py.zeros k +:+ NilZero.string_of_uint d) = Some (- Z.of_uint d).
Proof.
  rewrite string_app_cons, string_app_nil_l.
  unfold Py.int. rewrite strip_no_space
    by (cbn [no_space]; by rewrite no_space_app, no_space_zeros, nilzero_uint_no_space).
  by rewrite int_unsigned_padded.
Qed.

(** [int(str(n)) == n] and [int(f"{n:0Wd}") == n]. *)
Lemma int_str n : Py.int (Py.str n) = Some n.
Proof.
  unfold Py.str. rewrite <- (DecimalZ.of_to n) at 2.
  destruct (Z.to_int n) as [d|d]; cbn [NilZero.string_of_int Z.of_int].
  - apply (int_padded 0).
  - apply (int_neg_padded 0).
Qed.

Lemma str_nonneg n :
  0 ≤ n → ∃ d, Py.str n = NilZero.string_of_uint d ∧ Z.of_uint d = n.
Proof.
  intros Hn. unfold Py.str. pose proof (DecimalZ.of_to n) as H.
  destruct n as [|p|p]; [| |lia]; cbn [Z.to_int NilZero.string_of_int] in *; eauto.
Qed.

Lemma int_fmt_0d width n : Py.int (Py.fmt_0d width n) = Some n.
Proof.
  unfold Py.fmt_0d. destruct (Z.ltb_spec n 0) as [Hn|Hn].
  - destruct (str_nonneg (Z.abs n)) as (d & -> & Hd); [lia|].
    rewrite int_neg_padded, Hd. f_equal. lia.
  - destruct (str_nonneg (Z.abs n)) as (d & -> & Hd); [lia|].
    rewrite string_app_nil_l, int_padded, Hd. f_equal. lia.
Qed.

Lemma str_inj n1 n2 : Py.str n1 = Py.str n2 → n1 = n2.
Proof.
  intros H. apply (f_equal Py.int) in H. rewrite !int_str in H. by injection H.
Qed.

Lemma fmt_0d_inj width n1 n2 : Py.fmt_0d width n1 = Py.fmt_0d width n2 → n1 = n2.
Proof.
  intros H. apply (f_equal Py.int) in H. rewrite !int_fmt_0d in H. by injection H.
Qed.

(** ** Partition paths *)

Lemma split_no_sep c s : contains c s = false → Py.split c s = [s].
Proof.
  induction s as [|a s IH]; [done|]. cbn [contains Py.split].
  intros [Ha Hs]%orb_false_iff. rewrite Ha, (IH Hs). done.
Qed.

Lemma split_sep c s :
  contains c s = true → ∃ a b rest, Py.split c s = a :: b :: rest.
Proof.
  induction s as [|x s IH]; [done|]. cbn [contains Py.split].
  destruct (Ascii.eqb x c).
  - intros _. destruct s as [|y s]; cbn [Py.split]; [eauto|].
    destruct (Ascii.eqb y c); [eauto|]. destruct (Py.split c s); eauto.
  - intros H. destruct (IH H) as (a & b & rest & ->). eauto.
Qed.

Lemma split_key c k v :
  contains c k = false → Py.split c (k +:+ String c v) = k :: Py.split c v.
Proof.
  induction k as [|a k IH].
  - intros _. rewrite string_app_nil_l. cbn [Py.split]. by rewrite Ascii.eqb_refl.
  - cbn [contains]. intros [Ha Hk]%orb_false_iff.
    rewrite string_app_cons. cbn [Py.split]. by rewrite Ha, (IH Hk).
Qed.

Lemma contains_app c s1 s2 : contains c (s1 +:+ s2) = contains c s1 || contains c s2.
Proof.
  induction s1 as [|a s1 IH]; [done|].
  rewrite string_app_cons. cbn [contains]. by rewrite IH, orb_assoc.
Qed.

Lemma contains_eq_uint d : contains "=" (NilZero.string_of_uint d) = false.
Proof.
  assert (∀ d, contains "=" (NilEmpty.string_of_uint d) = false) as H.
  { intros d'. induction d'; simpl; done. }
  destruct d; try apply H. reflexivity.
Qed.

Lemma contains_eq_zeros k : contains "=" (Py.zeros k) = false.
Proof. induction k; simpl; done. Qed.

Lemma contains_eq_str n : contains "=" (Py.str n) = false.
Proof.
  unfold Py.str. destruct (Z.to_int n); cbn [NilZero.string_of_int contains];
    by rewrite ?contains_eq_uint.
Qed.

Lemma contains_eq_fmt_0d width n : contains "=" (Py.fmt_0d width n) = false.
Proof.
  unfold Py.fmt_0d. rewrite !contains_app, contains_eq_zeros, contains_eq_str.
  by destruct (n <? 0).
Qed.

Lemma last3_parent root a b c name :
  PathLib.last3 (PathLib.parent (root // a // b // c // name)) = [a; b; c].
Proof.
  unfold PathLib.parent, PathLib.last3, PathLib.div.
  rewrite removelast_last, <- !app_assoc. cbn [app].
  rewrite length_app. cbn [length].
  replace (length root + 3 - 3)%nat with (length root) by lia.
  apply drop_app_length.
Qed.

(** The comprehension of [parse_partition_from_path], one directory at a
    time. *)
Lemma parse_dirs_raise e l :
  foldl (λ acc kv,
           d ← acc;
           k ← of_option IndexError (Py.split "=" kv !! 0%nat);
           v ← of_option IndexError (Py.split "=" kv !! 1%nat);
           Ok (<[k := v]> d))
        (Raise e : result (gmap string string)) l
  = Raise e.
Proof. induction l as [|kv l IH]; [done|]. exact IH. Qed.

Lemma parse_dirs_index_error l : ∀ d : gmap string string,
  (∃ d', foldl (λ acc kv,
                  d ← acc;
                  k ← of_option IndexError (Py.split "=" kv !! 0%nat);
                  v ← of_option IndexError (Py.split "=" kv !! 1%nat);
                  Ok (<[k := v]> d)) (Ok d) l = Ok d'
         ∧ ∀ kv, kv ∈ l → contains "=" kv = true)
  ∨ (foldl (λ acc kv,
              d ← acc;
              k ← of_option IndexError (Py.split "=" kv !! 0%nat);
              v ← of_option IndexError (Py.split "=" kv !! 1%nat);
              Ok (<[k := v]> d)) (Ok d) l = Raise IndexError
     ∧ ∃ kv, kv ∈ l ∧ contains "=" kv = false).
Proof.
  induction l as [|kv l IH]; intros d.
  - left. exists d. split; [done|]. intros kv Hkv. by apply elem_of_nil in Hkv.
  - cbn [foldl]. destruct (contains "=" kv) eqn:E.
    + destruct (split_sep _ _ E) as (a & b & rest & ->).
      cbn [lookup list_lookup of_option mbind result_bind].
      destruct (IH (<[a := b]> d)) as [(d' & H1 & H2)|(H1 & kv' & H2 & H3)].
      * left. exists d'. split; [done|].
        intros kv' [->|Hkv]%elem_of_cons; [done|by apply H2].
      * right. split; [done|]. exists kv'. split; [by right|done].
    + rewrite (split_no_sep _ _ E).
      cbn [lookup list_lookup of_option mbind result_bind].
      right. split; [apply parse_dirs_raise|]. exists kv. split; [left|done].
Qed.

Lemma hive_path_parses root lang year month name :
  contains "=" lang = false →
  parse_partition_from_path (root // ("lang=" +:+ lang) // ("year=" +:+ Py.str year)
                                  // ("month=" +:+ Py.fmt_02d month) // name)
  = Ok (lang, year, month).
Proof.
  intros Hl. unfold parse_partition_from_path. rewrite last3_parent.
  cbn [foldl].
  change ("lang=" +:+ lang) with ("lang" +:+ String "=" lang).
  change ("year=" +:+ Py.str year) with ("year" +:+ String "=" (Py.str year)).
  change ("month=" +:+ Py.fmt_02d month)
    with ("month" +:+ String "=" (Py.fmt_02d month)).
  rewrite (split_key "=" "lang" lang eq_refl), (split_no_sep _ _ Hl).
  rewrite (split_key "=" "year" (Py.str year) eq_refl),
          (split_no_sep _ _ (contains_eq_str year)).
  rewrite (split_key "=" "month" (Py.fmt_02d month) eq_refl),
          (split_no_sep "=" (Py.fmt_02d month) (contains_eq_fmt_0d 2 month)).
  cbn [lookup list_lookup of_option mbind result_bind].
  set (d := <["month" := Py.fmt_02d month]> _).
  assert (d !! "lang" = Some lang) as ->.
  { subst d. rewrite lookup_insert_ne by done. rewrite lookup_insert_ne by done.
    apply lookup_insert_eq. }
  assert (d !! "year" = Some (Py.str year)) as ->.
  { subst d. rewrite lookup_insert_ne by done. apply lookup_insert_eq. }
  assert (d !! "month" = Some (Py.fmt_02d month)) as ->.
  { subst d. apply lookup_insert_eq. }
  cbn [of_option mbind result_bind]. rewrite int_str.
  cbn [of_option mbind result_bind].
  unfold Py.fmt_02d. rewrite int_fmt_0d. reflexivity.
Qed.

(** X1. A file laid out as [.../lang=L/year=Y/month=MM/<name>], with [L]
    free of [=], parses back to (L, Y, M), whatever lies above the three
    directories and whatever the file is called; so every path of
    [outputs_for] parses back to the partition it was made for. *)
Theorem partition_path_round_trip root lang year month name :
  contains "=" lang = false →
  parse_partition_from_path (hive_path root lang year month name)
  = Ok (lang, year, month)
  ∧ ∀ kp, kp ∈ outputs_for lang year month root →
          parse_partition_from_path kp.2 = Ok (lang, year, month).
Proof.
  intros Hl. split; [by apply hive_path_parses|].
  intros [k p] Hkp. rewrite outputs_for_paths in Hkp.
  apply list_elem_of_fmap in Hkp as (n & E & _). injection E as -> ->.
  cbn [snd]. unfold out_path. by apply hive_path_parses.
Qed.

Lemma partition_path_round_trip_witness :
  parse_partition_from_path (hive_path ["silver"] "en" 2024 1 "data.parquet")
  = Ok ("en", 2024, 1)
  ∧ ∀ kp, kp ∈ outputs_for "en" 2024 1 ["silver"] →
          parse_partition_from_path kp.2 = Ok ("en", 2024, 1).
Proof. apply (partition_path_round_trip ["silver"] "en" 2024 1 "data.parquet"). reflexivity. Defined.

(** X2. Distinct (artifact, language, year, month) never share an output
    file; no output file is a dictionary file or the temporary file of any
    write; and distinct languages have distinct dictionary files. *)
Theorem output_paths_distinct gold_root n1 l1 y1 m1 n2 l2 y2 m2 :
  (out_path gold_root n1 l1 y1 m1 = out_path gold_root n2 l2 y2 m2
   ↔ (n1, l1, y1, m1) = (n2, l2, y2, m2))
  ∧ out_path gold_root n1 l1 y1 m1 ≠ dim_path_for l2 gold_root
  ∧ out_path gold_root n1 l1 y1 m1
    ≠ PathLib.with_suffix_tmp (out_path gold_root n2 l2 y2 m2)
  ∧ out_path gold_root n1 l1 y1 m1 ≠ PathLib.with_suffix_tmp (dim_path_for l2 gold_root)
  ∧ dim_path_for l1 gold_root ≠ PathLib.with_suffix_tmp (dim_path_for l2 gold_root)
  ∧ (dim_path_for l1 gold_root = dim_path_for l2 gold_root ↔ l1 = l2).
Proof.
  split; [|split; [|split; [|split; [|split]]]]; try path_ne.
  - split; [|by intros [= -> -> -> ->]].
    rewrite !out_path_parts. intros H%app_inv_head.
    injection H as -> Hl Hy Hm. rewrite !string_app_nil_l in Hl, Hy, Hm.
    subst l2. apply str_inj in Hy as ->. by apply fmt_0d_inj in Hm as ->.
  - split; [|by intros ->]. rewrite !dim_path_parts. intros H%app_inv_head.
    injection H as Hl. by rewrite !string_app_nil_l in Hl.
Qed.

(** X3. [parse_partition_from_path] raises [IndexError] exactly when one of
    the last three directory names above the file has no [=]. *)
Theorem parse_index_error f :
  parse_partition_from_path f = Raise IndexError
  ↔ ∃ kv, kv ∈ PathLib.last3 (PathLib.parent f) ∧ contains "=" kv = false.
Proof.
  unfold parse_partition_from_path.
  destruct (parse_dirs_index_error (PathLib.last3 (PathLib.parent f)) ∅)
    as [(d & -> & Hall)|(-> & Hex)].
  - split.
    + cbn [mbind result_bind]. intros H. exfalso.
      destruct (d !! "lang"); [|done]. cbn in H.
      destruct (d !! "year") as [y|]; [|done]. cbn in H.
      destruct (Py.int y); [|done]. cbn in H.
      destruct (d !! "month") as [m|]; [|done]. cbn in H.
      by destruct (Py.int m).
    + intros (kv & Hkv & E). by rewrite (Hall kv Hkv) in E.
  - done.
Qed.

(** ** What a partition changes on disk *)

(** The two ways a partition ends as far as the file system goes: nothing
    changed, or dictionary and artifacts published. *)
Lemma run_one_partition_fs f gold_root topn topm min_edges min_ref
    write_edges write_ref skip_existing w lang year month :
  parse_partition_from_path f = Ok (lang, year, month) →
  let r := run_one_partition f gold_root topn topm min_edges min_ref
                             write_edges write_ref skip_existing w in
  (r.1 ≠ Ok processed ∧ fs r.2 = fs w
   ∧ ∃ evs, log r.2 = log w ++ evs ∧ Forall (λ e, written e = None) evs
            ∧ (∀ e, r.1 = Raise e → evs = []))
  ∨ (r.1 = Ok processed
     ∧ ∃ s dim dn,
         merge_inputs (fs w) (lang, year, month) f (dim_path_for lang gold_root) = Ok (s, dim, dn)
         ∧ fs r.2 = outputs_fs gold_root lang year month topn topm min_edges min_ref
                               write_edges write_ref (q_s_ids s (dim ++ dn))
                               (publish (dim_path_for lang gold_root)
                                        (TDim (dim ++ dn)) (fs w))).
Proof.
  intros Hp r. subst r.
  pose proof (run_one_partition_spec f gold_root topn topm min_edges min_ref
                write_edges write_ref skip_existing w lang year month Hp) as Hspec.
  cbv zeta in Hspec.
  destruct (skip_existing && bool_decide (_ = [])).
  { left. rewrite Hspec. cbn [fst snd fs log]. split; [done|]. split; [done|].
    eexists. split; [done|]. split; [by repeat constructor|]. done. }
  destruct (merge_inputs _ _ _ _) as [[[s dim] dn]|e].
  - destruct Hspec as (w1 & -> & Hfs & _). right. split; [done|].
    by exists s, dim, dn.
  - destruct Hspec as (w1 & -> & Hfs & Hlog). left. cbn [fst snd].
    split; [done|]. split; [done|]. exists []. rewrite app_nil_r. by repeat split.
Qed.

Lemma outputs_fs_lookup_ne gold_root lang year month topn topm min_edges min_ref
    write_edges write_ref ids m p :
  (∀ name, name ∈ enabled_outputs write_edges write_ref →
           p ≠ out_path gold_root name lang year month
           ∧ p ≠ PathLib.with_suffix_tmp (out_path gold_root name lang year month)) →
  outputs_fs gold_root lang year month topn topm min_edges min_ref
             write_edges write_ref ids m !! p = m !! p.
Proof.
  intros H. unfold outputs_fs.
  assert (∀ name t m', name ∈ enabled_outputs write_edges write_ref →
            publish (out_path gold_root name lang year month) t m' !! p = m' !! p) as Hpub.
  { intros name t m' Hn. destruct (H name Hn). by apply publish_lookup_ne. }
  destruct write_edges, write_ref; unfold enabled_outputs in Hpub;
    rewrite ?Hpub; try done; cbn [app];
    solve [repeat first [apply list_elem_of_here | apply list_elem_of_further]].
Qed.

(** X4. One atomic write, to a path that has a file name: it succeeds, the
    target holds the result of the query as a Parquet file stores it (a sum
    as a double), the temporary file is gone (a
    stale one included), every other file and the connection are as they
    were; the target is only unlinked once the temporary file is written,
    and the rename is the last file operation. *)
Theorem atomic_write_effect query out_file label w :
  out_file ≠ [] →
  let r := atomic_copy_query_to_parquet query out_file label w in
  let tmp := PathLib.with_suffix_tmp out_file in
  r.1 = Ok tt
  ∧ fs r.2 !! out_file = Some (Parquet (parquet_of (query (con w))))
  ∧ fs r.2 !! tmp = None
  ∧ (∀ p, p ≠ out_file → p ≠ tmp → fs r.2 !! p = fs w !! p)
  ∧ con r.2 = con w
  ∧ ∃ before, log r.2 = log w ++ before ++ [CopyTo tmp]
                          ++ (if bool_decide (is_Some (fs w !! out_file))
                              then [Unlink out_file] else [])
                          ++ [Rename tmp out_file; Print (MsgWrite label out_file)]
              ∧ Forall (λ e, written e ≠ Some out_file) before.
Proof.
  intros Hne r tmp. subst r. rewrite (atomic_copy_spec _ _ _ _ Hne).
  cbn [fst snd fs con log]. fold tmp.
  pose proof (with_suffix_tmp_ne _ Hne) as Htmp. fold tmp in Htmp.
  split; [done|]. split; [apply lookup_insert_eq|].
  split; [by rewrite lookup_insert_ne, lookup_delete_eq|].
  split; [by intros p ??; rewrite lookup_insert_ne, lookup_delete_ne|].
  split; [done|].
  unfold atomic_copy_events. fold tmp. eexists. split; [reflexivity|].
  case_bool_decide; repeat constructor. cbn [written]. congruence.
Qed.

Lemma atomic_write_effect_witness :
  let r := atomic_copy_query_to_parquet (λ c, TDim (t_dim c))
             ["gold"; "dict.parquet"] "article_dim[en]"
             (World {[ ["gold"; "dict.parquet.tmp"] := Raw 7 ]} connect []) in
  r.1 = Ok tt
  ∧ fs r.2 !! ["gold"; "dict.parquet"] = Some (Parquet (TDim []))
  ∧ fs r.2 !! ["gold"; "dict.parquet.tmp"] = None.
Proof.
  pose proof (atomic_write_effect (λ c, TDim (t_dim c)) ["gold"; "dict.parquet"]
                "article_dim[en]"
                (World {[ ["gold"; "dict.parquet.tmp"] := Raw 7 ]} connect [])
                ltac:(discriminate))
    as (H1 & H2 & H3 & _).
  by repeat split.
Defined.

(** X5. Whatever [run_one_partition] raises, it raises before its first
    file operation: the file system and the log are as they were. *)
Theorem partition_error_before_any_write f gold_root topn topm min_edges min_ref
    write_edges write_ref skip_existing w e :
  let r := run_one_partition f gold_root topn topm min_edges min_ref
                             write_edges write_ref skip_existing w in
  r.1 = Raise e → fs r.2 = fs w ∧ log r.2 = log w.
Proof.
  intros r Hr. subst r.
  destruct (parse_partition_from_path f) as [[[lang year] month]|e'] eqn:Hp.
  - destruct (run_one_partition_fs f gold_root topn topm min_edges min_ref write_edges
                write_ref skip_existing w lang year month Hp)
      as [(_ & Hfs & evs & Hlog & _ & Hnil)|(Hok & _)]; [|congruence].
    split; [done|]. rewrite Hlog, (Hnil e Hr). apply app_nil_r.
  - by rewrite (run_one_partition_parse_raise _ _ _ _ _ _ _ _ _ _ _ Hp).
Qed.

Lemma partition_error_before_any_write_witness :
  let w := World {[ scenario_file := Raw 12 ]} connect [] in
  let r := run_one_partition scenario_file ["gold"] 2 50 1 1 true true true w in
  r.1 = Raise IOException ∧ fs r.2 = fs w ∧ log r.2 = log w.
Proof.
  intros w r. assert (r.1 = Raise IOException) as H by (vm_compute; reflexivity).
  split; [exact H|].
  exact (partition_error_before_any_write scenario_file ["gold"] 2 50 1 1 true true true
           w IOException H).
Defined.

(** X6. A partition changes no file but the dictionary of its language, the
    artifacts of its own (language, year, month) whose switch is on, and
    their temporary files. *)
Theorem partition_touches_own_files f gold_root topn topm min_edges min_ref
    write_edges write_ref skip_existing w lang year month p :
  parse_partition_from_path f = Ok (lang, year, month) →
  p ≠ dim_path_for lang gold_root →
  p ≠ PathLib.with_suffix_tmp (dim_path_for lang gold_root) →
  (∀ name, name ∈ enabled_outputs write_edges write_ref →
           p ≠ out_path gold_root name lang year month
           ∧ p ≠ PathLib.with_suffix_tmp (out_path gold_root name lang year month)) →
  fs (run_one_partition f gold_root topn topm min_edges min_ref
                        write_edges write_ref skip_existing w).2 !! p
  = fs w !! p.
Proof.
  intros Hp Hd Hdt Houts.
  destruct (run_one_partition_fs f gold_root topn topm min_edges min_ref write_edges
              write_ref skip_existing w lang year month Hp)
    as [(_ & -> & _)|(_ & s & dim & dn & _ & ->)]; [done|].
  rewrite outputs_fs_lookup_ne by done. by apply publish_lookup_ne.
Qed.

Lemma partition_touches_own_files_witness :
  fs (run_one_partition scenario_file ["gold"] 2 50 1 1 true true true scenario_world).2
    !! scenario_file
  = fs scenario_world !! scenario_file.
Proof.
  apply (partition_touches_own_files scenario_file ["gold"] 2 50 1 1 true true true
           scenario_world "en" 2024 1 scenario_file).
  - reflexivity.
  - vm_compute. discriminate.
  - vm_compute. discriminate.
  - intros name _. rewrite out_path_tmp_parts, out_path_parts. split; discriminate.
Defined.

Lemma publish_lookup_tmp out_file t m :
  out_file ≠ [] → publish out_file t m !! PathLib.with_suffix_tmp out_file = None.
Proof.
  intros Hne. unfold publish.
  rewrite lookup_insert_ne by (by apply not_eq_sym, with_suffix_tmp_ne).
  apply lookup_delete_eq.
Qed.

Lemma enabled_outputs_cases write_edges write_ref name :
  name ∈ enabled_outputs write_edges write_ref
  ↔ name = "article_popularity" ∨ name = "article_top"
    ∨ (write_ref = true ∧ name = "referrers_top")
    ∨ (write_edges = true ∧ name = "edges_monthly").
Proof.
  unfold enabled_outputs.
  destruct write_edges, write_ref; cbn [app];
    rewrite ?elem_of_cons, ?elem_of_nil; intuition congruence.
Qed.

(** After the artifacts are written, each enabled one is a Parquet file and
    its temporary file is gone. *)
Lemma outputs_fs_enabled gold_root lang year month topn topm min_edges min_ref
    write_edges write_ref ids m name :
  name ∈ enabled_outputs write_edges write_ref →
  let m' := outputs_fs gold_root lang year month topn topm min_edges min_ref
                       write_edges write_ref ids m in
  (∃ t, m' !! out_path gold_root name lang year month = Some (Parquet t))
  ∧ m' !! PathLib.with_suffix_tmp (out_path gold_root name lang year month) = None.
Proof.
  intros Hn m'. subst m'. unfold outputs_fs.
  apply enabled_outputs_cases in Hn as [->|[->|[[-> ->]|[-> ->]]]].
  - split.
    + eexists. destruct write_edges, write_ref;
        rewrite ?publish_lookup_ne by path_ne; apply publish_lookup_eq.
    + destruct write_edges, write_ref;
        rewrite ?publish_lookup_ne by path_ne;
        apply publish_lookup_tmp, out_path_ne_nil.
  - split.
    + eexists. destruct write_edges, write_ref;
        rewrite ?publish_lookup_ne by path_ne; apply publish_lookup_eq.
    + destruct write_edges, write_ref;
        rewrite ?publish_lookup_ne by path_ne;
        apply publish_lookup_tmp, out_path_ne_nil.
  - split.
    + eexists. destruct write_edges;
        rewrite ?publish_lookup_ne by path_ne; apply publish_lookup_eq.
    + destruct write_edges;
        rewrite ?publish_lookup_ne by path_ne;
        apply publish_lookup_tmp, out_path_ne_nil.
  - split.
    + eexists. apply publish_lookup_eq.
    + apply publish_lookup_tmp, out_path_ne_nil.
Qed.

(** X7. With its switch off, an artifact of the partition is neither
    created nor changed, and neither is its temporary file. *)
Theorem disabled_artifacts_untouched f gold_root topn topm min_edges min_ref
    write_edges write_ref skip_existing w lang year month :
  parse_partition_from_path f = Ok (lang, year, month) →
  let m' := fs (run_one_partition f gold_root topn topm min_edges min_ref
                                  write_edges write_ref skip_existing w).2 in
  let edges := out_path gold_root "edges_monthly" lang year month in
  let ref := out_path gold_root "referrers_top" lang year month in
  (write_edges = false →
   m' !! edges = fs w !! edges
   ∧ m' !! PathLib.with_suffix_tmp edges = fs w !! PathLib.with_suffix_tmp edges)
  ∧ (write_ref = false →
     m' !! ref = fs w !! ref
     ∧ m' !! PathLib.with_suffix_tmp ref = fs w !! PathLib.with_suffix_tmp ref).
Proof.
  intros Hp m' edges ref. subst m' edges ref.
  destruct (run_one_partition_fs f gold_root topn topm min_edges min_ref write_edges
              write_ref skip_existing w lang year month Hp)
    as [(_ & -> & _)|(_ & s & dim & dn & _ & ->)]; [done|].
  unfold outputs_fs. split; intros ->.
  - destruct write_ref; split; rewrite ?publish_lookup_ne; try done; path_ne.
  - destruct write_edges; split; rewrite ?publish_lookup_ne; try done; path_ne.
Qed.

Lemma disabled_artifacts_untouched_witness :
  let m' := fs (run_one_partition scenario_file ["gold"] 2 50 1 1 false false true
                                  scenario_world).2 in
  m' !! out_path ["gold"] "edges_monthly" "en" 2024 1 = None
  ∧ m' !! out_path ["gold"] "referrers_top" "en" 2024 1 = None
  ∧ m' !! out_path ["gold"] "article_top" "en" 2024 1
    = Some (Parquet (TTop [TopRow (PopRow "en" 2024 1 2 100) 1;
                           TopRow (PopRow "en" 2024 1 1 80) 2])).
Proof.
  pose proof (disabled_artifacts_untouched scenario_file ["gold"] 2 50 1 1 false false
                true scenario_world "en" 2024 1 eq_refl) as [He Hr].
  split; [exact (proj1 (He eq_refl))|].
  split; [exact (proj1 (Hr eq_refl))|]. vm_compute. reflexivity.
Defined.

(** X8. A processed partition leaves the dictionary of its language and
    every enabled artifact as Parquet files, and none of their temporary
    files, whatever was there before. *)
Theorem processed_partition_complete f gold_root topn topm min_edges min_ref
    write_edges write_ref skip_existing w lang year month :
  parse_partition_from_path f = Ok (lang, year, month) →
  let r := run_one_partition f gold_root topn topm min_edges min_ref
                             write_edges write_ref skip_existing w in
  r.1 = Ok processed →
  (∃ dict, fs r.2 !! dim_path_for lang gold_root = Some (Parquet (TDim dict)))
  ∧ fs r.2 !! PathLib.with_suffix_tmp (dim_path_for lang gold_root) = None
  ∧ ∀ name, name ∈ enabled_outputs write_edges write_ref →
      (∃ t, fs r.2 !! out_path gold_root name lang year month = Some (Parquet t))
      ∧ fs r.2 !! PathLib.with_suffix_tmp (out_path gold_root name lang year month) = None.
Proof.
  intros Hp r Hr. subst r.
  destruct (run_one_partition_fs f gold_root topn topm min_edges min_ref write_edges
              write_ref skip_existing w lang year month Hp)
    as [(Hne & _)|(_ & s & dim & dn & _ & ->)]; [done|].
  split; [|split].
  - exists (dim ++ dn). rewrite outputs_fs_dim_path. apply publish_lookup_eq.
  - rewrite outputs_fs_lookup_ne by (intros name _; split; path_ne).
    apply publish_lookup_tmp, dim_path_ne_nil.
  - intros name Hn. by apply outputs_fs_enabled.
Qed.

Lemma processed_partition_complete_witness :
  let w := World (<[ PathLib.with_suffix_tmp (out_path ["gold"] "article_top" "en" 2024 1)
                     := Raw 3 ]> (fs scenario_world)) connect [] in
  let r := run_one_partition scenario_file ["gold"] 2 50 1 1 true true true w in
  fs r.2 !! PathLib.with_suffix_tmp (dim_path_for "en" ["gold"]) = None
  ∧ ∀ name, name ∈ enabled_outputs true true →
      (∃ t, fs r.2 !! out_path ["gold"] name "en" 2024 1 = Some (Parquet t))
      ∧ fs r.2 !! PathLib.with_suffix_tmp (out_path ["gold"] name "en" 2024 1) = None.
Proof.
  intros w r.
  refine (proj2 (processed_partition_complete scenario_file ["gold"] 2 50 1 1 true true
                   true w "en" 2024 1 eq_refl _)).
  vm_compute. reflexivity.
Defined.

(** ** The dictionary on disk and in the connection *)

Lemma publish_idemp out_file t m :
  out_file ≠ [] → publish out_file t (publish out_file t m) = publish out_file t m.
Proof.
  intros Hne. pose proof (with_suffix_tmp_ne _ Hne) as Htmp.
  apply map_eq. intros i. unfold publish.
  destruct (decide (i = out_file)) as [->|]; [by rewrite !lookup_insert_eq|].
  rewrite !lookup_insert_ne by done.
  destruct (decide (i = PathLib.with_suffix_tmp out_file)) as [->|];
    [by rewrite !lookup_delete_eq|].
  rewrite !lookup_delete_ne by done. rewrite lookup_insert_ne by done.
  by rewrite lookup_delete_ne.
Qed.

Lemma titles_to_add_covered s dict : covers dict s → titles_to_add s dict = [].
Proof.
  intros Hc. apply elem_of_nil_inv. intros t [Hin Hnot]%titles_to_add_elem.
  by apply Hnot, Hc.
Qed.

(** X9. Once [update_dim_with_partition] has persisted the dictionary,
    loading the file again gives the very tables of the connection, and
    merging the same partition again adds no row and leaves the file as it
    is. *)
Theorem dictionary_reload_and_remerge lang gold_root w w' :
  let dim_file := dim_path_for lang gold_root in
  t_dim_idx (con w) = t_dim (con w) →
  Forall (λ d, Sql.in_bigint (d_id d) = true) (t_dim (con w)) →
  update_dim_with_partition lang dim_file w = (Ok tt, w') →
  load_or_init_dim lang dim_file w' = (Ok tt, w')
  ∧ ∃ w'', update_dim_with_partition lang dim_file w' = (Ok tt, w'')
           ∧ t_dim (con w'') = t_dim (con w')
           ∧ t_dim_idx (con w'') = t_dim (con w')
           ∧ fs w'' = fs w'.
Proof.
  intros dim_file Hidx Hrange Hrun.
  pose proof (update_dim_with_partition_spec lang dim_file w (dim_path_ne_nil _ _)) as Hup.
  cbv zeta in Hup. rewrite Hidx in Hup.
  destruct (q_dim_new _ _) as [dn|e] eqn:Hnew; destruct Hup as (w1 & Hrun1 & Hup);
    rewrite Hrun in Hrun1; [|done]. injection Hrun1 as <-.
  destruct Hup as (Hfs & _ & Hs & Hdim & Hidx').
  pose proof (q_dim_new_inv _ _ _ Hnew) as (_ & _ & Hrange').
  split.
  - assert (dict_loaded (fs w') dim_file = Ok (t_dim (con w'))) as Hload.
    { unfold dict_loaded. rewrite Hfs, publish_lookup_eq, Hdim.
      assert (forallb (λ d, Sql.in_bigint (d_id d)) (t_dim (con w) ++ dn) = true) as ->; [|done].
      apply forallb_forall. intros d Hd%list_elem_of_In.
      revert d Hd. apply Forall_forall. apply Forall_app. by split. }
    rewrite load_or_init_dim_spec, Hload.
    rewrite <- Hdim in Hidx'. clear -Hidx'.
    destruct w' as [m' c' l']. destruct c'. cbn in *. by subst.
  - pose proof (update_dim_with_partition_spec lang dim_file w' (dim_path_ne_nil _ _))
      as Hup.
    cbv zeta in Hup. rewrite Hidx', Hs, Hdim in Hup.
    rewrite (titles_to_add_covered (t_s (con w)) (t_dim (con w) ++ dn)) in Hup
      by (by eapply merged_dict_covers).
    assert (q_dim_new (q_base (t_dim (con w) ++ dn)) [] = Ok []) as Hnil by reflexivity.
    rewrite Hnil in Hup. destruct Hup as (w'' & Hrun' & Hfs' & _ & _ & Hdim' & Hidx'').
    exists w''. rewrite app_nil_r in Hfs', Hdim', Hidx''.
    split; [done|]. rewrite Hdim. split; [done|]. split; [done|].
    rewrite Hfs', Hfs. apply publish_idemp, dim_path_ne_nil.
Qed.

Lemma dictionary_reload_and_remerge_witness :
  let w := World ∅ (set_s scenario_s connect) [] in
  let w' := (update_dim_with_partition "en" (dim_path_for "en" ["gold"]) w).2 in
  load_or_init_dim "en" (dim_path_for "en" ["gold"]) w' = (Ok tt, w')
  ∧ ∃ w'', update_dim_with_partition "en" (dim_path_for "en" ["gold"]) w' = (Ok tt, w'')
           ∧ t_dim (con w'') = t_dim (con w')
           ∧ t_dim_idx (con w'') = t_dim (con w')
           ∧ fs w'' = fs w'.
Proof.
  intros w w'.
  apply (dictionary_reload_and_remerge "en" ["gold"] w w').
  - reflexivity.
  - constructor.
  - vm_compute. reflexivity.
Defined.

(** ** Transitions: [edges_monthly] and [referrers_top] *)

Lemma sum_positive (l : list Z) : l ≠ [] → (∀ x, x ∈ l → 0 < x) → 1 ≤ Sql.sum l.
Proof.
  destruct l as [|x l]; [done|]. intros _ H.
  assert (0 ≤ Sql.sum l) as Hl.
  { induction l as [|y l IH]; [done|].
    change (Sql.sum (y :: l)) with (y + Sql.sum l).
    assert (0 < y) by (apply H; right; left).
    assert (0 ≤ Sql.sum l); [|lia].
    apply IH. intros z [->|Hz]%elem_of_cons; apply H; [left|right; by right]. }
  change (Sql.sum (x :: l)) with (x + Sql.sum l).
  assert (0 < x) by (apply H; left). lia.
Qed.

(** The rows of a group of the aggregate, read on [s_ids]. *)
Lemma agg_prev_group (ids : list ids_row) g :
  (λ x : ids_row * Z, i_n x.1)
    <$> filter (λ x : ids_row * Z,
                  (i_lang x.1, i_year x.1, i_month x.1, x.2, i_curr_id x.1) = g)
               (omap (λ r, p ← i_prev_id r; Some (r, p)) ids)
  = i_n <$> transitions_of ids g.
Proof.
  unfold transitions_of. destruct g as [[[[l y] m] p] c]. cbn [fst snd].
  induction ids as [|r ids IH]; [done|]. cbn [omap list_omap].
  destruct (i_prev_id r) as [p'|] eqn:Ep; cbn [mbind option_bind].
  - rewrite !filter_cons. cbn [fst snd].
    destruct (decide (_ = (l, y, m, p, c))) as [E|E].
    + injection E as ? ? ? ? ?. subst l y m p' c. rewrite decide_True by done.
      cbn [fmap list_fmap]. by rewrite <- IH.
    + rewrite decide_False; [exact IH|].
      intros ([= <- <- <-] & Hprev & <-). rewrite Ep in Hprev.
      injection Hprev as <-. by apply E.
  - rewrite filter_cons, decide_False; [exact IH|].
    intros (_ & Hprev & _). by rewrite Ep in Hprev.
Qed.

Lemma agg_prev_rows (ids : list ids_row) :
  (λ x : ids_row * Z, i_n x.1) <$> omap (λ r, p ← i_prev_id r; Some (r, p)) ids
  = i_n <$> filter (λ r, is_Some (i_prev_id r)) ids.
Proof.
  induction ids as [|r ids IH]; [done|]. cbn [omap list_omap]. rewrite filter_cons.
  destruct (i_prev_id r) as [p|]; cbn [mbind option_bind].
  - rewrite decide_True by eauto. cbn [fmap list_fmap]. by rewrite <- IH.
  - rewrite decide_False by (by intros [? ?]). exact IH.
Qed.

Lemma q_agg_prev_elem ids e :
  e ∈ q_agg_prev ids →
  e_total_transitions e = Sql.sum (i_n <$> transitions_of ids (edge_group e))
  ∧ transitions_of ids (edge_group e) ≠ [].
Proof.
  unfold q_agg_prev. intros ([[[[[l y] m] p] c] t] & -> & Hg)%list_elem_of_fmap.
  apply group_sum_elem in Hg as [-> Hk]. unfold group_total, edge_group. cbn.
  rewrite agg_prev_group. split; [done|].
  apply list_elem_of_fmap in Hk as ([r p'] & Hkey & Hin).
  intros Hnil.
  assert (length ((λ x : ids_row * Z, i_n x.1)
            <$> filter (λ x : ids_row * Z,
                          (i_lang x.1, i_year x.1, i_month x.1, x.2, i_curr_id x.1)
                          = (l, y, m, p, c))
                  (omap (λ r, p ← i_prev_id r; Some (r, p)) ids)) = 0%nat) as Hlen.
  { by rewrite agg_prev_group, Hnil. }
  rewrite length_fmap in Hlen. apply nil_length_inv in Hlen.
  assert ((r, p') ∈ filter (λ x : ids_row * Z,
                          (i_lang x.1, i_year x.1, i_month x.1, x.2, i_curr_id x.1)
                          = (l, y, m, p, c))
                  (omap (λ r, p ← i_prev_id r; Some (r, p)) ids)) as Hmem.
  { apply list_elem_of_filter. by split. }
  rewrite Hlen in Hmem. by apply elem_of_nil in Hmem.
Qed.

Lemma q_agg_prev_groups ids : NoDup (edge_group <$> q_agg_prev ids).
Proof.
  unfold q_agg_prev. rewrite <- list_fmap_compose.
  pose proof (proj1 (group_sum_keys
                       (λ x : ids_row * Z,
                          (i_lang x.1, i_year x.1, i_month x.1, x.2, i_curr_id x.1))
                       (λ x, i_n x.1)
                       (omap (λ r, p ← i_prev_id r; Some (r, p)) ids))) as H.
  erewrite list_fmap_ext; [exact H|]. by intros ? [[[[[l y] m] p] c] t] _.
Qed.

Lemma q_agg_prev_total ids :
  Sql.sum (e_total_transitions <$> q_agg_prev ids)
  = Sql.sum (i_n <$> filter (λ r, is_Some (i_prev_id r)) ids).
Proof.
  unfold q_agg_prev. rewrite <- list_fmap_compose, <- agg_prev_rows.
  etrans; [|apply (group_sum_total
                     (λ x : ids_row * Z,
                        (i_lang x.1, i_year x.1, i_month x.1, x.2, i_curr_id x.1)))].
  f_equal. apply list_fmap_ext. by intros ? [[[[[l y] m] p] c] t] _.
Qed.

(** X10. [edges_monthly] holds one row per (lang, year, month, prev_id,
    curr_id); the total of a row is the sum of [n] over the rows of [s_ids]
    that go from that prev_id to that curr_id, and is at least the
    threshold; rows without prev_id count nowhere.  With a threshold of at
    most 1 and positive counts nothing is dropped: the totals add up to
    the counts of all rows that have a prev_id. *)
Theorem edges_aggregate_transitions min_edges ids :
  let edges := q_edges min_edges ids in
  NoDup (edge_group <$> edges)
  ∧ (∀ e, e ∈ edges →
       min_edges ≤ e_total_transitions e
       ∧ transitions_of ids (edge_group e) ≠ []
       ∧ e_total_transitions e = Sql.sum (i_n <$> transitions_of ids (edge_group e)))
  ∧ (min_edges ≤ 1 → (∀ r, r ∈ ids → 0 < i_n r) →
     Sql.sum (e_total_transitions <$> edges)
     = Sql.sum (i_n <$> filter (λ r, is_Some (i_prev_id r)) ids)).
Proof.
  intros edges. subst edges. unfold q_edges. split; [|split].
  - apply (sublist_NoDup _ (edge_group <$> q_agg_prev ids));
      [apply q_agg_prev_groups|apply fmap_sublist, sublist_filter].
  - intros e [Hmin He]%list_elem_of_filter.
    destruct (q_agg_prev_elem ids e He) as [Ht Hne]. by repeat split.
  - intros Hmin Hpos. rewrite filter_all; [apply q_agg_prev_total|].
    intros e He. destruct (q_agg_prev_elem ids e He) as [-> Hne].
    assert (1 ≤ Sql.sum (i_n <$> transitions_of ids (edge_group e))); [|lia].
    apply sum_positive.
    + intros H. by apply fmap_nil_inv in H.
    + intros x (r & -> & Hr)%list_elem_of_fmap. apply Hpos.
      unfold transitions_of in Hr. by apply list_elem_of_filter in Hr as [_ ?].
Qed.

Lemma edges_aggregate_transitions_witness :
  Sql.sum (e_total_transitions <$> q_edges 1 scenario_ids)
  = Sql.sum (i_n <$> filter (λ r, is_Some (i_prev_id r)) scenario_ids).
Proof.
  apply (edges_aggregate_transitions 1 scenario_ids); [lia|].
  intros r Hr. unfold scenario_ids in Hr.
  repeat (apply elem_of_cons in Hr as [->|Hr]; [reflexivity|]).
  by apply elem_of_nil in Hr.
Defined.

Example scenario_ids_resolved :
  q_s_ids scenario_s [DimRow 1 "London"; DimRow 2 "Paris"] = scenario_ids.
Proof. reflexivity. Qed.

Lemma row_number_desc_elem {A K} `{EqDecision K} (part : A → K) (val : A → Z)
    limit (rows : list A) x :
  x ∈ Sql.row_number_desc part val limit rows → x.1 ∈ rows ∧ 1 ≤ x.2 ≤ limit.
Proof.
  unfold Sql.row_number_desc. intros [Hle Hx]%list_elem_of_filter.
  apply list_elem_of_In, in_concat in Hx as (block & Hblock & Hx).
  apply list_elem_of_In in Hblock, Hx.
  apply list_elem_of_fmap in Hblock as (k & -> & _).
  pose proof (number_from_bounds _ _ _ Hx) as Hb.
  apply (list_elem_of_fmap_2 fst) in Hx. rewrite number_from_fst in Hx.
  unfold Sql.order_by in Hx. rewrite (sorted_perm _) in Hx.
  apply list_elem_of_filter in Hx as [_ Hx]. split; [done|lia].
Qed.

(** X11. For each destination (lang, year, month, curr_id), [referrers_top]
    holds the first [topm] of its referrers that reach the threshold, in
    descending order of clicks and ranked 1, 2, ...: they come before all
    its other referrers in a descending arrangement [top ++ rest].  Every
    row of [referrers_top] is a row [edges_monthly] would hold at the same
    threshold, with a rank between 1 and [topm]. *)
Theorem referrers_rank_per_destination min_ref topm ids k :
  let part := filter (λ e, ref_key e = k) (q_edges min_ref ids) in
  let top := filter (λ r, ref_key (f_agg r) = k) (q_ref min_ref topm ids) in
  (∃ rest,
     (f_agg <$> top) ++ rest ≡ₚ part
     ∧ length top = Nat.min (Z.to_nat topm) (length part)
     ∧ f_rn <$> top = seqZ 1 (Z.of_nat (length top))
     ∧ StronglySorted transitions_ge ((f_agg <$> top) ++ rest))
  ∧ ∀ r, r ∈ q_ref min_ref topm ids →
         f_agg r ∈ q_edges min_ref ids ∧ 1 ≤ f_rn r ≤ topm.
Proof.
  intros part top. split.
  - set (sorted := Py.sorted (Sql.desc e_total_transitions) part).
    assert (top = (λ x, RefRow x.1 x.2)
                    <$> Sql.number_from 1 (take (Z.to_nat topm) sorted)) as Htop.
    { subst top. unfold q_ref. rewrite filter_fmap. f_equal.
      apply (row_number_desc_partition ref_key e_total_transitions). }
    assert (f_agg <$> top = take (Z.to_nat topm) sorted) as Hagg.
    { rewrite Htop, <- list_fmap_compose. apply (number_from_fst 1). }
    assert (length top = length (take (Z.to_nat topm) sorted)) as Hlen.
    { by rewrite <- Hagg, length_fmap. }
    exists (drop (Z.to_nat topm) sorted). rewrite Hagg, take_drop.
    split; [apply (sorted_perm (Sql.desc e_total_transitions))|].
    split.
    { rewrite Hlen, length_take. subst sorted.
      by rewrite (Permutation_length (sorted_perm _ part)). }
    split.
    { rewrite Hlen, Htop, <- list_fmap_compose. apply (number_from_snd 1). }
    apply (sorted_desc_StronglySorted e_total_transitions).
  - intros r Hr. unfold q_ref in Hr.
    apply list_elem_of_fmap in Hr as ([e n] & -> & Hr). cbn [f_agg f_rn].
    by apply row_number_desc_elem in Hr.
Qed.

(** ** The language as a whole *)

Lemma mapM_first_raise {A B} (g : A → result B) good f rest e :
  (∀ x, x ∈ good → ∃ y, g x = Ok y) → g f = Raise e →
  mapM g (good ++ f :: rest) = Raise e.
Proof.
  intros Hgood Hf. induction good as [|x good IH]; cbn [app mapM].
  - by rewrite Hf.
  - destruct (Hgood x) as [y ->]; [left|]. cbn [mbind result_bind].
    rewrite IH; [done|]. intros x' Hx'. apply Hgood. by right.
Qed.

(** X12. The sort keys of [process_lang] are computed before its loop, out
    of reach of the [try] of the loop: if the path of one file does not
    parse, the call raises the error of the first such file, and no
    partition of the language is processed, not even those listed before
    it.  The connection is closed all the same. *)
Theorem unparsable_path_fails_language lang good f rest gold_dir topn topm
    min_edges min_ref write_edges write_ref skip_existing w e :
  Forall parses good →
  parse_partition_from_path f = Raise e →
  process_lang lang (good ++ f :: rest) gold_dir topn topm min_edges min_ref
               write_edges write_ref skip_existing w
  = (Raise e, World (fs w) connect (log w)).
Proof.
  intros Hgood Hf.
  assert (mapM (λ f, p ← parse_partition_from_path f; Ok (f, (p.1.2, p.2)))
               (good ++ f :: rest) = Raise e) as Hkeys.
  { apply mapM_first_raise.
    - intros x Hx. rewrite Forall_forall in Hgood.
      destruct (Hgood x Hx) as [p ->]. by eexists.
    - by rewrite Hf. }
  unfold process_lang.
  erewrite bind_ok by reflexivity. unfold try_finally.
  erewrite bind_raise by (unfold lift; rewrite Hkeys; reflexivity).
  reflexivity.
Qed.

Lemma unparsable_path_fails_language_witness :
  process_lang "en" ([scenario_file] ++ ["silver"; "en"; "2024"; "01"; "data.parquet"] :: [])
               ["gold"] 2 50 1 1 true true true scenario_world
  = (Raise IndexError, World (fs scenario_world) connect (log scenario_world)).
Proof.
  apply unparsable_path_fails_language.
  - repeat constructor. eexists. vm_compute. reflexivity.
  - vm_compute. reflexivity.
Defined.

Lemma lang_order_unique files1 files2 :
  files1 ≡ₚ files2 → NoDup (ym_of <$> files1) → lang_order files1 = lang_order files2.
Proof.
  intros Hperm Hnd.
  assert (Transitive (λ a b : Path, Py.tuple_leb (ym_of a) (ym_of b) = true)) as Htrans.
  { intros a b c. rewrite !tuple_leb_spec. lia. }
  apply (Sorted_unique_strong
           (λ a b : Path, Py.tuple_leb (ym_of a) (ym_of b) = true)).
  - intros x1 x2 H1 H2 H12 H21.
    rewrite lang_order_perm in H1. rewrite lang_order_perm, <- Hperm in H2.
    apply (NoDup_fmap_elem_inj ym_of files1); [done..|].
    apply tuple_leb_spec in H12, H21. destruct (ym_of x1), (ym_of x2). cbn in *.
    f_equal; lia.
  - apply lang_order_sorted.
  - apply lang_order_sorted.
  - by rewrite !lang_order_perm.
Qed.

(** X13. When no two files of a language share their (year, month), the
    order in which the files are handed to [process_lang] is immaterial:
    any rearrangement of the list gives the same counts and the same log,
    and the same content at every path other than the two rankings. *)
Theorem process_lang_order_irrelevant lang files1 files2 gold_dir topn topm
    min_edges min_ref write_edges write_ref skip_existing w :
  files1 ≡ₚ files2 → Forall parses files1 → NoDup (ym_of <$> files1) →
  let r1 := process_lang lang files1 gold_dir topn topm min_edges min_ref
                         write_edges write_ref skip_existing w in
  let r2 := process_lang lang files2 gold_dir topn topm min_edges min_ref
                         write_edges write_ref skip_existing w in
  r1.1 = r2.1
  ∧ log r1.2 = log r2.2
  ∧ ∀ p, ¬ ranked_artifact gold_dir p → fs r1.2 !! p = fs r2.2 !! p.
Proof.
  intros Hperm Hparse Hnd r1 r2. subst r1 r2.
  assert (Forall parses files2) as Hparse2 by (by rewrite <- Hperm).
  rewrite !process_lang_unfold by done. cbv zeta.
  by rewrite (lang_order_unique files1 files2).
Qed.

Lemma process_lang_order_irrelevant_witness :
  let r1 := process_lang "en" scenario_files ["gold"] 2 50 1 1 true true true
                         scenario_world in
  let r2 := process_lang "en" (reverse scenario_files) ["gold"] 2 50 1 1 true true true
                         scenario_world in
  r1.1 = r2.1
  ∧ log r1.2 = log r2.2
  ∧ ∀ p, ¬ ranked_artifact ["gold"] p → fs r1.2 !! p = fs r2.2 !! p.
Proof.
  apply process_lang_order_irrelevant.
  - symmetry. apply reverse_Permutation.
  - apply scenario_files_parse.
  - vm_compute. repeat constructor; rewrite ?elem_of_cons, ?elem_of_nil; intuition congruence.
Defined.

Lemma run_one_partition_outside_gold f gold_root topn topm min_edges min_ref
    write_edges write_ref skip_existing w p :
  ¬ gold_root `prefix_of` p →
  fs (run_one_partition f gold_root topn topm min_edges min_ref
                        write_edges write_ref skip_existing w).2 !! p
  = fs w !! p.
Proof.
  intros Hp.
  assert (∀ tail, p ≠ gold_root ++ tail) as Hne.
  { intros tail ->. apply Hp. by exists tail. }
  destruct (parse_partition_from_path f) as [[[lang year] month]|e] eqn:Hparse.
  - destruct (run_one_partition_fs f gold_root topn topm min_edges min_ref write_edges
                write_ref skip_existing w lang year month Hparse)
      as [(_ & -> & _)|(_ & s & dim & dn & _ & ->)]; [done|].
    rewrite outputs_fs_lookup_ne.
    + apply publish_lookup_ne; rewrite ?dim_path_tmp_parts, ?dim_path_parts; apply Hne.
    + intros name _. rewrite out_path_tmp_parts, out_path_parts. split; apply Hne.
  - by rewrite (run_one_partition_parse_raise _ _ _ _ _ _ _ _ _ _ _ Hparse).
Qed.

(** X14. [process_lang] creates, changes and removes files under the GOLD
    directory only: every path that does not start with [gold_dir] holds
    after the call what it held before, however the call ends.  The SILVER
    files are read, never written. *)
Theorem process_lang_writes_under_gold lang files gold_dir topn topm
    min_edges min_ref write_edges write_ref skip_existing w p :
  ¬ gold_dir `prefix_of` p →
  fs (process_lang lang files gold_dir topn topm min_edges min_ref
                   write_edges write_ref skip_existing w).2 !! p
  = fs w !! p.
Proof.
  intros Hp.
  apply (process_lang_preserves (λ m, m !! p = fs w !! p)); [|done].
  intros f w1 H1. cbn beta. rewrite <- H1.
  by apply run_one_partition_outside_gold.
Qed.

Lemma process_lang_writes_under_gold_witness :
  fs (process_lang "en" scenario_files ["gold"] 2 50 1 1 true true true scenario_world).2
    !! scenario_file
  = Some (Parquet (TSilver scenario_rows)).
Proof.
  rewrite (process_lang_writes_under_gold "en" scenario_files ["gold"] 2 50 1 1
             true true true scenario_world scenario_file).
  - reflexivity.
  - intros [k Hk]. discriminate Hk.
Defined.

(** ** The partition locator *)

Lemma sorted_id {A} (le : A → A → bool) l :
  Sorted (λ a b, le a b = true) l → Py.sorted le l = l.
Proof.
  induction 1 as [|x l _ IH Hhd]; [done|]. cbn [Py.sorted]. rewrite IH.
  destruct Hhd as [|y l' Hxy]; [done|]. cbn [Py.insert]. by rewrite Hxy.
Qed.

(** X15. [pick_latest_month] is idempotent: applied to its own result it
    returns that result unchanged. *)
Theorem pick_latest_month_idempotent files :
  Forall parses files →
  ∃ res, pick_latest_month files = Ok res ∧ pick_latest_month res = Ok res.
Proof.
  intros Hparse. destruct (decide (files = [])) as [->|Hne]; [by exists []|].
  destruct (pick_latest_month_spec files Hparse Hne)
    as (res & mx & Hres & Hmx & _ & Hperm & Hsorted).
  exists res. split; [done|].
  assert (∀ f, f ∈ res → ym_of f = mx ∧ parses f) as Hall.
  { intros f Hf. rewrite Hperm in Hf. apply list_elem_of_filter in Hf as [? Hf].
    split; [done|]. rewrite Forall_forall in Hparse. by apply Hparse. }
  assert (res ≠ []) as Hne'.
  { intros ->. apply list_elem_of_fmap in Hmx as (f & -> & Hf).
    assert (f ∈ filter (λ f', ym_of f' = ym_of f) files) as Hin
      by (by apply list_elem_of_filter).
    rewrite <- Hperm in Hin. by apply elem_of_nil in Hin. }
  unfold pick_latest_month.
  destruct res as [|f0 res0] eqn:Er; [done|]. rewrite <- Er in *. clear Er f0 res0.
  rewrite mapM_keyed_ok by (apply Forall_forall; intros f Hf; by apply Hall).
  cbn [mbind result_bind]. rewrite <- list_fmap_compose.
  assert ((λ x : Path * (string * Z * Z), (x.2.1.2, x.2.2)) ∘ (λ f, (f, key_of f)) <$> res
          = ym_of <$> res) as ->.
  { apply list_fmap_ext. intros ? f _. apply key_of_ym. }
  destruct (py_max_spec (ym_of <$> res)) as (mx' & -> & Hin' & _).
  { by destruct res. }
  apply list_elem_of_fmap in Hin' as (f & -> & Hf).
  rewrite (proj1 (Hall f Hf)). f_equal.
  rewrite filter_all.
  - rewrite sorted_id; [by rewrite <- list_fmap_compose, list_fmap_id|].
    clear -Hsorted. induction Hsorted as [|x l _ IH Hhd]; [constructor|].
    cbn [fmap list_fmap]. constructor; [done|].
    destruct Hhd as [|y l' Hxy]; constructor. cbn [snd]. by rewrite !key_of_lang.
  - intros x (f' & -> & Hf')%list_elem_of_fmap. cbn [snd].
    rewrite key_of_ym. by apply Hall.
Qed.

Lemma pick_latest_month_idempotent_witness :
  ∃ res, pick_latest_month locator_files = Ok res ∧ pick_latest_month res = Ok res.
Proof. apply pick_latest_month_idempotent, locator_files_parse. Defined.

(** *** Grouping by language *)

Lemma by_lang_append_NoDup lang f d :
  NoDup d.*1 → NoDup (by_lang_append lang f d).*1.
Proof.
  induction d as [|[k l] d IH]; cbn [by_lang_append fmap list_fmap fst].
  - intros _. apply NoDup_singleton.
  - intros [Hk Hd]%NoDup_cons. destruct (String.eqb_spec k lang) as [->|Hne];
      cbn [fmap list_fmap fst]; apply NoDup_cons.
    + done.
    + split; [|by apply IH]. intros [?|?]%by_lang_append_keys; [done|by apply Hk].
Qed.

Lemma by_lang_append_elem lang f d l fs :
  NoDup d.*1 →
  (l, fs) ∈ by_lang_append lang f d
  ↔ (l ≠ lang ∧ (l, fs) ∈ d)
    ∨ (l = lang ∧ ((∃ fs0, (lang, fs0) ∈ d ∧ fs = fs0 ++ [f])
                   ∨ ((lang ∉ d.*1) ∧ fs = [f]))).
Proof.
  induction d as [|[k l0] d IH]; cbn [by_lang_append fmap list_fmap fst].
  - intros _. rewrite list_elem_of_singleton. split.
    + intros [= -> ->]. right. split; [done|]. right. split; [apply not_elem_of_nil|done].
    + intros [[_ H]|[-> [(fs0 & H & _)|[_ ->]]]]; [|  |done]; by apply elem_of_nil in H.
  - intros [Hk Hd]%NoDup_cons. specialize (IH Hd).
    assert (∀ x, (k, x) ∈ d → False) as Hk'.
    { intros x Hx. apply Hk. by apply (list_elem_of_fmap_2 fst) in Hx. }
    destruct (String.eqb_spec k lang) as [->|Hne]; rewrite !elem_of_cons.
    + split.
      * intros [E|Hin].
        -- injection E as -> ->. right. split; [done|]. left. exists l0.
           split; [by left|done].
        -- left. split; [|by right]. intros ->. by eapply Hk'.
      * intros [[Hl [E|Hin]]|[-> [(fs0 & [E|Hin]%elem_of_cons & ->)|[Hnot _]]]].
        -- by injection E as -> ->.
        -- by right.
        -- injection E as ->. by left.
        -- exfalso. by eapply Hk'.
        -- exfalso. apply Hnot. by left.
    + rewrite IH. split.
      * intros [E|[[Hl Hin]|[-> [(fs0 & Hin & ->)|[Hnot ->]]]]].
        -- injection E as -> ->. left. split; [done|by left].
        -- left. split; [done|by right].
        -- right. split; [done|]. left. exists fs0. split; [by right|done].
        -- right. split; [done|]. right. split; [|done].
           intros [?|?]; [congruence|by apply Hnot].
      * intros [[Hl [E|Hin]]|[-> [(fs0 & [E|Hin]%elem_of_cons & ->)|[Hnot ->]]]].
        -- by left.
        -- right. left. by split.
        -- injection E as E _. by destruct Hne.
        -- right. right. split; [done|]. left. by exists fs0.
        -- right. right. split; [done|]. right. split; [|done].
           intros ?. apply Hnot. by right.
Qed.

Lemma by_lang_append_concat lang f d :
  concat (by_lang_append lang f d).*2 ≡ₚ f :: concat d.*2.
Proof.
  induction d as [|[k l] d IH]; cbn [by_lang_append fmap list_fmap snd concat].
  - done.
  - destruct (String.eqb k lang); cbn [fmap list_fmap snd concat].
    + rewrite <- app_assoc. cbn [app]. by rewrite <- Permutation_middle.
    + rewrite IH. by rewrite <- Permutation_middle.
Qed.

(** The groups after the files [pre] are those of the definition
    [grouped]. *)
Lemma by_lang_append_grouped pre f d :
  grouped pre d → grouped (pre ++ [f]) (by_lang_append (lang_of f) f d).
Proof.
  intros (Hnd & Hkeys & Hgroups). split; [by apply by_lang_append_NoDup|]. split.
  - intros l. rewrite by_lang_append_keys, Hkeys. split.
    + intros [->|(f' & Hf' & <-)].
      * exists f. split; [apply elem_of_app; right; left|done].
      * exists f'. split; [apply elem_of_app; by left|done].
    + intros (f' & [Hf'|Hf']%elem_of_app & <-); [right; by exists f'|].
      apply list_elem_of_singleton in Hf' as ->. by left.
  - intros l fs Hin. apply by_lang_append_elem in Hin; [|done].
    rewrite filter_app, filter_cons, filter_nil.
    destruct Hin as [[Hne Hin]|[-> [(fs0 & Hin & ->)|[Hnot ->]]]].
    + rewrite decide_False by done. rewrite app_nil_r. by apply Hgroups.
    + rewrite decide_True by done. f_equal. by apply Hgroups.
    + rewrite decide_True by done.
      rewrite filter_none; [done|]. intros f' Hf' Hl. apply Hnot, Hkeys. by exists f'.
Qed.

Lemma by_lang_fold_grouped files : ∀ pre d,
  grouped pre d →
  grouped (pre ++ files) (foldl (λ d f, by_lang_append (lang_of f) f d) d files).
Proof.
  induction files as [|f files IH]; intros pre d Hg; cbn [foldl].
  - by rewrite app_nil_r.
  - replace (pre ++ f :: files) with ((pre ++ [f]) ++ files)
      by (by rewrite <- app_assoc).
    apply IH. by apply by_lang_append_grouped.
Qed.

Lemma by_lang_fold_concat files : ∀ d,
  concat (foldl (λ d f, by_lang_append (lang_of f) f d) d files).*2
  ≡ₚ concat d.*2 ++ files.
Proof.
  induction files as [|f files IH]; intros d; cbn [foldl].
  - by rewrite app_nil_r.
  - rewrite IH, by_lang_append_concat. by rewrite <- Permutation_middle.
Qed.

(** X16. The jobs of [main] split the files by language: one job per
    language that has a file, no language twice, and the files of a job
    are the files of its language in the order they had; every file is in
    exactly one job. *)
Theorem by_lang_partitions_files files :
  Forall parses files →
  ∃ jobs,
    main_by_lang files = Ok jobs
    ∧ NoDup jobs.*1
    ∧ (∀ l, l ∈ jobs.*1 ↔ ∃ f, f ∈ files ∧ lang_of f = l)
    ∧ (∀ l fs, (l, fs) ∈ jobs → fs = filter (λ f, lang_of f = l) files ∧ fs ≠ [])
    ∧ concat jobs.*2 ≡ₚ files.
Proof.
  intros Hparse. eexists. split.
  { unfold main_by_lang. by apply main_by_lang_fold. }
  destruct (by_lang_fold_grouped files [] []) as (Hnd & Hkeys & Hgroups).
  { split; [constructor|]. split.
    - intros l. split; [by intros ?%elem_of_nil|]. by intros (f & ?%elem_of_nil & _).
    - by intros l fs ?%elem_of_nil. }
  cbn [app] in *. split; [done|]. split; [done|]. split.
  - intros l fs Hin. split; [by apply Hgroups|].
    apply (list_elem_of_fmap_2 fst) in Hin as Hl. cbn [fst] in Hl.
    apply Hkeys in Hl as (f & Hf & Hlang). rewrite (Hgroups l fs Hin).
    intros Hnil.
    assert (f ∈ filter (λ f', lang_of f' = l) files) as Hmem
      by (by apply list_elem_of_filter).
    rewrite Hnil in Hmem. by apply elem_of_nil in Hmem.
  - by rewrite by_lang_fold_concat.
Qed.

Lemma by_lang_partitions_files_witness :
  ∃ jobs,
    main_by_lang locator_files = Ok jobs
    ∧ NoDup jobs.*1
    ∧ (∀ l, l ∈ jobs.*1 ↔ ∃ f, f ∈ locator_files ∧ lang_of f = l)
    ∧ (∀ l fs, (l, fs) ∈ jobs →
               fs = filter (λ f, lang_of f = l) locator_files ∧ fs ≠ [])
    ∧ concat jobs.*2 ≡ₚ locator_files.
Proof. apply by_lang_partitions_files, locator_files_parse. Defined.

(** ** The summary of [main] *)

Lemma process_lang_counts lang files gold_dir topn topm min_edges min_ref
    write_edges write_ref skip_existing w :
  Forall parses files →
  ∃ p s w',
    process_lang lang files gold_dir topn topm min_edges min_ref
                 write_edges write_ref skip_existing w = (Ok (p, s), w')
    ∧ p + s = Z.of_nat (length files).
Proof.
  intros Hparse.
  assert (Forall parses (lang_order files)) as Hord by (by rewrite lang_order_perm).
  destruct (for_each_lines lang gold_dir topn topm min_edges min_ref write_edges
              write_ref skip_existing _ Hord (0, 0) (World (fs w) connect (log w)))
    as ([p s] & w' & evs & Hrun & _ & Hlines & Hp & Hs).
  cbn [fst snd] in *. exists p, s, (World (fs w') connect (log w')). split.
  { rewrite process_lang_unfold by done. cbv zeta. by rewrite Hrun. }
  rewrite Hp, Hs, !Z.add_0_l, count_status_lines.
  by rewrite Hlines, length_fmap, (Permutation_length (lang_order_perm files)).
Qed.

Lemma main_jobs_counts gold_dir topn topm min_edges min_ref
    write_edges write_ref skip_existing jobs :
  Forall (λ j : string * list Path, Forall parses j.2) jobs →
  ∀ acc w,
  ∃ acc' w',
    for_each jobs acc
             (λ acc j,
                ps ← process_lang j.1 j.2 gold_dir topn topm min_edges min_ref
                                  write_edges write_ref skip_existing;
                mret (acc.1 + ps.1, acc.2 + ps.2)) w
    = (Ok acc', w')
    ∧ acc'.1 + acc'.2 = acc.1 + acc.2 + Z.of_nat (length (concat jobs.*2)).
Proof.
  induction 1 as [|[l fs] jobs Hj _ IH]; intros acc w.
  - exists acc, w. split; [done|]. cbn. lia.
  - destruct (process_lang_counts l fs gold_dir topn topm min_edges min_ref write_edges
                write_ref skip_existing w Hj) as (p & s & w1 & Hrun & Hsum).
    destruct (IH (acc.1 + p, acc.2 + s) w1) as (acc' & w' & Hrest & Hsum').
    exists acc', w'. split.
    + cbn [for_each]. erewrite bind_ok; [exact Hrest|].
      cbn [fst snd]. erewrite bind_ok by exact Hrun. reflexivity.
    + cbn [fmap list_fmap snd concat fst] in *. rewrite length_app. lia.
Qed.

(** X17. With one worker, the two counts of [main]'s summary add up to the
    number of partition files selected: each file is counted once, as
    processed or as skipped, under the language it belongs to. *)
Theorem main_counts_every_partition files gold_dir topn topm min_edges min_ref
    write_edges write_ref skip_existing w :
  Forall parses files →
  ∃ jobs n_processed n_skipped w',
    main_by_lang files = Ok jobs
    ∧ main_jobs jobs gold_dir topn topm min_edges min_ref
                write_edges write_ref skip_existing w
      = (Ok (n_processed, n_skipped), w')
    ∧ n_processed + n_skipped = Z.of_nat (length files).
Proof.
  intros Hparse.
  assert (∃ jobs, main_by_lang files = Ok jobs ∧ concat jobs.*2 ≡ₚ files)
    as (jobs & Hjobs & Hperm).
  { eexists. split; [unfold main_by_lang; by apply main_by_lang_fold|].
    by rewrite by_lang_fold_concat. }
  assert (Forall (λ j : string * list Path, Forall parses j.2) jobs) as Hall.
  { apply Forall_forall. intros [l fs] Hin. cbn [snd]. apply Forall_forall.
    intros f Hf. rewrite Forall_forall in Hparse. apply Hparse. rewrite <- Hperm.
    apply list_elem_of_In, in_concat. exists fs. split; apply list_elem_of_In; [|done].
    by apply (list_elem_of_fmap_2 snd) in Hin. }
  destruct (main_jobs_counts gold_dir topn topm min_edges min_ref write_edges write_ref
              skip_existing jobs Hall (0, 0) w) as ([p s] & w' & Hrun & Hsum).
  exists jobs, p, s, w'. split; [done|]. split; [exact Hrun|].
  cbn [fst snd] in Hsum. rewrite Hsum, (Permutation_length Hperm). lia.
Qed.

Lemma main_counts_every_partition_witness :
  ∃ jobs n_processed n_skipped w',
    main_by_lang locator_files = Ok jobs
    ∧ main_jobs jobs ["gold"] 2 50 1 1 true true true scenario_world
      = (Ok (n_processed, n_skipped), w')
    ∧ n_processed + n_skipped = Z.of_nat (length locator_files).
Proof. apply main_counts_every_partition, locator_files_parse. Defined.

(** ** The builders of the insights: what they never do *)

Lemma title_expr_names_column cols prefix :
  prefix = "curr" ∨ prefix = "prev" →
  String.eqb (title_expr cols prefix) "NULL" = false →
  names_column cols (title_expr cols prefix).
Proof.
  intros Hp Hnull. exists prefix. unfold title_expr in *.
  repeat case_bool_decide; auto.
  by destruct Hp as [-> | ->].
Qed.

Lemma top10_years_ok m cols out_root lang expr overwrite years :
  names_column cols expr →
  Forall (builder_event_ok m cols overwrite)
         (top10_years m cols out_root lang expr overwrite years).
Proof.
  intros Hexpr. induction years as [|y years IH]; [constructor|].
  cbn [top10_years]. destruct (out_exists _ _ && negb overwrite) eqn:Eo.
  - constructor; [exact Eo|exact IH].
  - case_bool_decide; [|by repeat constructor].
    constructor; [|exact IH]. split; [exact Eo|by repeat constructor].
Qed.

Lemma build_top10_by_year_ok m src out_root lang overwrite :
  Forall (builder_event_ok m (src_columns src) overwrite)
         (build_top10_by_year m src out_root lang overwrite).
Proof.
  unfold build_top10_by_year. destruct (negb (src_files src)); [by repeat constructor|].
  destruct (src_years src) as [|y0 years]; [by repeat constructor|].
  destruct (String.eqb _ "NULL") eqn:En; [by repeat constructor|].
  apply top10_years_ok, title_expr_names_column; [by left|done].
Qed.

Lemma build_all_time_top_ok m src out_root lang topn overwrite :
  Forall (builder_event_ok m (src_columns src) overwrite)
         (build_all_time_top m src out_root lang topn overwrite).
Proof.
  unfold build_all_time_top. cbv zeta.
  destruct (out_exists _ _ && negb overwrite) eqn:Eo; [by repeat constructor|].
  destruct (negb (src_files src)); [by repeat constructor|].
  destruct (negb (src_has_rows src)); [by repeat constructor|].
  destruct (String.eqb _ "NULL") eqn:En; [by repeat constructor|].
  case_bool_decide; [|by repeat constructor].
  repeat constructor; [exact Eo|]. apply title_expr_names_column; [by left|done].
Qed.

Lemma build_latest_ok step value prefixes m src out_root lang limit overwrite :
  Forall (λ p, p = "curr" ∨ p = "prev") prefixes →
  Forall (builder_event_ok m (src_columns src) overwrite)
         (build_latest step value prefixes m src out_root lang limit overwrite).
Proof.
  intros Hpre. unfold build_latest.
  destruct (negb (src_files src)); [by repeat constructor|].
  destruct (src_latest src) as [[y mo]|]; [|by repeat constructor].
  destruct (out_exists _ _ && negb overwrite) eqn:Eo; [by repeat constructor|].
  destruct (existsb _ _) eqn:En; [by repeat constructor|].
  case_bool_decide; [|by repeat constructor].
  repeat constructor; [exact Eo|].
  apply Forall_fmap, Forall_forall. intros p Hp.
  apply title_expr_names_column; [by apply (proj1 (Forall_forall _ _) Hpre)|].
  destruct (String.eqb _ "NULL") eqn:E; [|done].
  assert (existsb (λ e, String.eqb e "NULL")
                  (title_expr (src_columns src) <$> prefixes) = true) as Ht; [|congruence].
  apply existsb_exists. exists (title_expr (src_columns src) p).
  split; [|done]. apply list_elem_of_In. by apply list_elem_of_fmap_2.
Qed.

Lemma builder_events_safe m cols overwrite evs :
  Forall (builder_event_ok m cols overwrite) evs →
  (overwrite = false → ¬ rewrites_existing m evs)
  ∧ (overwrite = true → ¬ skips evs)
  ∧ ¬ reads_missing_column cols evs.
Proof.
  intros Hok. split; [|split].
  - intros -> (out & label & exprs & params & Hin & Hex).
    apply (proj1 (Forall_forall _ _) Hok) in Hin as [Ho _].
    rewrite andb_true_r in Ho. congruence.
  - intros -> (s & l & out & Hin).
    apply (proj1 (Forall_forall _ _) Hok) in Hin. cbn in Hin.
    by rewrite andb_false_r in Hin.
  - intros (out & label & exprs & params & e & Hin & He & Hno).
    apply (proj1 (Forall_forall _ _) Hok) in Hin as [_ Hex].
    by apply Hno, (proj1 (Forall_forall _ _) Hex).
Qed.

(** X18. Without [--no-skip] no builder writes over an output file that is
    already there; with it no builder skips one. *)
Theorem builders_keep_existing_outputs m src out_root lang limit :
  (¬ rewrites_existing m (build_top10_by_year m src out_root lang false)
   ∧ ¬ rewrites_existing m (build_all_time_top m src out_root lang limit false)
   ∧ ¬ rewrites_existing m (build_trending_mom m src out_root lang limit false)
   ∧ ¬ rewrites_existing m (build_edges_6m m src out_root lang limit false)
   ∧ ¬ rewrites_existing m (build_referrers_6m m src out_root lang limit false))
  ∧ (¬ skips (build_top10_by_year m src out_root lang true)
     ∧ ¬ skips (build_all_time_top m src out_root lang limit true)
     ∧ ¬ skips (build_trending_mom m src out_root lang limit true)
     ∧ ¬ skips (build_edges_6m m src out_root lang limit true)
     ∧ ¬ skips (build_referrers_6m m src out_root lang limit true)).
Proof.
  assert (∀ step value prefixes overwrite,
            Forall (λ p, p = "curr" ∨ p = "prev") prefixes →
            Forall (builder_event_ok m (src_columns src) overwrite)
                   (build_latest step value prefixes m src out_root lang limit overwrite))
    as Hlatest by (intros; by apply build_latest_ok).
  split; [split; [|split; [|split; [|split]]]|split; [|split; [|split; [|split]]]].
  1-5: eapply (builder_events_safe m (src_columns src) false); [|done].
  6-10: eapply (builder_events_safe m (src_columns src) true); [|done].
  all: first [apply build_top10_by_year_ok | apply build_all_time_top_ok
             | apply Hlatest; repeat apply Forall_cons_2; try apply Forall_nil_2; auto].
Qed.

(** X19. Every title expression a builder puts into the query of a write
    reads a column the source has: [<prefix>_title], [<prefix>_name] or
    [<prefix>_id]; the literal [NULL] never reaches a query. *)
Theorem builder_queries_read_existing_columns m src out_root lang limit overwrite :
  let cols := src_columns src in
  ¬ reads_missing_column cols (build_top10_by_year m src out_root lang overwrite)
  ∧ ¬ reads_missing_column cols (build_all_time_top m src out_root lang limit overwrite)
  ∧ ¬ reads_missing_column cols (build_trending_mom m src out_root lang limit overwrite)
  ∧ ¬ reads_missing_column cols (build_edges_6m m src out_root lang limit overwrite)
  ∧ ¬ reads_missing_column cols (build_referrers_6m m src out_root lang limit overwrite).
Proof.
  intros cols. subst cols.
  split; [|split; [|split; [|split]]];
    eapply (builder_events_safe m (src_columns src) overwrite).
  all: first [apply build_top10_by_year_ok | apply build_all_time_top_ok
             | apply build_latest_ok;
               repeat apply Forall_cons_2; try apply Forall_nil_2; auto].
Qed.

(** Sources with ids only, as [aggregate_gold.py] writes them: the builders
    fall back on the cast of the id, write what is missing and skip what is
    there. *)
Example builders_on_gold_ids :
  let pop := Source true [2023; 2024] true (Some (2024, 1))
                    {[ "lang"; "year"; "month"; "curr_id"; "total_clicks" ]} in
  let edges := Source true [2024] true (Some (2024, 1))
                      {[ "lang"; "year"; "month"; "prev_id"; "curr_id";
                         "total_transitions" ]} in
  let done_2023 := ["out"; "top10_by_year"; "lang=en"; "year=2023"; "data.parquet"] in
  build_top10_by_year {[ done_2023 := Raw 1 ]} pop ["out"] "en" false
  = [BSkip "top10_by_year" "en" done_2023;
     BWrite ["out"; "top10_by_year"; "lang=en"; "year=2024"; "data.parquet"]
            "top10_by_year en-2024" ["CAST(curr_id AS VARCHAR)"] [2024; 10]]
  ∧ build_edges_6m ∅ edges ["out"] "en" 100000 false
    = [BWrite ["out"; "edges_6m"; "lang=en"; "year=2024"; "month=01"; "data.parquet"]
              "edges_6m en-2024-01"
              ["CAST(prev_id AS VARCHAR)"; "CAST(curr_id AS VARCHAR)"] [2024; 1; 100000]].
Proof. vm_compute. split; reflexivity. Qed.

(** ** Running a partition again *)

Lemma pointwise_id : pointwise (λ m, m).
Proof. intros i. by left. Qed.

Lemma pointwise_publish out_file t : pointwise (publish out_file t).
Proof.
  intros i. unfold publish.
  destruct (decide (i = out_file)) as [->|].
  { right. exists (Some (Parquet t)). intros m. apply lookup_insert_eq. }
  destruct (decide (i = PathLib.with_suffix_tmp out_file)) as [->|].
  { right. exists None. intros m. rewrite lookup_insert_ne by done. apply lookup_delete_eq. }
  left. intros m. by rewrite lookup_insert_ne, lookup_delete_ne.
Qed.

Lemma pointwise_compose F G : pointwise F → pointwise G → pointwise (λ m, F (G m)).
Proof.
  intros HF HG i. destruct (HF i) as [Hid|[v Hv]].
  - destruct (HG i) as [Hid'|[v Hv]].
    + left. intros m. by rewrite Hid, Hid'.
    + right. exists v. intros m. by rewrite Hid, Hv.
  - right. exists v. intros m. apply Hv.
Qed.

Lemma pointwise_idemp G m : pointwise G → G (G m) = G m.
Proof.
  intros HG. apply map_eq. intros i. destruct (HG i) as [Hid|[v Hv]].
  - apply Hid.
  - by rewrite !Hv.
Qed.

Lemma pointwise_outputs_fs gold_root lang year month topn topm min_edges min_ref
    write_edges write_ref ids :
  pointwise (outputs_fs gold_root lang year month topn topm min_edges min_ref
                        write_edges write_ref ids).
Proof.
  unfold outputs_fs.
  destruct write_edges, write_ref;
    repeat first [ apply pointwise_publish
                 | apply (pointwise_compose (publish _ _)); [apply pointwise_publish|] ].
Qed.

Lemma dict_loaded_in_bigint m p dim :
  dict_loaded m p = Ok dim → Forall (λ d, Sql.in_bigint (d_id d) = true) dim.
Proof.
  unfold dict_loaded. destruct (m !! p) as [[n|[]]|]; try done.
  - destruct (0 <? n)%N; [done|]. intros [= <-]. constructor.
  - destruct (forallb _ rows) eqn:E; [|done]. intros [= <-].
    apply Forall_forall. intros d Hd%list_elem_of_In.
    by apply (proj1 (forallb_forall _ _) E).
  - intros [= <-]. constructor.
Qed.

(** X20. With skip-mode off, processing a partition a second time
    succeeds and leaves every file other than the two rankings with the
    content it had: the dictionary gains no row, Popularity and the edges
    are written again as they were.  (The SILVER file lies outside the GOLD
    directory.) *)
Theorem reprocessing_changes_nothing f gold_root topn topm min_edges min_ref
    write_edges write_ref w :
  ¬ gold_root `prefix_of` f →
  let r1 := run_one_partition f gold_root topn topm min_edges min_ref
                              write_edges write_ref false w in
  r1.1 = Ok processed →
  let r2 := run_one_partition f gold_root topn topm min_edges min_ref
                              write_edges write_ref false r1.2 in
  r2.1 = Ok processed
  ∧ ∀ p, ¬ ranked_artifact gold_root p → fs r2.2 !! p = fs r1.2 !! p.
Proof.
  intros Hout r1 Hr1 r2.
  destruct (parse_partition_from_path f) as [[[lang year] month]|e] eqn:Hp.
  2:{ subst r1. by rewrite (run_one_partition_parse_raise _ _ _ _ _ _ _ _ _ _ _ Hp) in Hr1. }
  set (dim_file := dim_path_for lang gold_root).
  assert (fs r1.2 !! f = fs w !! f) as Hsame
    by (by apply run_one_partition_outside_gold).
  destruct (run_one_partition_fs f gold_root topn topm min_edges min_ref write_edges
              write_ref false w lang year month Hp)
    as [(Hne & _)|(_ & s & dim & dn & Hin & Hfs1)]; [done|]. fold r1 dim_file in Hfs1.
  apply merge_inputs_inv in Hin as (rows & Hrows & Hs & Hdim & Hdn).
  fold dim_file in Hdim.
  assert (merge_inputs (fs r1.2) (lang, year, month) f dim_file = Ok (s, dim ++ dn, [])) as Hin2.
  { unfold merge_inputs. rewrite Hsame, Hrows. cbn [mbind result_bind]. rewrite Hs.
    cbn [mbind result_bind].
    assert (dict_loaded (fs r1.2) dim_file = Ok (dim ++ dn)) as ->.
    { unfold dict_loaded. rewrite Hfs1. unfold dim_file.
      rewrite outputs_fs_dim_path, publish_lookup_eq.
      assert (forallb (λ d, Sql.in_bigint (d_id d)) (dim ++ dn) = true) as ->; [|done].
      apply forallb_forall. intros d Hd%list_elem_of_In. revert d Hd.
      apply Forall_forall, Forall_app. split; [by eapply dict_loaded_in_bigint|].
      by apply q_dim_new_inv in Hdn as (_ & _ & ?). }
    cbn [mbind result_bind].
    rewrite titles_to_add_covered by (by eapply merged_dict_covers). reflexivity. }
  pose proof (run_one_partition_spec f gold_root topn topm min_edges min_ref
                write_edges write_ref false r1.2 lang year month Hp) as Hspec.
  cbv zeta in Hspec. cbn [andb] in Hspec. fold dim_file in Hspec.
  rewrite Hin2 in Hspec. destruct Hspec as (w2 & Hrun2 & Hfs2 & _).
  fold r2 in Hrun2. rewrite Hrun2. cbn [fst snd]. split; [done|].
  intros p _. f_equal.
  rewrite Hfs2, app_nil_r, Hfs1.
  apply (pointwise_idemp
           (λ m, outputs_fs gold_root lang year month topn topm min_edges min_ref
                            write_edges write_ref (q_s_ids s (dim ++ dn))
                            (publish dim_file (TDim (dim ++ dn)) m))).
  apply (pointwise_compose (outputs_fs _ _ _ _ _ _ _ _ _ _ _)).
  - apply pointwise_outputs_fs.
  - apply pointwise_publish.
Qed.

Lemma reprocessing_changes_nothing_witness :
  let r1 := run_one_partition scenario_file ["gold"] 2 50 1 1 true true false
                              scenario_world in
  let r2 := run_one_partition scenario_file ["gold"] 2 50 1 1 true true false r1.2 in
  r2.1 = Ok processed
  ∧ ∀ p, ¬ ranked_artifact ["gold"] p → fs r2.2 !! p = fs r1.2 !! p.
Proof.
  apply (reprocessing_changes_nothing scenario_file ["gold"] 2 50 1 1 true true
           scenario_world).
  - intros [k Hk]. discriminate Hk.
  - vm_compute. reflexivity.
Defined.

(** ** A language seen for the first time *)

(** X21. For a language whose dictionary file is missing or empty (zero
    bytes), a processed partition leaves a dictionary that numbers its
    titles 1, 2, ... in ascending title order, and these titles are those
    of the records with a positive count. *)
Theorem first_partition_numbers_from_one f gold_root topn topm min_edges min_ref
    write_edges write_ref skip_existing w lang year month :
  parse_partition_from_path f = Ok (lang, year, month) →
  published (fs w) (dim_path_for lang gold_root) = false →
  let r := run_one_partition f gold_root topn topm min_edges min_ref
                             write_edges write_ref skip_existing w in
  r.1 = Ok processed →
  ∃ rows s dn,
    fs w !! f = Some (Parquet (TSilver rows)) ∧ q_s (lang, year, month) rows = Ok s
    ∧ fs r.2 !! dim_path_for lang gold_root = Some (Parquet (TDim dn))
    ∧ d_id <$> dn = seqZ 1 (Z.of_nat (length dn))
    ∧ StronglySorted title_lt (d_title <$> dn)
    ∧ ∀ t, t ∈ d_title <$> dn ↔ t ∈ q_part_titles_all s.
Proof.
  intros Hp Hnew r Hr.
  destruct (run_one_partition_fs f gold_root topn topm min_edges min_ref write_edges
              write_ref skip_existing w lang year month Hp)
    as [(Hne & _)|(_ & s & dim & dn & Hin & Hfs)]; [done|]. fold r in Hfs.
  apply merge_inputs_inv in Hin as (rows & Hrows & Hs & Hdim & Hdn).
  assert (dim = []) as ->.
  { unfold dict_loaded, published in *.
    destruct (fs w !! dim_path_for lang gold_root) as [[n|t]|]; [| |by injection Hdim].
    - cbn [size_positive] in Hnew. rewrite Hnew in Hdim. by injection Hdim.
    - done. }
  exists rows, s, dn. split; [done|]. split; [done|].
  split; [by rewrite Hfs, outputs_fs_dim_path, publish_lookup_eq|].
  pose proof (q_dim_new_inv _ _ _ Hdn) as (Ht & Hi & _).
  split; [exact Hi|]. split.
  - rewrite Ht. apply sorted_titles_strict, NoDup_remove_dups.
  - intros t. rewrite (q_dim_new_titles_elem _ _ _ t Hdn), titles_to_add_elem.
    cbn [fmap list_fmap]. rewrite elem_of_nil. tauto.
Qed.

Lemma first_partition_numbers_from_one_witness :
  let w := World (<[ dim_path_for "en" ["gold"] := Raw 0 ]> (fs scenario_world))
                 connect [] in
  let r := run_one_partition scenario_file ["gold"] 2 50 1 1 true true true w in
  ∃ rows s dn,
    fs w !! scenario_file = Some (Parquet (TSilver rows))
    ∧ q_s ("en", 2024, 1) rows = Ok s
    ∧ fs r.2 !! dim_path_for "en" ["gold"] = Some (Parquet (TDim dn))
    ∧ d_id <$> dn = seqZ 1 (Z.of_nat (length dn))
    ∧ StronglySorted title_lt (d_title <$> dn)
    ∧ ∀ t, t ∈ d_title <$> dn ↔ t ∈ q_part_titles_all s.
Proof.
  intros w r.
  apply (first_partition_numbers_from_one scenario_file ["gold"] 2 50 1 1 true true true
           w "en" 2024 1).
  - reflexivity.
  - reflexivity.
  - vm_compute. reflexivity.
Defined.

(** ** The filters of the command line *)

Lemma last_snoc_inv (l : list string) x :
  List.last l "" = x → x ≠ "" → ∃ l', l = l' ++ [x].
Proof.
  intros Hl Hx. destruct (decide (l = [])) as [->|Hne]; [by destruct Hx|].
  exists (removelast l). rewrite <- Hl. by apply app_removelast_last.
Qed.

Lemma name_at_parents f a b c :
  a ≠ "" → b ≠ "" → c ≠ "" →
  name_at_parent 3 f = a → name_at_parent 2 f = b → name_at_parent 1 f = c →
  ∃ root name, f = root // a // b // c // name.
Proof.
  unfold name_at_parent, PathLib.parent. simpl Nat.iter. intros Ha Hb Hc H3 H2 H1.
  apply last_snoc_inv in H1 as [p1 E1]; [|done]. rewrite E1 in H2, H3.
  rewrite removelast_last in H2, H3.
  apply last_snoc_inv in H2 as [p2 ->]; [|done]. rewrite removelast_last in H3.
  apply last_snoc_inv in H3 as [p3 ->]; [|done].
  assert (f ≠ []) as Hf by (intros ->; by destruct p3).
  exists p3, (List.last f ""). unfold PathLib.div.
  rewrite <- E1. by apply app_removelast_last.
Qed.

(** X22. With [--lang], [--year] and [--month] all given, [main] keeps a
    sublist of the files found, and every file it keeps parses to exactly
    the partition asked for. *)
Theorem filters_select_the_partition l y mo files :
  l ≠ "" → contains "=" l = false → y ≠ 0 → mo ≠ 0 →
  ∃ sel,
    main_files (Args (Some l) (Some y) (Some mo) false) files = Ok sel
    ∧ sel `sublist_of` files
    ∧ ∀ f, f ∈ sel → parse_partition_from_path f = Ok (l, y, mo).
Proof.
  intros Hl Heq Hy Hmo. eexists. split.
  { unfold main_files. cbn [a_lang a_year a_month a_latest_month andb].
    rewrite !bool_decide_eq_false_2 by done. reflexivity. }
  split.
  { etrans; [apply sublist_filter|]. etrans; [apply sublist_filter|].
    apply sublist_filter. }
  intros f Hf.
  apply list_elem_of_filter in Hf as [Hm Hf].
  apply list_elem_of_filter in Hf as [Hyr Hf].
  apply list_elem_of_filter in Hf as [Hlang _].
  destruct (name_at_parents f ("lang=" +:+ l) ("year=" +:+ Py.str y)
              ("month=" +:+ Py.fmt_02d mo)) as (root & name & ->); try done.
  by apply (hive_path_parses root l y mo name).
Qed.

Lemma filters_select_the_partition_witness :
  ∃ sel,
    main_files (Args (Some "de") (Some 2024) (Some 2) false) locator_files = Ok sel
    ∧ sel `sublist_of` locator_files
    ∧ ∀ f, f ∈ sel → parse_partition_from_path f = Ok ("de", 2024, 2).
Proof. apply filters_select_the_partition; [done|reflexivity|lia|lia]. Defined.

Example filters_select_de_2024_02 :
  main_files (Args (Some "de") (Some 2024) (Some 2) false) locator_files
  = Ok [["silver"; "lang=de"; "year=2024"; "month=02"; "data.parquet"]].
Proof. vm_compute. reflexivity. Qed.

(** The filters compare directory names, not values: a month directory
    written without its leading zero parses to the month asked for and is
    not selected. *)
Example filter_month_by_name :
  let f := ["silver"; "lang=de"; "year=2024"; "month=2"; "data.parquet"] in
  parse_partition_from_path f = Ok ("de", 2024, 2)
  ∧ main_files (Args None None (Some 2) false) [f] = Ok [].
Proof. vm_compute. split; reflexivity. Qed.

(** ** Ids in the facts *)

Lemma q_s_ids_known s dict r :
  r ∈ q_s_ids s dict →
  i_curr_id r ∈ d_id <$> dict ∧ ∀ p, i_prev_id r = Some p → p ∈ d_id <$> dict.
Proof.
  unfold q_s_ids. intros (x & Hr & _)%list_elem_of_bind.
  apply list_elem_of_bind in Hr as (dc & Hr & [_ Hdc]%list_elem_of_filter).
  destruct (filter _ dict) as [|dp0 dps] eqn:Ef.
  - apply list_elem_of_singleton in Hr as ->. cbn. split; [|done].
    by apply list_elem_of_fmap_2.
  - apply list_elem_of_fmap in Hr as (dp & -> & Hdp). cbn. split.
    + by apply list_elem_of_fmap_2.
    + intros p [= <-]. apply list_elem_of_fmap_2.
      rewrite <- Ef in Hdp. by apply list_elem_of_filter in Hdp as [_ ?].
Qed.

Lemma q_pop_known ids p :
  p ∈ q_pop ids → ∃ r, r ∈ ids ∧ i_curr_id r = p_curr_id p.
Proof.
  unfold q_pop. intros ([[[[l y] m] c] t] & -> & Hg)%list_elem_of_fmap.
  apply group_sum_elem in Hg as [_ (r & [= _ _ _ ->] & Hr)%list_elem_of_fmap].
  by exists r.
Qed.

Lemma q_agg_prev_known ids e :
  e ∈ q_agg_prev ids →
  ∃ r, r ∈ ids ∧ i_prev_id r = Some (e_prev_id e) ∧ i_curr_id r = e_curr_id e.
Proof.
  intros [_ Hne]%q_agg_prev_elem.
  destruct (transitions_of ids (edge_group e)) as [|r l] eqn:E; [done|].
  assert (r ∈ transitions_of ids (edge_group e)) as Hr by (rewrite E; left).
  unfold transitions_of in Hr. apply list_elem_of_filter in Hr as [(_ & ? & ?) ?].
  by exists r.
Qed.

Lemma outputs_fs_top_path gold_root lang year month topn topm min_edges min_ref
    write_edges write_ref ids m :
  outputs_fs gold_root lang year month topn topm min_edges min_ref
             write_edges write_ref ids m
    !! out_path gold_root "article_top" lang year month
  = Some (Parquet (parquet_of (TTop (q_top topn ids)))).
Proof.
  unfold outputs_fs.
  destruct write_edges, write_ref;
    rewrite ?publish_lookup_ne by path_ne; apply publish_lookup_eq.
Qed.

Lemma outputs_fs_ref_path gold_root lang year month topn topm min_edges min_ref
    write_edges ids m :
  outputs_fs gold_root lang year month topn topm min_edges min_ref
             write_edges true ids m
    !! out_path gold_root "referrers_top" lang year month
  = Some (Parquet (parquet_of (TRef (q_ref min_ref topm ids)))).
Proof.
  unfold outputs_fs.
  destruct write_edges; rewrite ?publish_lookup_ne by path_ne; apply publish_lookup_eq.
Qed.

Lemma outputs_fs_edges_path gold_root lang year month topn topm min_edges min_ref
    write_ref ids m :
  outputs_fs gold_root lang year month topn topm min_edges min_ref
             true write_ref ids m
    !! out_path gold_root "edges_monthly" lang year month
  = Some (Parquet (parquet_of (TEdges (q_edges min_edges ids)))).
Proof. unfold outputs_fs. apply publish_lookup_eq. Qed.

(** X23. After a processed partition every id in its fact artifacts is an
    id of the dictionary file the same run published: the curr_id of each
    Popularity and Top-N row, and the prev_id and curr_id of each row of
    [edges_monthly] and [referrers_top] when these are written. *)
Theorem facts_reference_dictionary f gold_root topn topm min_edges min_ref
    write_edges write_ref skip_existing w lang year month :
  parse_partition_from_path f = Ok (lang, year, month) →
  let r := run_one_partition f gold_root topn topm min_edges min_ref
                             write_edges write_ref skip_existing w in
  r.1 = Ok processed →
  ∃ dict pop top,
    fs r.2 !! dim_path_for lang gold_root = Some (Parquet (TDim dict))
    ∧ fs r.2 !! out_path gold_root "article_popularity" lang year month
      = Some (Parquet (TPop pop))
    ∧ fs r.2 !! out_path gold_root "article_top" lang year month
      = Some (Parquet (TTop top))
    ∧ (∀ p, p ∈ pop → p_curr_id p ∈ d_id <$> dict)
    ∧ (∀ t, t ∈ top → t_pop t ∈ pop)
    ∧ (write_edges = true →
       ∃ edges, fs r.2 !! out_path gold_root "edges_monthly" lang year month
                = Some (Parquet (TEdges edges))
                ∧ ∀ e, e ∈ edges → e_prev_id e ∈ d_id <$> dict
                                   ∧ e_curr_id e ∈ d_id <$> dict)
    ∧ (write_ref = true →
       ∃ refs, fs r.2 !! out_path gold_root "referrers_top" lang year month
               = Some (Parquet (TRef refs))
               ∧ ∀ x, x ∈ refs → e_prev_id (f_agg x) ∈ d_id <$> dict
                                  ∧ e_curr_id (f_agg x) ∈ d_id <$> dict).
Proof.
  intros Hp r Hr.
  destruct (run_one_partition_fs f gold_root topn topm min_edges min_ref write_edges
              write_ref skip_existing w lang year month Hp)
    as [(Hne & _)|(_ & s & dim & dn & _ & Hfs)]; [done|]. fold r in Hfs.
  set (dict := dim ++ dn) in *. set (ids := q_s_ids s dict) in *.
  assert (∀ e, e ∈ q_agg_prev ids →
               e_prev_id e ∈ d_id <$> dict ∧ e_curr_id e ∈ d_id <$> dict) as Hagg.
  { intros e (x & Hx & Hprev & <-)%q_agg_prev_known.
    destruct (q_s_ids_known s dict x Hx) as [Hc Hpr]. split; [by apply Hpr|done]. }
  exists dict, (pop_stored <$> q_pop ids),
         ((λ x, TopRow (pop_stored (t_pop x)) (t_rn x)) <$> q_top topn ids).
  rewrite Hfs.
  split; [etrans; [apply outputs_fs_dim_path|apply publish_lookup_eq]|].
  split; [apply outputs_fs_pop_path|]. split; [apply outputs_fs_top_path|].
  split; [|split; [|split]].
  - intros p (p0 & -> & (x & Hx & Hc)%q_pop_known)%list_elem_of_fmap.
    destruct p0. cbn in Hc |- *. subst. exact (proj1 (q_s_ids_known s dict x Hx)).
  - intros t (t0 & -> & Ht)%list_elem_of_fmap. unfold q_top, rank_top in Ht.
    apply list_elem_of_fmap in Ht as ([p n] & -> & Ht).
    apply row_number_desc_elem in Ht as [Ht _]. cbn.
    by apply (list_elem_of_fmap_2 pop_stored).
  - intros ->. eexists. split; [apply outputs_fs_edges_path|].
    intros e (e0 & -> & [_ He]%list_elem_of_filter)%list_elem_of_fmap.
    exact (Hagg e0 He).
  - intros ->. eexists. split; [apply outputs_fs_ref_path|].
    intros x (x0 & -> & Hx)%list_elem_of_fmap. unfold q_ref in Hx.
    apply list_elem_of_fmap in Hx as ([e n] & -> & Hx).
    apply row_number_desc_elem in Hx as [[_ He]%list_elem_of_filter _].
    exact (Hagg e He).
Qed.

Lemma facts_reference_dictionary_witness :
  let r := run_one_partition scenario_file ["gold"] 2 50 1 1 true true true
                             scenario_world in
  ∃ dict pop top,
    fs r.2 !! dim_path_for "en" ["gold"] = Some (Parquet (TDim dict))
    ∧ fs r.2 !! out_path ["gold"] "article_popularity" "en" 2024 1
      = Some (Parquet (TPop pop))
    ∧ fs r.2 !! out_path ["gold"] "article_top" "en" 2024 1
      = Some (Parquet (TTop top))
    ∧ (∀ p, p ∈ pop → p_curr_id p ∈ d_id <$> dict)
    ∧ (∀ t, t ∈ top → t_pop t ∈ pop)
    ∧ (true = true →
       ∃ edges, fs r.2 !! out_path ["gold"] "edges_monthly" "en" 2024 1
                = Some (Parquet (TEdges edges))
                ∧ ∀ e, e ∈ edges → e_prev_id e ∈ d_id <$> dict
                                   ∧ e_curr_id e ∈ d_id <$> dict)
    ∧ (true = true →
       ∃ refs, fs r.2 !! out_path ["gold"] "referrers_top" "en" 2024 1
               = Some (Parquet (TRef refs))
               ∧ ∀ x, x ∈ refs → e_prev_id (f_agg x) ∈ d_id <$> dict
                                  ∧ e_curr_id (f_agg x) ∈ d_id <$> dict).
Proof.
  intros r.
  apply (facts_reference_dictionary scenario_file ["gold"] 2 50 1 1 true true true
           scenario_world "en" 2024 1).
  - reflexivity.
  - vm_compute. reflexivity.
Defined.

(** ** Dense ids *)

(** A property of dictionaries that every merge keeps is kept, file by
    file, by a partition whatever its outcome. *)
Lemma run_one_partition_dict_inv (P : list dim_row → Prop) f gold_root topn topm
    min_edges min_ref write_edges write_ref skip_existing lang' w :
  (∀ s dim dn, P dim → q_dim_new (q_base dim) (titles_to_add s dim) = Ok dn →
               P (dim ++ dn)) →
  let p := dim_path_for lang' gold_root in
  P (dict_at (fs w) p) →
  P (dict_at (fs (run_one_partition f gold_root topn topm min_edges min_ref
                                    write_edges write_ref skip_existing w).2) p).
Proof.
  intros Hstep p HP. subst p.
  destruct (parse_partition_from_path f) as [[[lang year] month]|e] eqn:Hp.
  2:{ by rewrite (run_one_partition_parse_raise _ _ _ _ _ _ _ _ _ _ _ Hp). }
  pose proof (run_one_partition_spec f gold_root topn topm min_edges min_ref
                write_edges write_ref skip_existing w lang year month Hp) as Hrun.
  cbv zeta in Hrun.
  destruct (skip_existing && bool_decide (_ = [])); [by rewrite Hrun|].
  destruct (merge_inputs (fs w) (lang, year, month) f (dim_path_for lang gold_root))
    as [[[s dim] dn]|e] eqn:Hin.
  2:{ destruct Hrun as (w' & -> & Hfs & _). cbn [snd]. by rewrite Hfs. }
  destruct Hrun as (w' & -> & Hfs & _). cbn [snd]. rewrite Hfs.
  unfold dict_at at 1. rewrite outputs_fs_dim_path.
  fold (dict_at (publish (dim_path_for lang gold_root) (TDim (dim ++ dn)) (fs w))
                (dim_path_for lang' gold_root)).
  destruct (decide (dim_path_for lang' gold_root = dim_path_for lang gold_root))
    as [Heq|Hne].
  - rewrite Heq in HP |- *. rewrite dict_at_publish_eq.
    apply merge_inputs_inv in Hin as (rows & _ & _ & Hd & Hn).
    apply dict_loaded_dict_at in Hd. rewrite Hd in HP. by apply (Hstep s).
  - rewrite dict_at_publish_ne; [done|done|path_ne].
Qed.

Lemma q_base_dense dim : dense dim → q_base dim = Z.of_nat (length dim).
Proof.
  unfold dense. intros Hd.
  destruct (q_base_cases dim) as [[-> ->]|(Hne & (d & Hin & ->) & Hmax)]; [done|].
  assert (Z.of_nat (length dim) ∈ d_id <$> dim) as Hlast.
  { rewrite Hd. apply elem_of_seqZ. destruct dim; [done|]. cbn [length]. clear. lia. }
  apply list_elem_of_fmap in Hlast as (d' & Hd' & Hin').
  specialize (Hmax d' Hin').
  apply (list_elem_of_fmap_2 d_id) in Hin. rewrite Hd in Hin.
  apply elem_of_seqZ in Hin. clear Hd. lia.
Qed.

Lemma merge_step_dense s dim dn :
  dense dim → q_dim_new (q_base dim) (titles_to_add s dim) = Ok dn → dense (dim ++ dn).
Proof.
  intros Hd Hn. pose proof (q_dim_new_inv _ _ _ Hn) as (_ & Hids & _).
  rewrite (q_base_dense dim Hd) in Hids. unfold dense in *.
  rewrite fmap_app, Hids, length_app, Nat2Z.inj_add.
  rewrite seqZ_app by (clear; lia). rewrite Hd.
  by replace (1 + Z.of_nat (length dim)) with (Z.of_nat (length dim) + 1) by (clear; lia).
Qed.

(** X24. Dense numbering is kept: a dictionary file of n rows whose ids
    are the numbers 1, 2, ..., n, each once and in whatever order the rows
    lie, has after a partition n' rows with the ids 1, 2, ..., n', and so
    after all the partitions of a language, however each of them ends.  A
    language started from no dictionary therefore never has a gap in its
    ids. *)
Theorem dictionary_ids_stay_dense gold_root topn topm min_edges min_ref
    write_edges write_ref skip_existing lang' w :
  let p := dim_path_for lang' gold_root in
  dense (dict_at (fs w) p) →
  (∀ f, dense (dict_at (fs (run_one_partition f gold_root topn topm min_edges min_ref
                                              write_edges write_ref skip_existing w).2) p))
  ∧ (∀ lang files,
       dense (dict_at (fs (process_lang lang files gold_root topn topm min_edges min_ref
                                        write_edges write_ref skip_existing w).2) p)).
Proof.
  intros p Hd. split.
  - intros f. apply (run_one_partition_dict_inv dense); [apply merge_step_dense|done].
  - intros lang files.
    apply (process_lang_preserves (λ m, dense (dict_at m p))); [|done].
    intros f w1 H1.
    apply (run_one_partition_dict_inv dense); [apply merge_step_dense|done].
Qed.

Lemma dictionary_ids_stay_dense_witness :
  dense (dict_at (fs (process_lang "en" scenario_files ["gold"] 2 50 1 1 true true true
                                   scenario_world).2)
                 (dim_path_for "en" ["gold"])).
Proof.
  apply (dictionary_ids_stay_dense ["gold"] 2 50 1 1 true true true "en" scenario_world).
  unfold dense. vm_compute. constructor.
Defined.

(** ** What is left to write after a partition *)

Lemma missing_outputs_published lang year month gold_root w :
  missing_outputs (outputs_for lang year month gold_root) w
  = (Ok (omap (λ name, if published (fs w) (out_path gold_root name lang year month)
                       then None else Some name)
              ["article_popularity"; "article_top"; "referrers_top"; "edges_monthly"]),
     w).
Proof.
  unfold missing_outputs. rewrite outputs_for_paths. cbn [fmap list_fmap omap list_omap].
  cbn [fst snd]. by rewrite !missing_published.
Qed.

(** X25. After a processed partition [missing_outputs] finds no enabled
    artifact missing; all it can still list are artifacts whose switch is
    off and that were missing before.  It only reads. *)
Theorem processed_partition_leaves_nothing_missing f gold_root topn topm
    min_edges min_ref write_edges write_ref skip_existing w lang year month :
  parse_partition_from_path f = Ok (lang, year, month) →
  let r := run_one_partition f gold_root topn topm min_edges min_ref
                             write_edges write_ref skip_existing w in
  r.1 = Ok processed →
  missing_outputs (outputs_for lang year month gold_root) r.2
  = (Ok ((if write_ref
          || published (fs w) (out_path gold_root "referrers_top" lang year month)
          then [] else ["referrers_top"])
         ++ (if write_edges
             || published (fs w) (out_path gold_root "edges_monthly" lang year month)
             then [] else ["edges_monthly"])),
     r.2).
Proof.
  intros Hp r Hr. rewrite missing_outputs_published. f_equal. f_equal.
  destruct (run_one_partition_fs f gold_root topn topm min_edges min_ref write_edges
              write_ref skip_existing w lang year month Hp)
    as [(Hne & _)|(_ & s & dim & dn & _ & Hfs)]; [done|]. fold r in Hfs.
  pose proof (outputs_fs_all_published gold_root lang year month topn topm min_edges
                min_ref write_edges write_ref (q_s_ids s (dim ++ dn))
                (publish (dim_path_for lang gold_root) (TDim (dim ++ dn)) (fs w))) as Hall.
  rewrite <- Hfs in Hall. apply all_published_unfold in Hall as (H1 & H2 & H3 & H4).
  cbn [omap list_omap]. rewrite H1, H2.
  assert (∀ name, name ∉ enabled_outputs write_edges write_ref →
            published (fs r.2) (out_path gold_root name lang year month)
            = published (fs w) (out_path gold_root name lang year month)) as Hoff.
  { intros name Hn. unfold published. rewrite Hfs.
    rewrite outputs_fs_lookup_ne.
    - rewrite publish_lookup_ne; [done|path_ne|path_ne].
    - intros name' Hn'. assert (name ≠ name') by (by intros ->).
      split; [|path_ne].
      rewrite !out_path_parts. intros E%app_inv_head. congruence. }
  destruct write_ref, write_edges; cbn [orb].
  - rewrite H3, H4 by done. reflexivity.
  - rewrite H3 by done. rewrite Hoff by (rewrite enabled_outputs_cases; intuition congruence).
    destruct (published (fs w) _); reflexivity.
  - rewrite H4 by done. rewrite Hoff by (rewrite enabled_outputs_cases; intuition congruence).
    destruct (published (fs w) _); reflexivity.
  - rewrite !Hoff by (rewrite enabled_outputs_cases; intuition congruence).
    destruct (published (fs w) _), (published (fs w) _); reflexivity.
Qed.

Lemma processed_partition_leaves_nothing_missing_witness :
  let r := run_one_partition scenario_file ["gold"] 2 50 1 1 false true true
                             scenario_world in
  missing_outputs (outputs_for "en" 2024 1 ["gold"]) r.2 = (Ok ["edges_monthly"], r.2).
Proof.
  intros r.
  apply (processed_partition_leaves_nothing_missing scenario_file ["gold"] 2 50 1 1
           false true true scenario_world "en" 2024 1).
  - reflexivity.
  - vm_compute. reflexivity.
Defined.
